(** * doxy: authority store, import resolver, finding ids, inline suppressions

    A shallow embedding of the parts of doxy that answer "what does this
    call site mean at this version":

    - [Authority]: [InMemoryAuthorityStore.getApiSpec] and its version
      resolution helpers (the authority store);
    - [Finding]: [makeLongId] and [parseLongId] (core/types/finding.ts);
    - [Suppression]: [parseInlineSuppressions] and [isLineSuppressed]
      (core/suppression/index.ts);
    - [Resolver]: [extractPackageName], [resolveCallee] and
      [resolveImports] (the import resolver);
    - [StoreConstruction]: [createAuthorityStoreFromSpecs] (the authority
      store);
    - [Adapters]: [ReactAdapter.detect], [ReactAdapter.resolveSymbols] and
      [normalizeReactImport] (the React adapter).

    JavaScript strings are sequences of UTF-16 code units; they are modelled
    as lists of [N].  JavaScript numbers that hold line numbers, columns and
    argument counts are modelled as [Z]. *)

From Stdlib Require Import String Ascii DecimalPos.
From stdpp Require Import base numbers option list countable gmap.

Local Open Scope Z_scope.

(* ================================================================== *)
(** * JavaScript strings *)
(* ================================================================== *)

Module JS.

(** A string is the list of its UTF-16 code units. *)
Abbreviation jsstring := (list N).

(** The code units of an ASCII literal. *)
Fixpoint js (s : string) : jsstring :=
  match s with
  | EmptyString => []
  | String a s' => N_of_ascii a :: js s'
  end.

(** [s === t] on strings. *)
Definition str_eqb (s t : jsstring) : bool := bool_decide (s = t).

(** Truthiness of a string: only the empty string is falsy. *)
Definition truthy (s : jsstring) : bool :=
  match s with [] => false | _ :: _ => true end.

(** Truthiness of an optional string ([undefined] is falsy). *)
Definition truthy_opt (o : option jsstring) : bool :=
  match o with None => false | Some s => truthy s end.

(** [s.startsWith(p)]. *)
Fixpoint startsWith (s p : jsstring) : bool :=
  match p, s with
  | [], _ => true
  | _ :: _, [] => false
  | a :: p', b :: s' => (a =? b)%N && startsWith s' p'
  end.

(** [s.indexOf(c)] for a one-unit needle: the index of the first
    occurrence, or -1. *)
Fixpoint indexOf (s : jsstring) (c : N) : Z :=
  match s with
  | [] => -1
  | a :: s' =>
      if (a =? c)%N then 0
      else let i := indexOf s' c in if i <? 0 then -1 else i + 1
  end.

(** Clamp a relative index as [String.prototype.slice] does. *)
Definition clamp_index (len i : Z) : Z :=
  if i <? 0 then Z.max (len + i) 0 else Z.min i len.

(** [s.slice(from, to)]. *)
Definition slice (s : jsstring) (from to : Z) : jsstring :=
  let len := Z.of_nat (length s) in
  let a := clamp_index len from in
  let b := clamp_index len to in
  take (Z.to_nat (b - a)) (drop (Z.to_nat a) s).

(** [s.slice(from)]. *)
Definition slice_from (s : jsstring) (from : Z) : jsstring :=
  slice s from (Z.of_nat (length s)).

(** [s.split(c)] for a one-unit separator.  The result is never empty. *)
Fixpoint split (s : jsstring) (c : N) : list jsstring :=
  match s with
  | [] => [[]]
  | a :: s' =>
      if (a =? c)%N then [] :: split s' c
      else match split s' c with
           | [] => [[a]]
           | seg :: segs => (a :: seg) :: segs
           end
  end.

(** [parts.join(c)] for a one-unit separator. *)
Fixpoint join (parts : list jsstring) (c : N) : jsstring :=
  match parts with
  | [] => []
  | [p] => p
  | p :: ps => p ++ c :: join ps c
  end.

(** The outcome of a call that may throw. *)
Inductive outcome (A : Type) : Type :=
| Returned (a : A)
| Thrown.
Arguments Returned {A} a.
Arguments Thrown {A}.

End JS.
Export JS.

(* ================================================================== *)
(** * The semver package, as the store uses it *)
(* ================================================================== *)

(** The store calls [semver.coerce], [semver.satisfies], [semver.minVersion],
    [semver.lt], [semver.gt] and [semver.gte].  The package is not part of
    the repository: it is an interface here.  [coerce] returns [null] on
    failure; [minVersion] returns [null] when no version satisfies the range
    and throws on a string that is not a range; [lt], [gt] and [gte] are
    the package's three-way [compare] tested against zero. *)
Class SemverApi := {
  SemVer : Type;
  coerce : jsstring → option SemVer;
  compare : SemVer → SemVer → comparison;
  satisfies : SemVer → jsstring → bool;
  minVersion : jsstring → outcome (option SemVer);
}.

Definition lt `{SemverApi} (a b : SemVer) : bool :=
  match compare a b with Lt => true | _ => false end.
Definition gt `{SemverApi} (a b : SemVer) : bool :=
  match compare a b with Gt => true | _ => false end.
Definition gte `{SemverApi} (a b : SemVer) : bool :=
  match compare a b with Lt => false | _ => true end.

(** [compare] is a total preorder on versions (two versions that differ
    only in build metadata compare equal). *)
Class SemverOrder `{SemverApi} : Prop := {
  compare_antisym : ∀ a b, compare b a = CompOpp (compare a b);
  compare_lt_trans : ∀ a b c, compare a b = Lt → compare b c = Lt → compare a c = Lt;
  compare_eq_lt : ∀ a b c, compare a b = Eq → compare b c = Lt → compare a c = Lt;
}.

(* ================================================================== *)
(** * Authority store *)
(* ================================================================== *)

Module Authority.

Inductive ApiKind := KFunction | KComponent | KType | KConstant | KClass | KHook.

Record ParameterSpec := {
  name : jsstring;
  required : bool;
  description : option jsstring;
}.

(** [maxArity] is [None] for [Infinity]. *)
Record SignatureSpec := {
  sig_since : jsstring;
  until : option jsstring;
  minArity : Z;
  maxArity : option Z;
  params : list ParameterSpec;
}.

Record ReplacementRef := {
  rep_package : jsstring;
  rep_export : jsstring;
  migrationHint : jsstring;
}.

Record DeprecationEntry := {
  dep_since : jsstring;
  removedIn : option jsstring;
  message : jsstring;
  replacement : option ReplacementRef;
}.

Record ApiSpec := {
  package : jsstring;
  export : jsstring;
  kind : ApiKind;
  availableIn : jsstring;
  signatures : list SignatureSpec;
  deprecations : list DeprecationEntry;
  docsUrl : option jsstring;
}.

Record ResolvedApiSpec := {
  spec : ApiSpec;
  activeSignature : option SignatureSpec;
  activeDeprecation : option DeprecationEntry;
  available : bool;
  isFuture : bool;
}.

(** The private fields of [InMemoryAuthorityStore].  [packages] is the
    [Set] in insertion order. *)
Record InMemoryAuthorityStore := {
  specs : gmap jsstring ApiSpec;
  packages : list jsstring;
  hash : jsstring;
  version : jsstring;
}.

Section WithSemver.
Context `{SemverApi}.

Definition isAvailable (spec : ApiSpec) (version : jsstring) : bool :=
  match coerce version with
  | None => false
  | Some coerced => satisfies coerced (availableIn spec)
  end.

Definition isFutureApi (spec : ApiSpec) (version : jsstring) : outcome bool :=
  match coerce version with
  | None => Returned false
  | Some coerced =>
      match minVersion (availableIn spec) with
      | Thrown => Thrown
      | Returned None => Returned false
      | Returned (Some minV) => Returned (lt coerced minV)
      end
  end.

(** One iteration of the loop of [findActiveSignature]: [best] before
    [sig] is seen, [best] after. *)
Definition signature_step (coerced : SemVer) (best : option SignatureSpec)
    (sig : SignatureSpec) : option SignatureSpec :=
  match coerce (sig_since sig) with
  | None => best
  | Some sinceSemver =>
      if lt coerced sinceSemver then best
      else if (if truthy_opt (until sig)
               then match coerce (default [] (until sig)) with
                    | Some untilSemver => gte coerced untilSemver
                    | None => false
                    end
               else false)
      then best
      else match best with
           | None => Some sig
           | Some b =>
               match coerce (sig_since b) with
               | None => Some sig
               | Some bestSince =>
                   if gt sinceSemver bestSince then Some sig else best
               end
           end
  end.

Definition findActiveSignature (spec : ApiSpec) (version : jsstring)
    : option SignatureSpec :=
  match coerce version with
  | None => None
  | Some coerced => foldl (signature_step coerced) None (signatures spec)
  end.

(** The loop of [findActiveDeprecation], which returns from inside. *)
Fixpoint deprecation_loop (coerced : SemVer) (deps : list DeprecationEntry)
    : option DeprecationEntry :=
  match deps with
  | [] => None
  | dep :: rest =>
      match coerce (dep_since dep) with
      | None => deprecation_loop coerced rest
      | Some sinceSemver =>
          if lt coerced sinceSemver then deprecation_loop coerced rest
          else Some dep
      end
  end.

Definition findActiveDeprecation (spec : ApiSpec) (version : jsstring)
    : option DeprecationEntry :=
  match coerce version with
  | None => None
  | Some coerced => deprecation_loop coerced (deprecations spec)
  end.

(** The key of the [specs] map: [`${packageName}/${exportName}`]. *)
Definition specKey (packageName exportName : jsstring) : jsstring :=
  packageName ++ js "/" ++ exportName.

(** [getApiSpec] as a method: it receives the store and hands back the
    store it leaves behind, next to what it returns or throws. *)
Definition getApiSpec (this : InMemoryAuthorityStore)
    (packageName exportName installedVersion : jsstring)
    : outcome (option ResolvedApiSpec) * InMemoryAuthorityStore :=
  let key := specKey packageName exportName in
  match specs this !! key with
  | None => (Returned None, this)
  | Some spec =>
      let available := isAvailable spec installedVersion in
      match (if negb available then isFutureApi spec installedVersion
             else Returned false) with
      | Thrown => (Thrown, this)
      | Returned isFuture =>
          let activeSignature := findActiveSignature spec installedVersion in
          let activeDeprecation := findActiveDeprecation spec installedVersion in
          (Returned (Some {| spec := spec;
                             activeSignature := activeSignature;
                             activeDeprecation := activeDeprecation;
                             available := available;
                             isFuture := isFuture |}), this)
      end
  end.

Definition contentHash (this : InMemoryAuthorityStore) : jsstring := hash this.
Definition dataVersion (this : InMemoryAuthorityStore) : jsstring := version this.
Definition coveredPackages (this : InMemoryAuthorityStore) : list jsstring :=
  packages this.
Definition hasPackage (this : InMemoryAuthorityStore) (packageName : jsstring) : bool :=
  bool_decide (packageName ∈ packages this).

End WithSemver.

End Authority.

(* ================================================================== *)
(** * Regular expressions *)
(* ================================================================== *)

(** The fragment of JavaScript regular expressions that the repository's
    patterns use, with the backtracking order of the language: a greedy
    quantifier tries one more iteration before it tries to stop, a lazy one
    the other way round; an alternation tries its left branch first; a
    match is searched from the leftmost start position on.  No pattern of
    the repository sets a flag. *)
Module Regex.

Inductive regex : Type :=
| Chr (p : N → bool)                 (* one code unit of a class *)
| Eps                                 (* the empty pattern *)
| Seq (r1 r2 : regex)                 (* r1 r2 *)
| Alt (r1 r2 : regex)                 (* r1|r2 *)
| Star (greedy : bool) (r : regex)    (* r* and r*? *)
| Group (i : nat) (r : regex)         (* the i-th capturing group *)
| Bol                                 (* ^ *)
| Eol.                                (* $ *)

(** [r+], [r+?] and [r?]. *)
Definition Plus (greedy : bool) (r : regex) : regex := Seq r (Star greedy r).
Definition Opt (r : regex) : regex := Alt r Eps.

(** The concatenation of the patterns of a list. *)
Definition Cat (rs : list regex) : regex := foldr Seq Eps rs.

(** A literal code unit and a literal string. *)
Definition Lit1 (c : N) : regex := Chr (N.eqb c).
Fixpoint Lit (s : jsstring) : regex :=
  match s with
  | [] => Eps
  | [c] => Lit1 c
  | c :: s' => Seq (Lit1 c) (Lit s')
  end.

(** Character classes. *)
Definition is_digit (c : N) : bool := ((48 <=? c) && (c <=? 57))%N.
Definition is_word (c : N) : bool :=
  (is_digit c || ((65 <=? c) && (c <=? 90)) || ((97 <=? c) && (c <=? 122))
   || (c =? 95))%N.
Definition is_line_terminator (c : N) : bool :=
  ((c =? 10) || (c =? 13) || (c =? 8232) || (c =? 8233))%N.
(** [\s]: white space and line terminators. *)
Definition is_space (c : N) : bool :=
  ((c =? 9) || (c =? 11) || (c =? 12) || (c =? 32) || (c =? 160)
   || (c =? 5760) || ((8192 <=? c) && (c <=? 8202)) || (c =? 8239)
   || (c =? 8287) || (c =? 12288) || (c =? 65279))%N
  || is_line_terminator c.
(** [.] *)
Definition is_dot (c : N) : bool := negb (is_line_terminator c).

(** The captures: entry [i] is what group [i] matched last, if it took
    part in the match. *)
Abbreviation captures := (list (option jsstring)).

(** The continuation of a match: the offset reached, the rest of the
    subject and the captures so far; [None] makes the matcher backtrack. *)
Abbreviation continuation A := (nat → jsstring → captures → option A).

(** [r*] and [r*?] for a pattern [r] matched by [body].  An iteration that
    consumes nothing is rejected, as the language does; every other
    iteration consumes a code unit, so [fuel] above the length of the
    subject is never used up. *)
Fixpoint iterate {A : Type}
    (body : nat → jsstring → captures → continuation A → option A)
    (greedy : bool) (k : continuation A)
    (fuel : nat) (pos : nat) (s : jsstring) (caps : captures) : option A :=
  match fuel with
  | O => k pos s caps
  | S fuel' =>
      let again (_ : unit) :=
        body pos s caps
          (λ pos' s' caps',
             if (pos <? pos')%nat then iterate body greedy k fuel' pos' s' caps'
             else None) in
      if greedy then
        match again () with
        | Some x => Some x
        | None => k pos s caps
        end
      else
        match k pos s caps with
        | Some x => Some x
        | None => again ()
        end
  end.

(** [rmatch r pos s caps k]: match [r] at the head of [s], which starts
    at offset [pos] of the subject, then continue with [k]. *)
Fixpoint rmatch {A : Type} (r : regex) (pos : nat) (s : jsstring) (caps : captures)
    (k : continuation A) {struct r} : option A :=
  match r with
  | Chr p =>
      match s with
      | c :: s' => if p c then k (S pos) s' caps else None
      | [] => None
      end
  | Eps => k pos s caps
  | Seq r1 r2 =>
      rmatch r1 pos s caps (λ pos' s' caps', rmatch r2 pos' s' caps' k)
  | Alt r1 r2 =>
      match rmatch r1 pos s caps k with
      | Some x => Some x
      | None => rmatch r2 pos s caps k
      end
  | Star greedy r1 => iterate (rmatch r1) greedy k (S (length s)) pos s caps
  | Group i r1 =>
      rmatch r1 pos s caps
        (λ pos' s' caps', k pos' s' (<[i := Some (take (pos' - pos) s)]> caps'))
  | Bol => match pos with O => k pos s caps | S _ => None end
  | Eol => match s with [] => k pos s caps | _ :: _ => None end
  end.

(** A successful match: where it starts and ends in the subject, and the
    array [[whole; group 1; ...; group n]]. *)
Record match_result := {
  index : nat;
  lastIndex : nat;
  groups : captures;
}.

(** Try the start positions from [pos] on, leftmost first. *)
Fixpoint search (r : regex) (n : nat) (pos : nat) (s : jsstring)
    : option match_result :=
  match rmatch r pos s (replicate (S n) None)
          (λ pos' _ caps', Some (pos', <[O := Some (take (pos' - pos) s)]> caps')) with
  | Some (e, caps) => Some {| index := pos; lastIndex := e; groups := caps |}
  | None =>
      match s with
      | [] => None
      | _ :: s' => search r n (S pos) s'
      end
  end.

(** [r.exec(s)] for a pattern with [n] capturing groups. *)
Definition exec (r : regex) (n : nat) (s : jsstring) : option match_result :=
  search r n 0 s.

(** [s.match(r)]: the array of the match. *)
Definition match_ (r : regex) (n : nat) (s : jsstring) : option captures :=
  groups <$> exec r n s.

(** [r.test(s)]. *)
Definition test (r : regex) (n : nat) (s : jsstring) : bool :=
  bool_decide (is_Some (exec r n s)).

(** [s.replace(r, t)] for a replacement [t] without [$]: the first match
    is replaced. *)
Definition replace (r : regex) (n : nat) (s t : jsstring) : jsstring :=
  match exec r n s with
  | None => s
  | Some m => take (index m) s ++ t ++ drop (lastIndex m) s
  end.

(** Entry [i] of a match array ([undefined] is [None]). *)
Definition group (m : captures) (i : nat) : option jsstring :=
  mjoin (m !! i).

(** [s.trim()]. *)
Fixpoint trimStart (s : jsstring) : jsstring :=
  match s with
  | c :: s' => if is_space c then trimStart s' else s
  | [] => []
  end.
Definition trim (s : jsstring) : jsstring :=
  reverse (trimStart (reverse (trimStart s))).

End Regex.

(* ================================================================== *)
(** * Findings: kinds, severities and long ids *)
(* ================================================================== *)

Module Finding.
Import Regex.

Inductive ViolationKind :=
| DeprecatedApi | RemovedApi | FutureApi | WrongArity | WrongParam | UnknownExport.

#[global] Instance ViolationKind_eq_dec : EqDecision ViolationKind.
Proof. solve_decision. Defined.

Inductive Severity := SevError | SevWarning | SevInfo.

Definition SEVERITY_MAP (k : ViolationKind) : Severity :=
  match k with
  | RemovedApi | FutureApi | WrongArity | WrongParam => SevError
  | DeprecatedApi => SevWarning
  | UnknownExport => SevInfo
  end.

(** The decimal digits of a number, most significant first. *)
Fixpoint digits_of_uint (d : Decimal.uint) : jsstring :=
  match d with
  | Decimal.Nil => []
  | Decimal.D0 d' => 48%N :: digits_of_uint d'
  | Decimal.D1 d' => 49%N :: digits_of_uint d'
  | Decimal.D2 d' => 50%N :: digits_of_uint d'
  | Decimal.D3 d' => 51%N :: digits_of_uint d'
  | Decimal.D4 d' => 52%N :: digits_of_uint d'
  | Decimal.D5 d' => 53%N :: digits_of_uint d'
  | Decimal.D6 d' => 54%N :: digits_of_uint d'
  | Decimal.D7 d' => 55%N :: digits_of_uint d'
  | Decimal.D8 d' => 56%N :: digits_of_uint d'
  | Decimal.D9 d' => 57%N :: digits_of_uint d'
  end.

(** [`${n}`] for a number [n] that is a safe integer (at most [2^53 - 1]
    in absolute value): JavaScript prints such a number in plain decimal.
    Larger numbers, which it prints in exponent form from [1e21] on, are
    outside the model. *)
Definition numberToString (n : Z) : jsstring :=
  match n with
  | Z0 => js "0"
  | Zpos p => digits_of_uint (Pos.to_uint p)
  | Zneg p => js "-" ++ digits_of_uint (Pos.to_uint p)
  end.

(** [parseInt(s, 10)] on a string of decimal digits, which is what a
    [(\d+)] group holds.  The value is exact, as that of [parseInt] is for a
    run of digits that denotes a safe integer; above [2^53 - 1] [parseInt]
    rounds to a double, which the model does not follow. *)
Definition parseInt10 (s : jsstring) : Z :=
  foldl (λ acc c, acc * 10 + (Z.of_N c - 48)) 0 s.

Definition makeLongId (pkg exportName file : jsstring) (line col : Z) : jsstring :=
  js "dxy:" ++ pkg ++ js "/" ++ exportName ++ js ":" ++ file ++ js ":"
  ++ numberToString line ++ js ":" ++ numberToString col.

(** [/^dxy:([^/]+)\/([^:]+):(.+):(\d+):(\d+)$/] *)
Definition LONG_ID_PATTERN : regex :=
  Cat [ Bol; Lit (js "dxy:");
        Group 1 (Plus true (Chr (λ c, negb (c =? 47)%N)));
        Lit (js "/");
        Group 2 (Plus true (Chr (λ c, negb (c =? 58)%N)));
        Lit (js ":");
        Group 3 (Plus true (Chr is_dot));
        Lit (js ":");
        Group 4 (Plus true (Chr is_digit));
        Lit (js ":");
        Group 5 (Plus true (Chr is_digit));
        Eol ].

Record ParsedLongId := {
  package : jsstring;
  export : jsstring;
  file : jsstring;
  line : Z;
  column : Z;
}.

Definition parseLongId (longId : jsstring) : option ParsedLongId :=
  match match_ LONG_ID_PATTERN 5 longId with
  | None => None
  | Some m =>
      let pkg := group m 1 in
      let exp := group m 2 in
      let file := group m 3 in
      let line := group m 4 in
      let col := group m 5 in
      if negb (truthy_opt pkg) || negb (truthy_opt exp) || negb (truthy_opt file)
         || negb (truthy_opt line) || negb (truthy_opt col)
      then None
      else Some {| package := default [] pkg;
                   export := default [] exp;
                   file := default [] file;
                   line := parseInt10 (default [] line);
                   column := parseInt10 (default [] col) |}
  end.

End Finding.

(* ================================================================== *)
(** * Inline suppressions *)
(* ================================================================== *)

Module Suppression.
Import Regex.
Import Finding.

(** [ViolationKind | "*"]. *)
Inductive SuppressionKind :=
| AnyKind
| OfKind (k : ViolationKind).

#[global] Instance SuppressionKind_eq_dec : EqDecision SuppressionKind.
Proof. solve_decision. Defined.

Record InlineSuppression := {
  kind : SuppressionKind;
  reason : option jsstring;
  startLine : Z;
  endLine : Z;
}.

(** [VALID_KINDS.has(kind)], with the kind the string is then cast to. *)
Definition VALID_KINDS (kind : jsstring) : option SuppressionKind :=
  if str_eqb kind (js "deprecated-api") then Some (OfKind DeprecatedApi)
  else if str_eqb kind (js "removed-api") then Some (OfKind RemovedApi)
  else if str_eqb kind (js "future-api") then Some (OfKind FutureApi)
  else if str_eqb kind (js "wrong-arity") then Some (OfKind WrongArity)
  else if str_eqb kind (js "wrong-param") then Some (OfKind WrongParam)
  else if str_eqb kind (js "unknown-export") then Some (OfKind UnknownExport)
  else if str_eqb kind (js "*") then Some AnyKind
  else None.

(** [[\w*-]] *)
Definition is_kind_char (c : N) : bool := (is_word c || (c =? 42) || (c =? 45))%N.

(** [(?:--|—|:)] *)
Definition SEPARATOR : regex :=
  Alt (Lit (js "--")) (Alt (Lit1 8212) (Lit (js ":"))).

(** [(?:\s*(?:--|—|:)\s*(.+?))?] and the same with a greedy [(.+)]. *)
Definition REASON (greedy : bool) : regex :=
  Opt (Cat [ Star true (Chr is_space); SEPARATOR; Star true (Chr is_space);
             Group 2 (Plus greedy (Chr is_dot)) ]).

(** [/doxy-ignore\s+([\w*-]+)(?:\s*(?:--|—|:)\s*(.+?))?$/] *)
Definition IGNORE_NEXT_LINE : regex :=
  Cat [ Lit (js "doxy-ignore"); Plus true (Chr is_space);
        Group 1 (Plus true (Chr is_kind_char)); REASON false; Eol ].

(** [/doxy-ignore-line\s+([\w*-]+)(?:\s*(?:--|—|:)\s*(.+?))?$/] *)
Definition IGNORE_CURRENT_LINE : regex :=
  Cat [ Lit (js "doxy-ignore-line"); Plus true (Chr is_space);
        Group 1 (Plus true (Chr is_kind_char)); REASON false; Eol ].

(** [/doxy-ignore-start\s+([\w*-]+)(?:\s*(?:--|—|:)\s*(.+))?/] *)
Definition IGNORE_BLOCK_START : regex :=
  Cat [ Lit (js "doxy-ignore-start"); Plus true (Chr is_space);
        Group 1 (Plus true (Chr is_kind_char)); REASON true ].

(** [/doxy-ignore-end/] *)
Definition IGNORE_BLOCK_END : regex := Lit (js "doxy-ignore-end").

(** [/\s*\*\/\s*$/] *)
Definition COMMENT_CLOSER : regex :=
  Cat [ Star true (Chr is_space); Lit (js "*/"); Star true (Chr is_space); Eol ].

(** [x || undefined] on a string. *)
Definition or_undefined (s : jsstring) : option jsstring :=
  if truthy s then Some s else None.

Definition cleanBlockReason (raw : option jsstring) : option jsstring :=
  match raw with
  | None => None
  | Some r =>
      if negb (truthy r) then None
      else or_undefined (trim (replace COMMENT_CLOSER 0 r []))
  end.

(** An entry of [openBlocks]. *)
Record OpenBlock := {
  ob_kind : SuppressionKind;
  ob_reason : option jsstring;
  ob_startLine : Z;
}.

(** The two arrays the loop of [parseInlineSuppressions] updates.  New
    elements are pushed at the end; [pop] takes the last one. *)
Record ParserState := {
  suppressions : list InlineSuppression;
  openBlocks : list OpenBlock;
}.

Definition pop {A : Type} (l : list A) : option A * list A :=
  (last l, take (length l - 1) l).

(** The block start test of the loop: the match of [IGNORE_BLOCK_START],
    unless the line also holds a current-line directive or, once the block
    start is cut out, a next-line directive. *)
Definition blockStartMatch (line : jsstring) : option captures :=
  match match_ IGNORE_BLOCK_START 2 line with
  | Some m =>
      if negb (test IGNORE_CURRENT_LINE 2 line)
         && negb (test IGNORE_NEXT_LINE 2 (replace IGNORE_BLOCK_START 2 line []))
      then Some m else None
  | None => None
  end.

(** The body of the loop for the line [line] with number [lineNum]. *)
Definition parse_line (lineNum : Z) (line : jsstring) (st : ParserState)
    : ParserState :=
  if test IGNORE_BLOCK_END 0 line then
    match pop (openBlocks st) with
    | (Some last, rest) =>
        {| suppressions :=
             suppressions st ++ [ {| kind := ob_kind last;
                                     reason := ob_reason last;
                                     startLine := ob_startLine last;
                                     endLine := lineNum |} ];
           openBlocks := rest |}
    | (None, rest) => {| suppressions := suppressions st; openBlocks := rest |}
    end
  else
    match blockStartMatch line with
    | Some m =>
        match VALID_KINDS (default [] (group m 1)) with
        | Some kind =>
            {| suppressions := suppressions st;
               openBlocks :=
                 openBlocks st ++ [ {| ob_kind := kind;
                                       ob_reason := cleanBlockReason (group m 2);
                                       ob_startLine := lineNum |} ] |}
        | None => st
        end
    | None =>
        match match_ IGNORE_CURRENT_LINE 2 line with
        | Some m =>
            match VALID_KINDS (default [] (group m 1)) with
            | Some kind =>
                {| suppressions :=
                     suppressions st ++ [ {| kind := kind;
                                             reason := trim <$> group m 2;
                                             startLine := lineNum;
                                             endLine := lineNum |} ];
                   openBlocks := openBlocks st |}
            | None => st
            end
        | None =>
            match match_ IGNORE_NEXT_LINE 2 line with
            | Some m =>
                match VALID_KINDS (default [] (group m 1)) with
                | Some kind =>
                    {| suppressions :=
                         suppressions st ++ [ {| kind := kind;
                                                 reason := trim <$> group m 2;
                                                 startLine := lineNum + 1;
                                                 endLine := lineNum + 1 |} ];
                       openBlocks := openBlocks st |}
                | None => st
                end
            | None => st
            end
        end
    end.

(** The loop [for (let i = 0; i < lines.length; i++)], entered at index [i]
    with the lines still to read. *)
Fixpoint parse_lines (i : Z) (lines : list jsstring) (st : ParserState)
    : ParserState :=
  match lines with
  | [] => st
  | line :: rest => parse_lines (i + 1) rest (parse_line (i + 1) line st)
  end.

Definition initial : ParserState := {| suppressions := []; openBlocks := [] |}.

Definition parseInlineSuppressions (source : jsstring) : list InlineSuppression :=
  suppressions (parse_lines 0 (split source 10) initial).

(** The loop of [isLineSuppressed], which returns from inside. *)
Fixpoint isLineSuppressed (line : Z) (kind : ViolationKind)
    (suppressions : list InlineSuppression) : option InlineSuppression :=
  match suppressions with
  | [] => None
  | sup :: rest =>
      if (line <? startLine sup) || (line >? endLine sup)
      then isLineSuppressed line kind rest
      else if bool_decide (Suppression.kind sup = AnyKind)
              || bool_decide (Suppression.kind sup = OfKind kind)
      then Some sup
      else isLineSuppressed line kind rest
  end.

End Suppression.

(* ================================================================== *)
(** * Import resolver *)
(* ================================================================== *)

Module Resolver.

Record SourceLocation := {
  file : jsstring;
  line : Z;
  column : Z;
  endLine : option Z;
  endColumn : option Z;
}.

Record ImportSpecifier := {
  imported : jsstring;
  local : jsstring;
  spec_isTypeOnly : bool;
}.

Record NormalizedImport := {
  source : jsstring;
  specifiers : list ImportSpecifier;
  hasDefault : bool;
  defaultLocal : option jsstring;
  hasNamespace : bool;
  namespaceLocal : option jsstring;
  isTypeOnly : bool;
  isRequire : bool;
  location : SourceLocation;
}.

Record NormalizedCallExpression := {
  callee : jsstring;
  argCount : Z;
  argNames : list jsstring;
  call_location : SourceLocation;
}.

Record NormalizedJSXElement := {
  tagName : jsstring;
  attributes : list jsstring;
  jsx_location : SourceLocation;
}.

Record NormalizedAST := {
  imports : list NormalizedImport;
  callExpressions : list NormalizedCallExpression;
  jsxElements : list NormalizedJSXElement;
}.

Inductive ImportKind := Named | Default | Namespace | Dynamic.

#[global] Instance ImportKind_eq_dec : EqDecision ImportKind.
Proof. solve_decision. Defined.

Record UsageSite := {
  site_location : SourceLocation;
  site_argCount : option Z;
  site_argNames : option (list jsstring);
}.

Record SymbolUsage := {
  package : jsstring;
  export : jsstring;
  importKind : ImportKind;
  usageSites : list UsageSite;
}.

Record Binding := {
  b_package : jsstring;
  exportName : jsstring;
  b_importKind : ImportKind;
  importLocation : SourceLocation;
}.

(** ** [Map] and [Set] with string keys

    A [Map] iterates in the order in which its keys were first set; setting
    a key that is present replaces its value where it stands. *)
Abbreviation Map V := (list (jsstring * V)).

Fixpoint map_get {V : Type} (m : Map V) (k : jsstring) : option V :=
  match m with
  | [] => None
  | (k', v) :: m' => if str_eqb k' k then Some v else map_get m' k
  end.

Definition map_has {V : Type} (m : Map V) (k : jsstring) : bool :=
  bool_decide (is_Some (map_get m k)).

Fixpoint map_set {V : Type} (m : Map V) (k : jsstring) (v : V) : Map V :=
  match m with
  | [] => [(k, v)]
  | (k', v') :: m' =>
      if str_eqb k' k then (k', v) :: m' else (k', v') :: map_set m' k v
  end.

Definition map_values {V : Type} (m : Map V) : list V := m.*2.

(** [set.add(x)] on a [Set] kept in insertion order. *)
Definition set_add (s : list jsstring) (x : jsstring) : list jsstring :=
  if bool_decide (x ∈ s) then s else s ++ [x].

(** ** Package names *)

Definition extractPackageName (source : jsstring) : option jsstring :=
  if startsWith source (js ".") || startsWith source (js "/") then None
  else if startsWith source (js "@") then
    let parts := split source 47 in
    if (length parts <? 2)%nat then None
    else Some (default [] (parts !! 0%nat) ++ js "/" ++ default [] (parts !! 1%nat))
  else
    let slashIdx := indexOf source 47 in
    if slashIdx =? -1 then Some source else Some (slice source 0 slashIdx).

(** ** Callees *)

Record ResolvedCallee := {
  rc_package : jsstring;
  rc_exportName : jsstring;
  rc_importKind : ImportKind;
}.

Definition is_member_export (exportName : jsstring) : bool :=
  str_eqb exportName (js "default") || str_eqb exportName (js "*").

Definition resolveCallee (callee : jsstring) (bindings : Map Binding)
    (namespacesAndDefaults : Map jsstring) : option ResolvedCallee :=
  let member (_ : unit) :=
    let dotIdx := indexOf callee 46 in
    if negb (dotIdx =? -1) then
      let obj := slice callee 0 dotIdx in
      let prop := slice_from callee (dotIdx + 1) in
      match map_get namespacesAndDefaults obj with
      | Some pkg =>
          if truthy pkg then
            Some {| rc_package := pkg;
                    rc_exportName := prop;
                    rc_importKind :=
                      match map_get bindings obj with
                      | Some binding =>
                          if bool_decide (b_importKind binding = Namespace)
                          then Namespace else Default
                      | None => Default
                      end |}
          else None
      | None => None
      end
    else None in
  match map_get bindings callee with
  | Some directBinding =>
      if negb (is_member_export (exportName directBinding))
      then Some {| rc_package := b_package directBinding;
                   rc_exportName := exportName directBinding;
                   rc_importKind := b_importKind directBinding |}
      else member ()
  | None => member ()
  end.

(** ** [resolveImports] *)

(** What step 1 builds. *)
Record ImportState := {
  bindings : Map Binding;
  namespacesAndDefaults : Map jsstring;
  importedPackages : list jsstring;
  unresolvedImports : list jsstring;
}.

Definition no_imports : ImportState :=
  {| bindings := []; namespacesAndDefaults := [];
     importedPackages := []; unresolvedImports := [] |}.

(** The inner loop over the named specifiers of one import. *)
Definition bind_specifier (pkg : jsstring) (loc : SourceLocation)
    (bindings : Map Binding) (spec : ImportSpecifier) : Map Binding :=
  if spec_isTypeOnly spec then bindings
  else map_set bindings (local spec)
         {| b_package := pkg; exportName := imported spec;
            b_importKind := Named; importLocation := loc |}.

(** The body of the loop over [ast.imports]. *)
Definition import_step (trackedPackages : option (gset jsstring))
    (st : ImportState) (imp : NormalizedImport) : ImportState :=
  if isTypeOnly imp then st
  else
    match extractPackageName (source imp) with
    | None => st
    | Some pkg =>
        if negb (truthy pkg) then st
        else if match trackedPackages with
                | Some tracked => negb (bool_decide (pkg ∈ tracked))
                | None => false
                end
        then {| bindings := bindings st;
                namespacesAndDefaults := namespacesAndDefaults st;
                importedPackages := importedPackages st;
                unresolvedImports := unresolvedImports st ++ [source imp] |}
        else
          let b1 := foldl (bind_specifier pkg (location imp)) (bindings st)
                      (specifiers imp) in
          let '(n2, b2) :=
            if hasDefault imp && truthy_opt (defaultLocal imp) then
              let l := default [] (defaultLocal imp) in
              (map_set (namespacesAndDefaults st) l pkg,
               map_set b1 l {| b_package := pkg; exportName := js "default";
                               b_importKind := Default;
                               importLocation := location imp |})
            else (namespacesAndDefaults st, b1) in
          let '(n3, b3) :=
            if hasNamespace imp && truthy_opt (namespaceLocal imp) then
              let l := default [] (namespaceLocal imp) in
              (map_set n2 l pkg,
               map_set b2 l {| b_package := pkg; exportName := js "*";
                               b_importKind := Namespace;
                               importLocation := location imp |})
            else (n2, b2) in
          {| bindings := b3;
             namespacesAndDefaults := n3;
             importedPackages := set_add (importedPackages st) pkg;
             unresolvedImports := unresolvedImports st |}
    end.

(** The key of [usageMap]: [`${package}/${exportName}`]. *)
Definition usageKey (package exportName : jsstring) : jsstring :=
  package ++ js "/" ++ exportName.

(** The body of the loop over [ast.callExpressions].  The usage object is
    shared with the map, so the push shows in the map. *)
Definition call_step (bindings : Map Binding) (namespacesAndDefaults : Map jsstring)
    (usageMap : Map SymbolUsage) (call : NormalizedCallExpression)
    : Map SymbolUsage :=
  match resolveCallee (callee call) bindings namespacesAndDefaults with
  | None => usageMap
  | Some resolved =>
      let key := usageKey (rc_package resolved) (rc_exportName resolved) in
      let usage :=
        match map_get usageMap key with
        | Some usage => usage
        | None => {| package := rc_package resolved;
                     export := rc_exportName resolved;
                     importKind := rc_importKind resolved;
                     usageSites := [] |}
        end in
      let site :=
        {| site_location := call_location call;
           site_argCount := Some (argCount call);
           site_argNames :=
             if (0 <? length (argNames call))%nat then Some (argNames call)
             else None |} in
      map_set usageMap key
        {| package := package usage; export := export usage;
           importKind := importKind usage;
           usageSites := usageSites usage ++ [site] |}
  end.

(** The body of the loop over the values of [bindings] (step 3). *)
Definition import_only_step (usageMap : Map SymbolUsage) (binding : Binding)
    : Map SymbolUsage :=
  if is_member_export (exportName binding) then usageMap
  else
    let key := usageKey (b_package binding) (exportName binding) in
    if negb (map_has usageMap key) then
      map_set usageMap key
        {| package := b_package binding;
           export := exportName binding;
           importKind := b_importKind binding;
           usageSites := [ {| site_location := importLocation binding;
                              site_argCount := None;
                              site_argNames := None |} ] |}
    else usageMap.

Record Resolution := {
  usages : list SymbolUsage;
  res_importedPackages : list jsstring;
  res_unresolvedImports : list jsstring;
}.

(** The state after step 1 and the usage map after step 2. *)
Definition importsOf (ast : NormalizedAST) (trackedPackages : option (gset jsstring))
    : ImportState :=
  foldl (import_step trackedPackages) no_imports (imports ast).

Definition callUsages (ast : NormalizedAST) (st : ImportState) : Map SymbolUsage :=
  foldl (call_step (bindings st) (namespacesAndDefaults st)) [] (callExpressions ast).

Definition resolveImports (ast : NormalizedAST)
    (trackedPackages : option (gset jsstring)) : Resolution :=
  let st := importsOf ast trackedPackages in
  let usageMap := callUsages ast st in
  let usageMap := foldl import_only_step usageMap (map_values (bindings st)) in
  {| usages := map_values usageMap;
     res_importedPackages := importedPackages st;
     res_unresolvedImports := unresolvedImports st |}.

End Resolver.

(* ================================================================== *)
(** * A small semver instance *)
(* ================================================================== *)

(** An instance of the interface on which the model can run.  It knows the
    plain versions [MAJOR.MINOR.PATCH] and the ranges [>=MAJOR.MINOR.PATCH];
    on these it answers as the package does.  Every other version string
    fails to coerce and every other range is rejected. *)
Module PlainSemver.
Import Regex.

Definition plain_version : Type := N * N * N.

Definition number_of (s : jsstring) : option N :=
  if bool_decide (s ≠ []) && forallb is_digit s
  then Some (foldl (λ acc c, acc * 10 + (c - 48))%N 0%N s)
  else None.

Definition plain_coerce (s : jsstring) : option plain_version :=
  match split s 46 with
  | [a; b; c] =>
      match number_of a, number_of b, number_of c with
      | Some x, Some y, Some z => Some (x, y, z)
      | _, _, _ => None
      end
  | _ => None
  end.

Definition plain_compare (a b : plain_version) : comparison :=
  let '(a1, a2, a3) := a in
  let '(b1, b2, b3) := b in
  match (a1 ?= b1)%N with
  | Eq => match (a2 ?= b2)%N with
          | Eq => (a3 ?= b3)%N
          | c => c
          end
  | c => c
  end.

(** The lower bound of a range [>=MAJOR.MINOR.PATCH]. *)
Definition lower_bound (range : jsstring) : option plain_version :=
  match range with
  | 62%N :: 61%N :: v => plain_coerce v
  | _ => None
  end.

Definition plain_satisfies (v : plain_version) (range : jsstring) : bool :=
  match lower_bound range with
  | Some lo => match plain_compare v lo with Lt => false | _ => true end
  | None => false
  end.

Definition plain_minVersion (range : jsstring) : outcome (option plain_version) :=
  match lower_bound range with
  | Some lo => Returned (Some lo)
  | None => Thrown
  end.

#[global] Instance plain : SemverApi := {|
  SemVer := plain_version;
  coerce := plain_coerce;
  compare := plain_compare;
  satisfies := plain_satisfies;
  minVersion := plain_minVersion;
|}.

End PlainSemver.


(* ================================================================== *)
(** * Building a store from specs *)
(* ================================================================== *)

(** [createAuthorityStoreFromSpecs].  The content hash is a SHA-256 digest
    over [JSON.stringify] of each spec; both come from outside the
    repository and are parameters here.  Feeding a hash piece by piece is
    feeding it the concatenation. *)
Module StoreConstruction.
Import Authority.

Section WithHash.
Variable sha256_hex : jsstring → jsstring.
Variable JSON_stringify : ApiSpec → jsstring.

(** What the loop over [apiSpecs] has built. *)
Record Building := {
  b_specs : gmap jsstring ApiSpec;
  b_packages : list jsstring;
  b_hashed : jsstring;
}.

(** The body of the loop. *)
Definition add_spec (st : Building) (spec : ApiSpec) : Building :=
  let key := specKey (package spec) (export spec) in
  {| b_specs := <[key := spec]> (b_specs st);
     b_packages := Resolver.set_add (b_packages st) (package spec);
     b_hashed := b_hashed st ++ JSON_stringify spec |}.

Definition createAuthorityStoreFromSpecs (apiSpecs : list ApiSpec)
    (version : option jsstring) : InMemoryAuthorityStore :=
  let version := default (js "0.0.0-test") version in
  let st := foldl add_spec
              {| b_specs := ∅; b_packages := []; b_hashed := [] |} apiSpecs in
  {| specs := b_specs st;
     packages := b_packages st;
     hash := sha256_hex (b_hashed st);
     Authority.version := version |}.

End WithHash.

End StoreConstruction.

(* ================================================================== *)
(** * The React adapter and the adapter registry *)
(* ================================================================== *)

Module Adapters.
Import Resolver.

Inductive DetectionConfidence := Lockfile | Manifest | Inferred.

Record DetectedFramework := {
  fw_id : jsstring;
  fw_name : jsstring;
  fw_version : jsstring;
  confidence : DetectionConfidence;
}.

(** Of the repo context the adapters read the framework list only. *)
Record RepoContext := {
  root : jsstring;
  frameworks : list DetectedFramework;
  contextHash : jsstring;
}.

(** [new Set(["react", "react-dom"])] *)
Definition REACT_PACKAGES : gset jsstring := {[ js "react"; js "react-dom" ]}.

(** [REACT_DOM_SUBPATHS.has(source)] *)
Definition REACT_DOM_SUBPATHS (source : jsstring) : bool :=
  str_eqb source (js "react-dom/client")
  || str_eqb source (js "react-dom/server")
  || str_eqb source (js "react-dom/test-utils").

Definition normalizeReactImport (imp : NormalizedImport) : NormalizedImport :=
  if REACT_DOM_SUBPATHS (source imp) then
    {| source := js "react-dom";
       specifiers := specifiers imp;
       hasDefault := hasDefault imp;
       defaultLocal := defaultLocal imp;
       hasNamespace := hasNamespace imp;
       namespaceLocal := namespaceLocal imp;
       isTypeOnly := isTypeOnly imp;
       isRequire := isRequire imp;
       location := location imp |}
  else imp.

(** [ReactAdapter.detect] *)
Definition detect (repoCtx : RepoContext) : option DetectedFramework :=
  List.find (λ f, str_eqb (fw_id f) (js "react")) (frameworks repoCtx).

(** [ReactAdapter.resolveSymbols]: the imports come from the first
    argument, the rest of the AST from the second. *)
Definition resolveSymbols (imports : list NormalizedImport) (ast : NormalizedAST)
    : list SymbolUsage :=
  let normalizedImports := normalizeReactImport <$> imports in
  usages (resolveImports
            {| Resolver.imports := normalizedImports;
               callExpressions := callExpressions ast;
               jsxElements := jsxElements ast |}
            (Some REACT_PACKAGES)).

End Adapters.

(* ================================================================== *)
(** * Vocabulary of the properties *)
(* ================================================================== *)

(** ** Versions and signatures *)

Section AuthorityVocabulary.
Context `{SemverApi}.
Import Authority.

(** [since ≤ v]: the string coerces to a version that is not above [v]. *)
Definition since_reached (since : jsstring) (v : SemVer) : Prop :=
  ∃ s, coerce since = Some s ∧ compare v s ≠ Lt.

(** [v < until]. *)
Definition before (v : SemVer) (until : jsstring) : Prop :=
  ∃ u, coerce until = Some u ∧ compare v u = Lt.

(** A signature applies at [v]: [since ≤ v], and there is no [until], or
    an [until] that is empty or does not coerce, or [v < until]. *)
Definition signature_applies (v : SemVer) (sig : SignatureSpec) : Prop :=
  since_reached (sig_since sig) v
  ∧ (truthy_opt (until sig) = false
     ∨ (∃ u, until sig = Some u ∧ coerce u = None)
     ∨ (∃ u, until sig = Some u ∧ before v u)).

(** The comparison of the [since] of two signatures that both coerce. *)
Definition since_compare (a b : SignatureSpec) (c : comparison) : Prop :=
  ∃ x y, coerce (sig_since a) = Some x
         ∧ coerce (sig_since b) = Some y ∧ compare x y = c.

(** A deprecation entry has been announced by [v]. *)
Definition deprecation_applies (v : SemVer) (dep : DeprecationEntry) : Prop :=
  since_reached (dep_since dep) v.

(** The test of the loop body of [findActiveSignature] that lets a
    signature through to the comparison with [best]. *)
Definition passes (cv : SemVer) (sig : SignatureSpec) : bool :=
  match coerce (sig_since sig) with
  | None => false
  | Some sinceSemver =>
      negb (lt cv sinceSemver)
      && negb (if truthy_opt (until sig)
               then match coerce (default [] (until sig)) with
                    | Some untilSemver => gte cv untilSemver
                    | None => false
                    end
               else false)
  end.

(** What [best] is after the loop has read the signatures [l]. *)
Definition best_among (cv : SemVer) (l : list SignatureSpec)
    (best : option SignatureSpec) : Prop :=
  match best with
  | None => ∀ sig, sig ∈ l → ¬ signature_applies cv sig
  | Some sig =>
      ∃ i, l !! i = Some sig ∧ signature_applies cv sig
        ∧ (∀ j sig', l !! j = Some sig' → signature_applies cv sig' →
             ¬ since_compare sig' sig Gt)
        ∧ (∀ j sig', (j < i)%nat → l !! j = Some sig' →
             signature_applies cv sig' → since_compare sig' sig Lt)
  end.

End AuthorityVocabulary.

(** ** Sample data *)

Module Samples.
Import Authority.

Definition sig_first : SignatureSpec :=
  {| sig_since := js "1.0.0"; until := None;
     minArity := 0; maxArity := Some 1; params := [] |}.

Definition sig_last : SignatureSpec :=
  {| sig_since := js "1.0.0"; until := None;
     minArity := 1; maxArity := Some 2; params := [] |}.

(** Two signatures with the same [since]. *)
Definition tie_spec : ApiSpec :=
  {| package := js "test-pkg"; export := js "testFn"; kind := KFunction;
     availableIn := js ">=1.0.0";
     signatures := [sig_first; sig_last];
     deprecations := []; docsUrl := None |}.

Definition dep_old : DeprecationEntry :=
  {| dep_since := js "16.3.0"; removedIn := None;
     message := js "legacy"; replacement := None |}.

Definition dep_new : DeprecationEntry :=
  {| dep_since := js "18.0.0"; removedIn := None;
     message := js "use the replacement"; replacement := None |}.

(** A symbol deprecated twice, the entries ordered by [since]. *)
Definition twice_deprecated : ApiSpec :=
  {| package := js "test-pkg"; export := js "oldFn"; kind := KFunction;
     availableIn := js ">=16.0.0";
     signatures := [];
     deprecations := [dep_old; dep_new]; docsUrl := None |}.

Definition sample_store : InMemoryAuthorityStore :=
  {| specs := {[ js "test-pkg/testFn" := tie_spec;
                 js "test-pkg/oldFn" := twice_deprecated ]};
     packages := [js "test-pkg"];
     hash := js "00";
     version := js "0.0.0-test" |}.

(** What the sample store answers for [test-pkg/testFn] at 1.5.0. *)
Definition resolved_sample : ResolvedApiSpec :=
  {| spec := tie_spec; activeSignature := Some sig_first;
     activeDeprecation := None; available := true; isFuture := false |}.

End Samples.

(** ** Regular expressions *)

Section RegexVocabulary.
Import Regex.

(** The greedy star of a character class, by recursion on the subject: one
    more code unit first, the continuation when that fails. *)
Fixpoint class_star {A : Type} (p : N → bool) (pos : nat) (s : jsstring)
    (caps : captures) (k : continuation A) : option A :=
  match s with
  | c :: s' =>
      if p c then
        match class_star p (S pos) s' caps k with
        | Some x => Some x
        | None => k pos s caps
        end
      else k pos s caps
  | [] => k pos s caps
  end.

End RegexVocabulary.

(** ** Long ids *)

Section LongIdVocabulary.
Import Regex.

(** [:(\d+):(\d+)$], the end of the pattern of the long ids. *)
Definition LONG_ID_TAIL : list regex :=
  [ Lit (js ":"); Group 4 (Plus true (Chr is_digit));
    Lit (js ":"); Group 5 (Plus true (Chr is_digit)); Eol ].

End LongIdVocabulary.

(** ** Inline suppressions *)

Module SuppressionVocabulary.
Import Regex Finding Suppression.

(** A suppression covers a finding of kind [kind] at line [line]: the line
    lies in the closed range and the kind is ["*"] or [kind]. *)
Definition suppresses (line : Z) (kind : ViolationKind) (sup : InlineSuppression)
    : Prop :=
  startLine sup ≤ line ≤ endLine sup
  ∧ (Suppression.kind sup = AnyKind ∨ Suppression.kind sup = OfKind kind).

(** The line holds [doxy-ignore-end]. *)
Definition is_block_end (line : jsstring) : bool := test IGNORE_BLOCK_END 0 line.

(** The line is a [doxy-ignore-start] directive that the loop honours: it
    does not hold [doxy-ignore-end], the block start test succeeds and the
    kind is valid.  The result is the kind and the cleaned reason. *)
Definition opens_block (line : jsstring)
    : option (SuppressionKind * option jsstring) :=
  if is_block_end line then None
  else match blockStartMatch line with
       | Some m =>
           match VALID_KINDS (default [] (group m 1)) with
           | Some kind => Some (kind, cleanBlockReason (group m 2))
           | None => None
           end
       | None => None
       end.

(** What a line that is neither a block end nor a block start pushes on
    [suppressions]: the suppression of a [doxy-ignore-line] or of a
    [doxy-ignore] directive, if it holds one. *)
Definition line_directive (lineNum : Z) (line : jsstring) : list InlineSuppression :=
  match match_ IGNORE_CURRENT_LINE 2 line with
  | Some m =>
      match VALID_KINDS (default [] (group m 1)) with
      | Some kind => [ {| kind := kind; reason := trim <$> group m 2;
                          startLine := lineNum; endLine := lineNum |} ]
      | None => []
      end
  | None =>
      match match_ IGNORE_NEXT_LINE 2 line with
      | Some m =>
          match VALID_KINDS (default [] (group m 1)) with
          | Some kind => [ {| kind := kind; reason := trim <$> group m 2;
                              startLine := lineNum + 1; endLine := lineNum + 1 |} ]
          | None => []
          end
      | None => []
      end
  end.

(** Block starts and block ends pair up like brackets.  [balanced_from d
    lines]: read at depth [d], the lines close every block they open and
    the [d] blocks open before them, and no more. *)
Fixpoint balanced_from (depth : nat) (lines : list jsstring) : bool :=
  match lines with
  | [] => bool_decide (depth = 0%nat)
  | l :: rest =>
      if is_block_end l then
        match depth with
        | O => false
        | S d => balanced_from d rest
        end
      else if bool_decide (is_Some (opens_block l)) then balanced_from (S depth) rest
      else balanced_from depth rest
  end.

Definition balanced (lines : list jsstring) : bool := balanced_from 0 lines.


End SuppressionVocabulary.

(** ** Import resolution *)

Module ResolverVocabulary.
Import Resolver.

(** A named binding: it was bound by a named specifier and names neither
    the default export nor the namespace. *)
Definition is_named (b : Binding) : Prop :=
  b_importKind b = Named ∧ exportName b ≠ js "default" ∧ exportName b ≠ js "*".

(** The symbol [(pkg, exp)] has a call site: the usage map of step 2 holds
    a usage of it. *)
Definition has_call_site (calls : Map SymbolUsage) (pkg exp : jsstring) : Prop :=
  ∃ u, u ∈ map_values calls ∧ package u = pkg ∧ export u = exp.

(** The usage and the binding name the same symbol. *)
Definition same_symbol (b : Binding) (u : SymbolUsage) : Prop :=
  package u = b_package b ∧ export u = exportName b.

(** The usage of a binding that is imported but not called: its only site
    is the import statement, without argument count or names. *)
Definition import_only_usage (b : Binding) : SymbolUsage :=
  {| package := b_package b;
     export := exportName b;
     importKind := b_importKind b;
     usageSites := [ {| site_location := importLocation b;
                        site_argCount := None;
                        site_argNames := None |} ] |}.

(** The shape of what [extractPackageName] returns: a name without slash
    that does not start with [@], or [@scope/name]. *)
Definition package_shape (p : jsstring) : Prop :=
  (startsWith p (js "@") = false ∧ 47%N ∉ p)
  ∨ (∃ a b, p = a ++ (47%N :: b) ∧ startsWith a (js "@") = true
            ∧ (47%N ∉ a) ∧ (47%N ∉ b)).

(** A binding of step 1: its package has the shape of a package name, and
    it is a named binding unless it names the default export or the
    namespace. *)
Definition binding_ok (b : Binding) : Prop :=
  package_shape (b_package b)
  ∧ (b_importKind b = Named ∨ is_member_export (exportName b) = true).

Definition imports_ok (st : ImportState) : Prop :=
  (∀ k b, (k, b) ∈ bindings st → binding_ok b)
  ∧ (∀ k p, (k, p) ∈ namespacesAndDefaults st → package_shape p).

(** An entry of the usage map stands under the key of its symbol, and its
    package has the shape of a package name. *)
Definition usage_ok (k : jsstring) (u : SymbolUsage) : Prop :=
  k = usageKey (package u) (export u) ∧ package_shape (package u).

(** The entries step 3 adds to the usage map [m] for the bindings [bs]. *)
Fixpoint import_only_entries (m : Map SymbolUsage) (bs : list Binding)
    : Map SymbolUsage :=
  match bs with
  | [] => []
  | b :: bs' =>
      let key := usageKey (b_package b) (exportName b) in
      if is_member_export (exportName b) || map_has m key
      then import_only_entries m bs'
      else (key, import_only_usage b)
           :: import_only_entries (m ++ [(key, import_only_usage b)]) bs'
  end.

(** Sample input: two import statements bind the same symbol. *)
Definition loc (l : Z) : SourceLocation :=
  {| file := js "src/App.tsx"; line := l; column := 0;
     endLine := None; endColumn := None |}.

Definition import_of (src imp localName : jsstring) (l : Z) : NormalizedImport :=
  {| source := src;
     specifiers := [ {| imported := imp; local := localName; spec_isTypeOnly := false |} ];
     hasDefault := false; defaultLocal := None;
     hasNamespace := false; namespaceLocal := None;
     isTypeOnly := false; isRequire := false;
     location := loc l |}.

(** [import { createFactory } from "react"; import { useState } from
    "react"; useState(0)] *)
Definition sample_ast : NormalizedAST :=
  {| imports := [ import_of (js "react") (js "createFactory") (js "createFactory") 1;
                  import_of (js "react") (js "useState") (js "useState") 2 ];
     callExpressions := [ {| callee := js "useState"; argCount := 1;
                             argNames := []; call_location := loc 3 |} ];
     jsxElements := [] |}.

End ResolverVocabulary.

(* ================================================================== *)
(** * More vocabulary and sample data *)
(* ================================================================== *)

Module MoreSamples.

(** A signature whose [until] is no version. *)
Definition sig_until_next : Authority.SignatureSpec :=
  {| Authority.sig_since := js "1.0.0"; Authority.until := Some (js "next");
     Authority.minArity := 0; Authority.maxArity := Some 1;
     Authority.params := [] |}.

Definition until_spec : Authority.ApiSpec :=
  {| Authority.package := js "test-pkg"; Authority.export := js "nextFn";
     Authority.kind := Authority.KFunction;
     Authority.availableIn := js ">=1.0.0";
     Authority.signatures := [sig_until_next];
     Authority.deprecations := []; Authority.docsUrl := None |}.

Definition until_store : Authority.InMemoryAuthorityStore :=
  {| Authority.specs := {[ js "test-pkg/nextFn" := until_spec ]};
     Authority.packages := [js "test-pkg"];
     Authority.hash := js "00";
     Authority.version := js "0.0.0-test" |}.

(** The parts of [dxy:react/useState:src/App.tsx:100:25]. *)
Definition sample_parsed : Finding.ParsedLongId :=
  {| Finding.package := js "react"; Finding.export := js "useState";
     Finding.file := js "src/App.tsx";
     Finding.line := 100; Finding.column := 25 |}.


(** A block of three lines. *)
Definition block_source : jsstring :=
  js "// doxy-ignore-start deprecated-api -- legacy code */" ++ [10%N]
  ++ js "render(a, b);" ++ [10%N]
  ++ js "// doxy-ignore-end".

Definition block_suppression : Suppression.InlineSuppression :=
  {| Suppression.kind := Suppression.OfKind Finding.DeprecatedApi;
     Suppression.reason := Some (js "legacy code");
     Suppression.startLine := 1;
     Suppression.endLine := 3 |}.

(** A directive for the line after the last one. *)
Definition next_line_source : jsstring := js "// doxy-ignore removed-api".

Definition next_line_suppression : Suppression.InlineSuppression :=
  {| Suppression.kind := Suppression.OfKind Finding.RemovedApi;
     Suppression.reason := None;
     Suppression.startLine := 2;
     Suppression.endLine := 2 |}.

(** A source without directives. *)
Definition plain_source : jsstring :=
  js "import { render } from 'react-dom';" ++ [10%N] ++ js "render(a, b); // ignore".


(** [import { useState } from "react"; import * as _ from "lodash";
    useState(0); _.map(xs, f)] *)
Definition mixed_ast : Resolver.NormalizedAST :=
  {| Resolver.imports :=
       [ ResolverVocabulary.import_of (js "react") (js "useState") (js "useState") 1;
         {| Resolver.source := js "lodash";
            Resolver.specifiers := [];
            Resolver.hasDefault := false; Resolver.defaultLocal := None;
            Resolver.hasNamespace := true; Resolver.namespaceLocal := Some (js "_");
            Resolver.isTypeOnly := false; Resolver.isRequire := false;
            Resolver.location := ResolverVocabulary.loc 2 |} ];
     Resolver.callExpressions :=
       [ {| Resolver.callee := js "useState"; Resolver.argCount := 1;
            Resolver.argNames := []; Resolver.call_location := ResolverVocabulary.loc 3 |};
         {| Resolver.callee := js "_.map"; Resolver.argCount := 2;
            Resolver.argNames := [];
            Resolver.call_location := ResolverVocabulary.loc 4 |} ];
     Resolver.jsxElements := [] |}.

Definition useState_usage : Resolver.SymbolUsage :=
  {| Resolver.package := js "react"; Resolver.export := js "useState";
     Resolver.importKind := Resolver.Named;
     Resolver.usageSites :=
       [ {| Resolver.site_location := ResolverVocabulary.loc 3;
            Resolver.site_argCount := Some 1;
            Resolver.site_argNames := None |} ] |}.

Definition map_call : Resolver.NormalizedCallExpression :=
  {| Resolver.callee := js "_.map"; Resolver.argCount := 2;
     Resolver.argNames := []; Resolver.call_location := ResolverVocabulary.loc 4 |}.

Definition map_callee : Resolver.ResolvedCallee :=
  {| Resolver.rc_package := js "lodash"; Resolver.rc_exportName := js "map";
     Resolver.rc_importKind := Resolver.Namespace |}.



(** [import { createRoot } from "react-dom/client"] *)
Definition client_import : Resolver.NormalizedImport :=
  ResolverVocabulary.import_of (js "react-dom/client") (js "createRoot")
    (js "createRoot") 1.

End MoreSamples.

Module MoreFindingVocabulary.

(** [Number.MAX_SAFE_INTEGER], [2^53 - 1]: up to it every integer is a
    JavaScript number, printed in plain decimal and read back exactly. *)
Definition MAX_SAFE_INTEGER : Z := 9007199254740991.

(** A line or column number: a safe integer that is not negative. *)
Definition line_number (n : Z) : Prop := 0 ≤ n ≤ MAX_SAFE_INTEGER.

End MoreFindingVocabulary.

Module MoreSuppressionVocabulary.
Import Regex Finding Suppression.

(** After line [n]: every open block starts at one of the lines read, and
    every suppression covers a range of lines that is not empty and ends
    at line [n + 1] at the latest. *)
Definition ranges_ok (n : Z) (st : ParserState) : Prop :=
  (∀ ob, ob ∈ openBlocks st → 1 ≤ ob_startLine ob ≤ n)
  ∧ (∀ sup, sup ∈ suppressions st →
       1 ≤ startLine sup ≤ endLine sup ∧ endLine sup ≤ n + 1).

(** [s.includes(needle)]. *)
Fixpoint includes (s needle : jsstring) : bool :=
  startsWith s needle
  || match s with
     | [] => false
     | _ :: s' => includes s' needle
     end.

(** [needle] occurs in [s]. *)
Definition occurs (needle s : jsstring) : Prop :=
  ∃ a b, s = a ++ needle ++ b.

(** No white space at either end. *)
Definition trimmed (x : jsstring) : Prop :=
  (∀ c, head x = Some c → is_space c = false)
  ∧ (∀ c, last x = Some c → is_space c = false).

(** After the loop body: the reasons of the open blocks and of the
    suppressions are trimmed. *)
Definition reasons_ok (st : ParserState) : Prop :=
  (∀ ob x, ob ∈ openBlocks st → ob_reason ob = Some x → x ≠ [] ∧ trimmed x)
  ∧ (∀ sup x, sup ∈ suppressions st → reason sup = Some x → trimmed x).

(** The kind of a suppression covers the kind of a finding. *)
Definition covers (k : SuppressionKind) (kind : ViolationKind) : Prop :=
  k = AnyKind ∨ k = OfKind kind.

End MoreSuppressionVocabulary.

Module MoreResolverVocabulary.
Import Resolver.

(** The package of an import statement that step 1 reads: the statement is
    not type-only and its source names a package. *)
Definition value_package (imp : NormalizedImport) : option jsstring :=
  if isTypeOnly imp then None
  else match extractPackageName (source imp) with
       | Some pkg => if truthy pkg then Some pkg else None
       | None => None
       end.

(** The package passes the filter [trackedPackages]. *)
Definition is_tracked (trackedPackages : option (gset jsstring)) (pkg : jsstring)
    : bool :=
  match trackedPackages with
  | Some tracked => bool_decide (pkg ∈ tracked)
  | None => true
  end.

(** An import statement of a package that the filter rejects. *)
Definition untracked_import (trackedPackages : option (gset jsstring))
    (imp : NormalizedImport) : bool :=
  match value_package imp with
  | Some pkg => negb (is_tracked trackedPackages pkg)
  | None => false
  end.

(** What step 1 does with an import statement of the package [pkg] that
    passes the filter. *)
Definition accept_import (pkg : jsstring) (st : ImportState) (imp : NormalizedImport)
    : ImportState :=
  let b1 := foldl (bind_specifier pkg (location imp)) (bindings st)
              (specifiers imp) in
  let '(n2, b2) :=
    if hasDefault imp && truthy_opt (defaultLocal imp) then
      let l := default [] (defaultLocal imp) in
      (map_set (namespacesAndDefaults st) l pkg,
       map_set b1 l {| b_package := pkg; exportName := js "default";
                       b_importKind := Default;
                       importLocation := location imp |})
    else (namespacesAndDefaults st, b1) in
  let '(n3, b3) :=
    if hasNamespace imp && truthy_opt (namespaceLocal imp) then
      let l := default [] (namespaceLocal imp) in
      (map_set n2 l pkg,
       map_set b2 l {| b_package := pkg; exportName := js "*";
                       b_importKind := Namespace;
                       importLocation := location imp |})
    else (n2, b2) in
  {| bindings := b3;
     namespacesAndDefaults := n3;
     importedPackages := set_add (importedPackages st) pkg;
     unresolvedImports := unresolvedImports st |}.

(** The usage site of a call. *)
Definition call_site (call : NormalizedCallExpression) : UsageSite :=
  {| site_location := call_location call;
     site_argCount := Some (argCount call);
     site_argNames :=
       if (0 <? length (argNames call))%nat then Some (argNames call) else None |}.

(** A usage with call sites only, and at least one. *)
Definition called (u : SymbolUsage) : Prop :=
  usageSites u ≠ [] ∧ ∀ s, s ∈ usageSites u → is_Some (site_argCount s).

(** The usage site of an import statement at [l]: the location and
    nothing else. *)
Definition import_site (l : SourceLocation) : UsageSite :=
  {| site_location := l; site_argCount := None; site_argNames := None |}.

(** The bindings that the import statement [imp] of the package [pkg]
    makes: one for a named specifier, one for the default import, one for
    the namespace.  Each carries the location of the statement. *)
Definition specifier_binding (pkg : jsstring) (imp : NormalizedImport)
    (sp : ImportSpecifier) : Binding :=
  {| b_package := pkg; exportName := imported sp;
     b_importKind := Named; importLocation := location imp |}.

Definition default_binding (pkg : jsstring) (imp : NormalizedImport) : Binding :=
  {| b_package := pkg; exportName := js "default";
     b_importKind := Default; importLocation := location imp |}.

Definition namespace_binding (pkg : jsstring) (imp : NormalizedImport) : Binding :=
  {| b_package := pkg; exportName := js "*";
     b_importKind := Namespace; importLocation := location imp |}.

(** The local names that the import statement [imp] of the package [pkg]
    binds, each with its binding, in the order of the statement: the named
    specifiers that are not type-only, then the default import, then the
    namespace. *)
Definition statement_bindings (pkg : jsstring) (imp : NormalizedImport)
    : list (jsstring * Binding) :=
  (specifiers imp ≫= λ sp,
     if spec_isTypeOnly sp then []
     else [(local sp, specifier_binding pkg imp sp)])
  ++ (if hasDefault imp && truthy_opt (defaultLocal imp)
      then [(default [] (defaultLocal imp), default_binding pkg imp)]
      else [])
  ++ (if hasNamespace imp && truthy_opt (namespaceLocal imp)
      then [(default [] (namespaceLocal imp), namespace_binding pkg imp)]
      else []).

(** The local names that the import statements of a file bind, in the
    order of the file.  Only statements that are not type-only and whose
    package passes the filter bind names. *)
Definition import_bindings (trackedPackages : option (gset jsstring))
    (imports : list NormalizedImport) : list (jsstring * Binding) :=
  imports ≫= λ imp,
    match value_package imp with
    | Some pkg =>
        if is_tracked trackedPackages pkg then statement_bindings pkg imp else []
    | None => []
    end.

(** The name [k] stands for [b]: the last of [events] that binds [k]
    binds it to [b]. *)
Definition bound (events : list (jsstring * Binding)) (k : jsstring) (b : Binding)
    : Prop :=
  last (filter (λ e, e.1 = k) events) = Some (k, b).

(** The names bound, in the order in which each was bound first. *)
Definition bound_names (events : list (jsstring * Binding)) : list jsstring :=
  foldl set_add [] events.*1.

(** The bindings made one after the other on a [Map]. *)
Definition bind_all (m : Map Binding) (events : list (jsstring * Binding))
    : Map Binding :=
  foldl (λ m e, map_set m e.1 e.2) m events.

(** The specifier [sp] of the statement [imp] imports the export [exp] of
    the package [pkg] by name: the statement is not type-only and its
    package passes the filter, the specifier is not type-only, and the
    export is neither the default export nor the namespace. *)
Definition named_specifier (trackedPackages : option (gset jsstring))
    (imp : NormalizedImport) (sp : ImportSpecifier) (pkg exp : jsstring) : Prop :=
  value_package imp = Some pkg ∧ is_tracked trackedPackages pkg = true
  ∧ spec_isTypeOnly sp = false ∧ imported sp = exp
  ∧ exp ≠ js "default" ∧ exp ≠ js "*".

(** The symbol has a call site: a call expression of the file resolves to
    it. *)
Definition called_symbol (ast : NormalizedAST)
    (trackedPackages : option (gset jsstring)) (pkg exp : jsstring) : Prop :=
  ∃ call r,
    call ∈ callExpressions ast
    ∧ resolveCallee (callee call) (bindings (importsOf ast trackedPackages))
        (namespacesAndDefaults (importsOf ast trackedPackages)) = Some r
    ∧ rc_package r = pkg ∧ rc_exportName r = exp.

(** A usage whose only site is an import statement of the file that
    imports its symbol by name. *)
Definition import_only (ast : NormalizedAST)
    (trackedPackages : option (gset jsstring)) (u : SymbolUsage) : Prop :=
  ∃ imp sp,
    imp ∈ imports ast ∧ sp ∈ specifiers imp
    ∧ named_specifier trackedPackages imp sp (package u) (export u)
    ∧ importKind u = Named
    ∧ usageSites u = [import_site (location imp)].

(** A usage with call sites only, and at least one: every site is that of
    a call expression of the file. *)
Definition called_in (ast : NormalizedAST) (u : SymbolUsage) : Prop :=
  usageSites u ≠ []
  ∧ ∀ s, s ∈ usageSites u →
      is_Some (site_argCount s)
      ∧ ∃ call, call ∈ callExpressions ast ∧ s = call_site call.

(** The packages of the bindings are among the imported packages, and the
    imported packages pass the filter. *)
Definition packages_ok (trackedPackages : option (gset jsstring))
    (st : ImportState) : Prop :=
  (∀ k b, (k, b) ∈ bindings st → b_package b ∈ importedPackages st)
  ∧ (∀ k p, (k, p) ∈ namespacesAndDefaults st → p ∈ importedPackages st)
  ∧ (∀ p, p ∈ importedPackages st → is_tracked trackedPackages p = true).

(** The usage map of [resolveImports] after step 3. *)
Definition usageMap (ast : NormalizedAST) (trackedPackages : option (gset jsstring))
    : Map SymbolUsage :=
  let st := importsOf ast trackedPackages in
  foldl import_only_step (callUsages ast st) (map_values (bindings st)).

End MoreResolverVocabulary.

(* ================================================================== *)
(** * Strings: split and join *)
(* ================================================================== *)

Lemma split_nonempty (s : jsstring) (c : N) : split s c ≠ [].
Proof.
  destruct s as [|a s]; simpl; [done|].
  destruct (a =? c)%N; [done|]. by destruct (split s c).
Qed.

(** No segment of [s.split(c)] holds the separator. *)
Lemma split_no_sep (s : jsstring) (c : N) (seg : jsstring) :
  seg ∈ split s c → c ∉ seg.
Proof.
  revert seg. induction s as [|a s IH]; intros seg; simpl.
  - intros Hin. apply list_elem_of_singleton in Hin as ->. apply not_elem_of_nil.
  - destruct (N.eqb_spec a c) as [-> | Hne].
    + intros Hin. apply elem_of_cons in Hin as [-> | Hin]; [apply not_elem_of_nil | eauto].
    + pose proof (split_nonempty s c) as Hnil.
      destruct (split s c) as [|seg0 segs]; [done|].
      intros Hin. apply elem_of_cons in Hin as [-> | Hin].
      * apply not_elem_of_cons. split; [done|]. apply IH. by left.
      * apply IH. by right.
Qed.

(** Joining the segments gives the string back. *)
Lemma join_split (s : jsstring) (c : N) : join (split s c) c = s.
Proof.
  induction s as [|a s IH]; simpl; [done|].
  pose proof (split_nonempty s c) as Hnil.
  destruct (N.eqb_spec a c) as [-> | Hne].
  - destruct (split s c) as [|seg0 segs]; [done|]. simpl in *. by rewrite IH.
  - destruct (split s c) as [|seg0 segs]; [done|].
    destruct segs as [|seg1 segs]; simpl in *; by rewrite <- IH.
Qed.

(** Splitting a join of separator-free segments gives the segments back. *)
Lemma split_join (parts : list jsstring) (c : N) :
  parts ≠ [] → (∀ seg, seg ∈ parts → c ∉ seg) →
  split (join parts c) c = parts.
Proof.
  induction parts as [|p parts IH]; [done|]. intros _ Hfree.
  assert (Hp : c ∉ p) by (apply Hfree; by left).
  assert (Hrest : ∀ seg, seg ∈ parts → c ∉ seg) by (intros; apply Hfree; by right).
  destruct parts as [|q parts].
  - simpl. clear IH Hfree Hrest. induction p as [|a p IHp]; simpl; [done|].
    apply not_elem_of_cons in Hp as [Hne Hp].
    destruct (N.eqb_spec a c) as [-> | _]; [done|]. by rewrite IHp.
  - specialize (IH ltac:(done) Hrest).
    change (join (p :: q :: parts) c) with (p ++ c :: join (q :: parts) c).
    remember (join (q :: parts) c) as rest eqn:Erest.
    clear Hfree Hrest Erest. induction p as [|a p IHp].
    + simpl. rewrite N.eqb_refl. by rewrite IH.
    + apply not_elem_of_cons in Hp as [Hne Hp]. simpl.
      destruct (N.eqb_spec a c) as [-> | _]; [done|]. by rewrite (IHp Hp).
Qed.

(** Two strings cut at their first separator agree part by part. *)
Lemma first_separator (c : N) (a b x y : jsstring) :
  c ∉ a → c ∉ b → a ++ c :: x = b ++ c :: y → a = b ∧ x = y.
Proof.
  revert b. induction a as [|a0 a IH]; intros [|b0 b] Ha Hb Heq; simpl in *.
  - by simplify_eq.
  - simplify_eq. exfalso. apply Hb. by left.
  - simplify_eq. exfalso. apply Ha. by left.
  - apply not_elem_of_cons in Ha as [_ Ha]. apply not_elem_of_cons in Hb as [_ Hb].
    injection Heq as -> Heq. destruct (IH _ Ha Hb Heq) as [-> ->]. done.
Qed.
(* ================================================================== *)
(** * Properties of the authority store *)
(* ================================================================== *)

Lemma plain_compare_antisym (a b : PlainSemver.plain_version) :
  PlainSemver.plain_compare b a = CompOpp (PlainSemver.plain_compare a b).
Proof.
  destruct a as [[a1 a2] a3], b as [[b1 b2] b3]; simpl.
  rewrite (N.compare_antisym a1 b1), (N.compare_antisym a2 b2),
    (N.compare_antisym a3 b3).
  destruct (a1 ?= b1)%N, (a2 ?= b2)%N, (a3 ?= b3)%N; reflexivity.
Qed.

(** [plain_compare] against the order it decides. *)
Lemma plain_compare_spec (a b : PlainSemver.plain_version) :
  let '(a1, a2, a3) := a in
  let '(b1, b2, b3) := b in
  match PlainSemver.plain_compare a b with
  | Eq => a1 = b1 ∧ a2 = b2 ∧ a3 = b3
  | Lt => (a1 < b1 ∨ (a1 = b1 ∧ (a2 < b2 ∨ (a2 = b2 ∧ a3 < b3))))%N
  | Gt => (b1 < a1 ∨ (a1 = b1 ∧ (b2 < a2 ∨ (a2 = b2 ∧ b3 < a3))))%N
  end.
Proof.
  destruct a as [[a1 a2] a3], b as [[b1 b2] b3]; simpl.
  destruct (N.compare_spec a1 b1), (N.compare_spec a2 b2),
    (N.compare_spec a3 b3); lia.
Qed.

#[global] Instance plain_order : @SemverOrder PlainSemver.plain.
Proof.
  split; simpl.
  - apply plain_compare_antisym.
  - intros a b c Hab Hbc.
    pose proof (plain_compare_spec a b) as H1.
    pose proof (plain_compare_spec b c) as H2.
    pose proof (plain_compare_spec a c) as H3.
    destruct a as [[a1 a2] a3], b as [[b1 b2] b3], c as [[c1 c2] c3].
    rewrite Hab in H1. rewrite Hbc in H2.
    destruct (PlainSemver.plain_compare (a1, a2, a3) (c1, c2, c3)); [lia|done|lia].
  - intros a b c Hab Hbc.
    pose proof (plain_compare_spec a b) as H1.
    pose proof (plain_compare_spec b c) as H2.
    pose proof (plain_compare_spec a c) as H3.
    destruct a as [[a1 a2] a3], b as [[b1 b2] b3], c as [[c1 c2] c3].
    rewrite Hab in H1. rewrite Hbc in H2.
    destruct (PlainSemver.plain_compare (a1, a2, a3) (c1, c2, c3)); [lia|done|lia].
Qed.

Section AuthorityProperties.
Context `{SemverApi}.
Import Authority.

Lemma lt_true (a b : SemVer) : lt a b = true ↔ compare a b = Lt.
Proof. unfold lt. destruct (compare a b); split; congruence. Qed.

Lemma lt_false (a b : SemVer) : lt a b = false ↔ compare a b ≠ Lt.
Proof. unfold lt. destruct (compare a b); split; congruence. Qed.

Lemma gt_true (a b : SemVer) : gt a b = true ↔ compare a b = Gt.
Proof. unfold gt. destruct (compare a b); split; congruence. Qed.

Lemma gte_false (a b : SemVer) : gte a b = false ↔ compare a b = Lt.
Proof. unfold gte. destruct (compare a b); split; congruence. Qed.

(** C4.  For a key of the store and a version string that does not coerce,
    [getApiSpec] returns a resolved spec (not [undefined], and it does not
    throw) with [available = false], [isFuture = false], no active
    signature and no active deprecation. *)
Theorem getApiSpec_uncoercible_version (this : InMemoryAuthorityStore)
    (packageName exportName v : jsstring) (s : ApiSpec) :
  specs this !! specKey packageName exportName = Some s →
  coerce v = None →
  (getApiSpec this packageName exportName v).1
  = Returned (Some {| spec := s; activeSignature := None;
                      activeDeprecation := None;
                      available := false; isFuture := false |}).
Proof.
  intros Hkey Hv. unfold getApiSpec. rewrite Hkey.
  unfold isAvailable, isFutureApi, findActiveSignature, findActiveDeprecation.
  rewrite Hv. reflexivity.
Qed.

(** C5.  A resolved spec that [getApiSpec] returns never has
    [available = true] and [isFuture = true] together. *)
Theorem getApiSpec_available_isFuture_exclusive (this : InMemoryAuthorityStore)
    (packageName exportName v : jsstring) (r : ResolvedApiSpec) :
  (getApiSpec this packageName exportName v).1 = Returned (Some r) →
  ¬ (available r = true ∧ isFuture r = true).
Proof.
  unfold getApiSpec. intros Hr [Ha Hf].
  destruct (specs this !! specKey packageName exportName) as [s|]; [|done].
  destruct (isAvailable s v) eqn:Hav; simpl in Hr.
  - inversion Hr; subst r. simpl in Hf. done.
  - destruct (isFutureApi s v); [|done].
    inversion Hr; subst r. simpl in Ha. done.
Qed.

(** What a result that [getApiSpec] returns holds: the spec stored under
    the key, and for it what the four helpers compute. *)
Lemma getApiSpec_returned (this : InMemoryAuthorityStore)
    (packageName exportName v : jsstring) (r : ResolvedApiSpec) :
  (getApiSpec this packageName exportName v).1 = Returned (Some r) →
  specs this !! specKey packageName exportName = Some (spec r)
  ∧ activeSignature r = findActiveSignature (spec r) v
  ∧ activeDeprecation r = findActiveDeprecation (spec r) v
  ∧ available r = isAvailable (spec r) v.
Proof.
  unfold getApiSpec.
  destruct (specs this !! specKey packageName exportName) as [s|]; [|done].
  destruct (if negb (isAvailable s v) then isFutureApi s v else Returned false)
    as [f|]; [|done].
  simpl. intros [= <-]. done.
Qed.

(** For a key of the store [getApiSpec] returns a result, or throws, and it
    throws only where [semver.minVersion] throws on [availableIn]. *)
Lemma getApiSpec_returns (this : InMemoryAuthorityStore)
    (packageName exportName v : jsstring) (s : ApiSpec) :
  specs this !! specKey packageName exportName = Some s →
  minVersion (availableIn s) ≠ Thrown →
  ∃ r, (getApiSpec this packageName exportName v).1 = Returned (Some r).
Proof.
  intros Hkey Hmin. unfold getApiSpec. rewrite Hkey.
  destruct (isAvailable s v); simpl; [eauto|].
  unfold isFutureApi. destruct (coerce v); [|eauto].
  destruct (minVersion (availableIn s)) as [[m|]|]; [eauto..|done].
Qed.

Lemma passes_applies (cv : SemVer) (sig : SignatureSpec) :
  passes cv sig = true ↔ signature_applies cv sig.
Proof.
  unfold passes, signature_applies, since_reached, before.
  destruct (coerce (sig_since sig)) as [s|] eqn:Hs.
  - rewrite andb_true_iff, !negb_true_iff, lt_false. split.
    + intros [Hlt Hu]. split; [eauto|].
      destruct (truthy_opt (until sig)) eqn:Ht; [|by left].
      destruct (until sig) as [u|] eqn:Hu'; [|done]. simpl in Hu.
      destruct (coerce u) as [u'|] eqn:Hcu.
      * right; right. exists u. split; [done|]. exists u'.
        split; [done|]. by apply gte_false.
      * right; left. eauto.
    + intros [(s' & Hs' & Hlt) Hu]. simplify_eq. split; [done|].
      destruct Hu as [Ht | [(u & Hu & Hcu) | (u & Hu & u' & Hcu & Hlt')]].
      * by rewrite Ht.
      * rewrite Hu. simpl. rewrite Hcu. by destruct (truthy u).
      * rewrite Hu. simpl. rewrite Hcu.
        destruct (truthy u); [|done]. by apply gte_false.
  - split; [done|]. intros [(s & Hs' & _) _]. congruence.
Qed.

Lemma signature_step_unfold (cv : SemVer) (best : option SignatureSpec)
    (sig : SignatureSpec) :
  signature_step cv best sig =
  if passes cv sig then
    match best with
    | None => Some sig
    | Some b =>
        match coerce (sig_since b), coerce (sig_since sig) with
        | Some bestSince, Some sinceSemver =>
            if gt sinceSemver bestSince then Some sig else best
        | _, _ => Some sig
        end
    end
  else best.
Proof.
  unfold signature_step, passes.
  destruct (coerce (sig_since sig)) as [s|]; [|done].
  destruct (lt cv s); [done|]. simpl.
  destruct (if truthy_opt (until sig) then _ else _); [done|]. simpl.
  destruct best as [b|]; [|done]. by destruct (coerce (sig_since b)).
Qed.


Section Ordered.
Context `{!SemverOrder}.

Lemma compare_refl_not_gt (a : SemVer) : compare a a ≠ Gt.
Proof.
  pose proof (compare_antisym a a) as Ha.
  destruct (compare a a); simpl in Ha; congruence.
Qed.

Lemma compare_gt_lt (a b : SemVer) : compare a b = Gt ↔ compare b a = Lt.
Proof.
  rewrite (compare_antisym a b). destruct (compare a b); simpl; split; congruence.
Qed.

Lemma compare_below_lt (a b c : SemVer) :
  compare a b ≠ Gt → compare b c = Lt → compare a c = Lt.
Proof.
  intros Hab Hbc. destruct (compare a b) eqn:E; [| |done].
  - by eapply compare_eq_lt.
  - by eapply compare_lt_trans.
Qed.

Lemma best_among_step (cv : SemVer) (l : list SignatureSpec)
    (best : option SignatureSpec) (sig : SignatureSpec) :
  best_among cv l best →
  best_among cv (l ++ [sig]) (signature_step cv best sig).
Proof.
  intros Hinv. rewrite signature_step_unfold.
  destruct (passes cv sig) eqn:Hp.
  - apply passes_applies in Hp as Happ.
    destruct Happ as [(s & Hs & Hle) Huntil].
    assert (Hnew : ∀ j sig', (l ++ [sig]) !! j = Some sig' →
              (j < length l)%nat ∧ l !! j = Some sig' ∨ j = length l ∧ sig' = sig).
    { intros j sig' Hj. apply lookup_app_Some in Hj as [Hj | [Hge Hj]].
      - left. split; [by eapply lookup_lt_Some | done].
      - right. apply list_lookup_singleton_Some in Hj as [Hj ->].
        split; [lia | done]. }
    assert (Hself : ¬ since_compare sig sig Gt).
    { intros (x & y & Hx & Hy & Hc). simplify_eq. by eapply compare_refl_not_gt. }
    assert (Hfresh : best_among cv l best →
              (∀ j sig', (j < length l)%nat → l !! j = Some sig' →
                 signature_applies cv sig' → since_compare sig' sig Lt) →
              best_among cv (l ++ [sig]) (Some sig)).
    { intros _ Hbelow. exists (length l). split_and!.
      - by rewrite lookup_app_r, Nat.sub_diag.
      - by apply passes_applies.
      - intros j sig' Hj Happ'. destruct (Hnew _ _ Hj) as [[Hlt Hj'] | [-> ->]]; [|done].
        intros (x & y & Hx & Hy & Hc).
        destruct (Hbelow _ _ Hlt Hj' Happ') as (x' & y' & Hx' & Hy' & Hc').
        simplify_eq. congruence.
      - intros j sig' Hlt Hj Happ'.
        destruct (Hnew _ _ Hj) as [[_ Hj'] | [-> ->]]; [eauto | lia]. }
    destruct best as [b|]; simpl in Hinv.
    + destruct Hinv as (i & Hi & Hb & Hmax & Hfirst).
      pose proof Hb as [(bs & Hbs & Hble) Hbuntil].
      rewrite Hbs, Hs.
      destruct (gt s bs) eqn:Hgt.
      * apply gt_true in Hgt. apply compare_gt_lt in Hgt.
        apply Hfresh.
        { by exists i. }
        intros j sig' Hlt Hj Happ'.
        pose proof Happ' as [(s' & Hs' & _) _].
        exists s', s. split_and!; [done..|].
        eapply compare_below_lt; [|exact Hgt].
        intros Hc. apply (Hmax j sig' Hj Happ'). by exists s', bs.
      * exists i. split_and!.
        -- by apply lookup_app_l_Some.
        -- done.
        -- intros j sig' Hj Happ'.
           destruct (Hnew _ _ Hj) as [[_ Hj'] | [-> ->]]; [eauto|].
           intros (x & y & Hx & Hy & Hc). simplify_eq.
           apply gt_true in Hc. congruence.
        -- intros j sig' Hlt Hj Happ'.
           destruct (Hnew _ _ Hj) as [[_ Hj'] | [-> ->]]; [eauto|].
           apply lookup_lt_Some in Hi. lia.
    + apply Hfresh; [done|].
      intros j sig' _ Hj Happ'. exfalso. eapply Hinv; [|done].
      by eapply list_elem_of_lookup_2.
  - assert (Hno : ¬ signature_applies cv sig).
    { intros Happ. apply passes_applies in Happ. congruence. }
    destruct best as [b|]; simpl in *.
    + destruct Hinv as (i & Hi & Hb & Hmax & Hfirst).
      exists i. split_and!; [by apply lookup_app_l_Some | done | |].
      * intros j sig' Hj Happ'.
        apply lookup_app_Some in Hj as [Hj | [_ Hj]]; [eauto|].
        apply list_lookup_singleton_Some in Hj as [_ ->]. done.
      * intros j sig' Hlt Hj Happ'.
        apply lookup_app_Some in Hj as [Hj | [_ Hj]]; [eauto|].
        apply list_lookup_singleton_Some in Hj as [_ ->]. done.
    + intros sig' Hin. apply elem_of_app in Hin as [Hin | Hin]; [eauto|].
      apply list_elem_of_singleton in Hin as ->. done.
Qed.

Lemma best_among_loop (cv : SemVer) (l : list SignatureSpec) :
  best_among cv l (foldl (signature_step cv) None l).
Proof.
  induction l as [|sig l IH] using rev_ind.
  - simpl. intros sig Hin. by apply elem_of_nil in Hin.
  - rewrite foldl_app. simpl. by apply best_among_step.
Qed.

(** What the loop of [findActiveDeprecation] returns: the first entry, in
    the order of the list, that has been announced by [v]. *)
Lemma deprecation_loop_first (cv : SemVer) (deps : list DeprecationEntry) :
  match deprecation_loop cv deps with
  | None => ∀ dep, dep ∈ deps → ¬ deprecation_applies cv dep
  | Some dep =>
      ∃ earlier later, deps = earlier ++ dep :: later
        ∧ deprecation_applies cv dep
        ∧ ∀ d, d ∈ earlier → ¬ deprecation_applies cv d
  end.
Proof.
  unfold deprecation_applies, since_reached.
  induction deps as [|d deps IH]; simpl.
  - intros dep Hin. by apply elem_of_nil in Hin.
  - assert (Hskip : (∀ s, coerce (dep_since d) = Some s → compare cv s = Lt) →
      match deprecation_loop cv deps with
      | None => ∀ dep, dep ∈ d :: deps →
                  ¬ ∃ s, coerce (dep_since dep) = Some s ∧ compare cv s ≠ Lt
      | Some dep =>
          ∃ earlier later, d :: deps = earlier ++ dep :: later
            ∧ (∃ s, coerce (dep_since dep) = Some s ∧ compare cv s ≠ Lt)
            ∧ ∀ d0, d0 ∈ earlier →
                ¬ ∃ s, coerce (dep_since d0) = Some s ∧ compare cv s ≠ Lt
      end).
    { intros Hd. destruct (deprecation_loop cv deps) as [dep|].
      - destruct IH as (earlier & later & -> & Hdep & Hearlier).
        exists (d :: earlier), later. split_and!; [done..|].
        intros d0 Hin. apply elem_of_cons in Hin as [-> | Hin]; [|eauto].
        intros (s & Hs & Hc). by apply Hc, Hd.
      - intros dep Hin. apply elem_of_cons in Hin as [-> | Hin]; [|eauto].
        intros (s & Hs & Hc). by apply Hc, Hd. }
    destruct (coerce (dep_since d)) as [s|] eqn:Hs.
    + destruct (lt cv s) eqn:Hlt.
      * apply Hskip. intros s' [= <-]. by apply lt_true.
      * exists [], deps. split_and!; [done| |].
        -- exists s. split; [done|]. by apply lt_false.
        -- intros d0 Hin. by apply elem_of_nil in Hin.
    + apply Hskip. intros s' [=].
Qed.

(** C3, amended.  Let the store hold a spec under the key asked for, and
    let the version coerce.  [getApiSpec] returns a result unless
    [semver.minVersion] throws on [availableIn]; a result it returns holds
    that spec, and its [activeSignature] is a signature of the spec that
    applies (its [since] coerces and is at most [v], and it has no [until],
    or an [until] that is empty or does not coerce, or [v < until]) whose
    [since] no applicable signature exceeds; among the applicable
    signatures with that greatest [since] it is the first in declaration
    order: every applicable signature before it has a strictly smaller
    [since].  There is no [activeSignature] exactly when no signature of
    the spec applies. *)
Theorem getApiSpec_activeSignature_greatest_since_first
    (this : InMemoryAuthorityStore) (packageName exportName v : jsstring)
    (s : ApiSpec) (cv : SemVer) :
  specs this !! specKey packageName exportName = Some s →
  coerce v = Some cv →
  (minVersion (availableIn s) ≠ Thrown →
     ∃ r, (getApiSpec this packageName exportName v).1 = Returned (Some r))
  ∧ ∀ r, (getApiSpec this packageName exportName v).1 = Returned (Some r) →
      spec r = s
      ∧ match activeSignature r with
        | None => ∀ sig, sig ∈ signatures s → ¬ signature_applies cv sig
        | Some sig =>
            ∃ i, signatures s !! i = Some sig ∧ signature_applies cv sig
              ∧ (∀ j sig', signatures s !! j = Some sig' →
                   signature_applies cv sig' → ¬ since_compare sig' sig Gt)
              ∧ (∀ j sig', (j < i)%nat → signatures s !! j = Some sig' →
                   signature_applies cv sig' → since_compare sig' sig Lt)
        end.
Proof.
  intros Hkey Hv. split; [by apply getApiSpec_returns|].
  intros r Hr. apply getApiSpec_returned in Hr as (Hspec & Hsig & _ & _).
  rewrite Hkey in Hspec. injection Hspec as Hspec. split; [done|].
  rewrite Hsig, <- Hspec. unfold findActiveSignature. rewrite Hv.
  exact (best_among_loop cv (signatures s)).
Qed.

End Ordered.

End AuthorityProperties.

(** The resolved spec the sample store returns for [test-pkg/testFn] at
    1.5.0. *)
Lemma getApiSpec_sample :
  (Authority.getApiSpec Samples.sample_store (js "test-pkg") (js "testFn")
     (js "1.5.0")).1
  = Returned (Some Samples.resolved_sample).
Proof. vm_compute. reflexivity. Qed.

Lemma getApiSpec_uncoercible_version_witness :
  (Authority.getApiSpec Samples.sample_store (js "test-pkg") (js "testFn")
     (js "latest")).1
  = Returned (Some {| Authority.spec := Samples.tie_spec;
                      Authority.activeSignature := None;
                      Authority.activeDeprecation := None;
                      Authority.available := false;
                      Authority.isFuture := false |}).
Proof.
  apply (getApiSpec_uncoercible_version Samples.sample_store).
  - vm_compute. reflexivity.
  - reflexivity.
Defined.

Lemma getApiSpec_available_isFuture_exclusive_witness :
  ¬ (Authority.available Samples.resolved_sample = true
     ∧ Authority.isFuture Samples.resolved_sample = true).
Proof.
  exact (getApiSpec_available_isFuture_exclusive Samples.sample_store
           (js "test-pkg") (js "testFn") (js "1.5.0") _ getApiSpec_sample).
Defined.

Lemma getApiSpec_activeSignature_greatest_since_first_witness :
  Authority.spec Samples.resolved_sample = Samples.tie_spec
  ∧ match Authority.activeSignature Samples.resolved_sample with
    | None => ∀ sig, sig ∈ Authority.signatures Samples.tie_spec →
                ¬ signature_applies (1, 5, 0)%N sig
    | Some sig =>
        ∃ i, Authority.signatures Samples.tie_spec !! i = Some sig
          ∧ signature_applies (1, 5, 0)%N sig
          ∧ (∀ j sig', Authority.signatures Samples.tie_spec !! j = Some sig' →
               signature_applies (1, 5, 0)%N sig' → ¬ since_compare sig' sig Gt)
          ∧ (∀ j sig', (j < i)%nat →
               Authority.signatures Samples.tie_spec !! j = Some sig' →
               signature_applies (1, 5, 0)%N sig' → since_compare sig' sig Lt)
    end.
Proof.
  refine (proj2 (getApiSpec_activeSignature_greatest_since_first
                   Samples.sample_store (js "test-pkg") (js "testFn") (js "1.5.0")
                   Samples.tie_spec (1, 5, 0)%N _ _)
            Samples.resolved_sample getApiSpec_sample).
  - vm_compute. reflexivity.
  - reflexivity.
Defined.

(** C3 as stated fails in two ways.
    On a tie: the two signatures of the sample spec both apply at 1.5.0 and
    have the same [since]; the [activeSignature] that [getApiSpec] returns
    is the first in declaration order, not the last.
    On an [until] that does not coerce: the only signature of the second
    spec has the [until] [next], which is no version, so that [v < until]
    does not hold; at 2.0.0 [getApiSpec] returns it as [activeSignature]
    all the same. *)
Lemma getApiSpec_activeSignature_tie_and_until :
  (∃ r, (Authority.getApiSpec Samples.sample_store (js "test-pkg") (js "testFn")
           (js "1.5.0")).1 = Returned (Some r)
     ∧ Authority.signatures (Authority.spec r) = [Samples.sig_first; Samples.sig_last]
     ∧ coerce (js "1.5.0") = Some (1, 5, 0)%N
     ∧ signature_applies (1, 5, 0)%N Samples.sig_first
     ∧ signature_applies (1, 5, 0)%N Samples.sig_last
     ∧ since_compare Samples.sig_first Samples.sig_last Eq
     ∧ Samples.sig_first ≠ Samples.sig_last
     ∧ Authority.activeSignature r = Some Samples.sig_first)
  ∧ (∃ r, (Authority.getApiSpec MoreSamples.until_store (js "test-pkg") (js "nextFn")
             (js "2.0.0")).1 = Returned (Some r)
       ∧ Authority.signatures (Authority.spec r) = [MoreSamples.sig_until_next]
       ∧ coerce (js "2.0.0") = Some (2, 0, 0)%N
       ∧ Authority.until MoreSamples.sig_until_next = Some (js "next")
       ∧ ¬ before (2, 0, 0)%N (js "next")
       ∧ Authority.activeSignature r = Some MoreSamples.sig_until_next).
Proof.
  split.
  - eexists. split; [vm_compute; reflexivity|].
    split_and!; try reflexivity.
    + apply passes_applies. reflexivity.
    + apply passes_applies. reflexivity.
    + by exists (1, 0, 0)%N, (1, 0, 0)%N.
    + discriminate.
  - eexists. split; [vm_compute; reflexivity|].
    split_and!; try reflexivity.
    intros (u & Hu & _). discriminate.
Qed.

(** C1 at a failing input.  The sample symbol carries two deprecations,
    ordered by [since]: 16.3.0 and 18.0.0.  Both have been announced by
    18.2.0, and 18.0.0 is the greater [since]; [getApiSpec] returns the
    entry of 16.3.0. *)
Theorem getApiSpec_activeDeprecation_first_announced :
  ∃ r, (Authority.getApiSpec Samples.sample_store (js "test-pkg") (js "oldFn")
          (js "18.2.0")).1 = Returned (Some r)
    ∧ Authority.deprecations (Authority.spec r) = [Samples.dep_old; Samples.dep_new]
    ∧ coerce (js "18.2.0") = Some (18, 2, 0)%N
    ∧ deprecation_applies (18, 2, 0)%N Samples.dep_old
    ∧ deprecation_applies (18, 2, 0)%N Samples.dep_new
    ∧ coerce (Authority.dep_since Samples.dep_old) = Some (16, 3, 0)%N
    ∧ coerce (Authority.dep_since Samples.dep_new) = Some (18, 0, 0)%N
    ∧ compare (16, 3, 0)%N (18, 0, 0)%N = Lt
    ∧ Authority.activeDeprecation r = Some Samples.dep_old.
Proof.
  eexists. split; [vm_compute; reflexivity|].
  split_and!; try reflexivity.
  - exists (16, 3, 0)%N. split; [reflexivity | discriminate].
  - exists (18, 0, 0)%N. split; [reflexivity | discriminate].
Qed.

(* ================================================================== *)
(** * Properties of the regular expressions *)
(* ================================================================== *)

Section RegexProperties.
Import Regex.

Lemma iterate_class {A : Type} (p : N → bool) (k : continuation A)
    (fuel pos : nat) (s : jsstring) (caps : captures) :
  (length s < fuel)%nat →
  iterate (rmatch (Chr p)) true k fuel pos s caps = class_star p pos s caps k.
Proof.
  revert pos s. induction fuel as [|fuel IH]; intros pos s Hlen; [lia|].
  destruct s as [|c s]; simpl; [done|].
  destruct (p c); [|done].
  assert ((pos <? S pos)%nat = true) as -> by (apply Nat.ltb_lt; lia).
  rewrite IH by (simpl in Hlen; lia). done.
Qed.

Lemma rmatch_class_star {A : Type} (p : N → bool) (pos : nat) (s : jsstring)
    (caps : captures) (k : continuation A) :
  rmatch (Star true (Chr p)) pos s caps k = class_star p pos s caps k.
Proof.
  transitivity (iterate (rmatch (Chr p)) true k (S (length s)) pos s caps);
    [reflexivity | apply iterate_class; lia].
Qed.

(** [p+] consumes one code unit of the class, then [p*]. *)
Lemma rmatch_class_plus {A : Type} (p : N → bool) (pos : nat) (c : N)
    (s : jsstring) (caps : captures) (k : continuation A) :
  p c = true →
  rmatch (Plus true (Chr p)) pos (c :: s) caps k = class_star p (S pos) s caps k.
Proof.
  intros Hc. unfold Plus.
  change (rmatch (Seq (Chr p) (Star true (Chr p))) pos (c :: s) caps k)
    with (if p c then rmatch (Star true (Chr p)) (S pos) s caps k else None).
  rewrite Hc. apply rmatch_class_star.
Qed.

(** The star tries the longest run first and stops where the continuation
    first succeeds: if the continuation fails after every run longer than
    [a] and succeeds after [a], the star hands over after [a]. *)
Lemma class_star_none {A : Type} (p : N → bool) (pos : nat) (s : jsstring)
    (caps : captures) (k : continuation A) :
  (∀ s1 s2, s = s1 ++ s2 → k (pos + length s1)%nat s2 caps = None) →
  class_star p pos s caps k = None.
Proof.
  revert pos. induction s as [|c s IH]; intros pos Hk.
  - simpl. rewrite <- (Hk [] []) by done. f_equal. simpl. lia.
  - simpl.
    assert (Hhere : k pos (c :: s) caps = None).
    { rewrite <- (Hk [] (c :: s)) by done. f_equal. simpl. lia. }
    destruct (p c); [|done]. rewrite IH; [done|].
    intros s1 s2 Hs. rewrite <- (Hk (c :: s1) s2) by (by rewrite Hs).
    f_equal. simpl. lia.
Qed.

Lemma class_star_backtrack {A : Type} (p : N → bool) (pos : nat)
    (a b : jsstring) (caps : captures) (k : continuation A) (x : A) :
  Forall (λ c, p c = true) a →
  (∀ b1 b2, b = b1 ++ b2 → b1 ≠ [] →
     k (pos + length a + length b1)%nat b2 caps = None) →
  k (pos + length a)%nat b caps = Some x →
  class_star p pos (a ++ b) caps k = Some x.
Proof.
  intros Ha. revert pos. induction Ha as [|c a Hc Ha IH]; intros pos Hlonger Hk.
  - simpl in *. rewrite Nat.add_0_r in Hk.
    destruct b as [|c b]; simpl; [done|].
    destruct (p c); [|done].
    rewrite class_star_none; [done|].
    intros s1 s2 Hb. rewrite <- (Hlonger (c :: s1) s2); [|by rewrite Hb|done].
    f_equal. simpl. lia.
  - simpl. rewrite Hc. rewrite (IH (S pos)); [done| |].
    + intros b1 b2 Hb Hb1. rewrite <- (Hlonger b1 b2 Hb Hb1). f_equal. simpl. lia.
    + rewrite <- Hk. f_equal. simpl. lia.
Qed.

(** When the class does not go on after [a], nothing longer is tried. *)
Lemma class_star_longest {A : Type} (p : N → bool) (pos : nat)
    (a b : jsstring) (caps : captures) (k : continuation A) (x : A) :
  Forall (λ c, p c = true) a →
  match b with [] => True | c :: _ => p c = false end →
  k (pos + length a)%nat b caps = Some x →
  class_star p pos (a ++ b) caps k = Some x.
Proof.
  intros Ha. revert pos. induction Ha as [|c a Hc Ha IH]; intros pos Hb Hk.
  - simpl in *. rewrite Nat.add_0_r in Hk.
    destruct b as [|c b]; simpl; [done|]. by rewrite Hb.
  - simpl. rewrite Hc. rewrite (IH (S pos)); [done|done|].
    rewrite <- Hk. f_equal. simpl. lia.
Qed.

Lemma rmatch_cat_cons {A : Type} (r : regex) (rs : list regex) (pos : nat)
    (s : jsstring) (caps : captures) (k : continuation A) :
  rmatch (Cat (r :: rs)) pos s caps k
  = rmatch r pos s caps (λ pos' s' caps', rmatch (Cat rs) pos' s' caps' k).
Proof. reflexivity. Qed.

Lemma rmatch_cat_nil {A : Type} (pos : nat) (s : jsstring) (caps : captures)
    (k : continuation A) :
  rmatch (Cat []) pos s caps k = k pos s caps.
Proof. reflexivity. Qed.

Lemma rmatch_lit {A : Type} (l s : jsstring) (pos : nat) (caps : captures)
    (k : continuation A) :
  l ≠ [] → rmatch (Lit l) pos (l ++ s) caps k = k (pos + length l)%nat s caps.
Proof.
  revert pos. induction l as [|c l IH]; intros pos Hl; [done|].
  destruct l as [|c' l].
  - simpl. rewrite N.eqb_refl. f_equal. lia.
  - change (rmatch (Lit (c :: c' :: l)) pos ((c :: c' :: l) ++ s) caps k)
      with (if (c =? c)%N then rmatch (Lit (c' :: l)) (S pos) ((c' :: l) ++ s) caps k
            else None).
    rewrite N.eqb_refl, IH by done. f_equal. simpl. lia.
Qed.

(** A literal fails on a subject that does not start with it. *)
Lemma rmatch_lit1_fails {A : Type} (c : N) (s : jsstring) (pos : nat)
    (caps : captures) (k : continuation A) :
  match s with [] => True | c' :: _ => c ≠ c' end →
  rmatch (Lit [c]) pos s caps k = None.
Proof.
  destruct s as [|c' s]; simpl; [done|]. intros Hne.
  by destruct (N.eqb_spec c c').
Qed.

(** A captured [p+] that takes the whole run [a]. *)
Lemma rmatch_group_plus {A : Type} (i : nat) (p : N → bool) (pos : nat)
    (a b : jsstring) (caps : captures) (k : continuation A) (x : A) :
  a ≠ [] → Forall (λ c, p c = true) a →
  (match b with [] => True | c :: _ => p c = false end
   ∨ ∀ b1 b2, b = b1 ++ b2 → b1 ≠ [] →
       k (pos + length a + length b1)%nat b2
         (<[i := Some (a ++ b1)]> caps) = None) →
  k (pos + length a)%nat b (<[i := Some a]> caps) = Some x →
  rmatch (Group i (Plus true (Chr p))) pos (a ++ b) caps k = Some x.
Proof.
  intros Ha Hp Hb Hk. destruct a as [|c a]; [done|].
  apply Forall_cons in Hp as [Hc Hp].
  change (rmatch (Group i (Plus true (Chr p))) pos ((c :: a) ++ b) caps k)
    with (rmatch (Plus true (Chr p)) pos (c :: a ++ b) caps
            (λ pos' s' caps',
               k pos' s' (<[i := Some (take (pos' - pos) (c :: a ++ b))]> caps'))).
  rewrite rmatch_class_plus by done.
  assert (Htake : ∀ b1, take (S pos + length a + length b1 - pos) (c :: a ++ b)
                        = take (length ((c :: a) ++ b1)) ((c :: a) ++ b)).
  { intros b1. f_equal. rewrite length_app. simpl. lia. }
  destruct Hb as [Hb | Hb].
  - apply class_star_longest; [done..|].
    replace (S pos + length a - pos)%nat with (length (c :: a)) by (simpl; lia).
    change (c :: a ++ b) with ((c :: a) ++ b). rewrite take_app_length.
    rewrite <- Hk. f_equal. simpl. lia.
  - apply class_star_backtrack; [done| |].
    + intros b1 b2 -> Hb1. rewrite Htake.
      rewrite (app_assoc (c :: a) b1 b2), take_app_length.
      rewrite <- (Hb b1 b2) by done. f_equal. simpl. lia.
    + replace (S pos + length a - pos)%nat with (length (c :: a)) by (simpl; lia).
      change (c :: a ++ b) with ((c :: a) ++ b). rewrite take_app_length.
      rewrite <- Hk. f_equal. simpl. lia.
Qed.

(** A captured [p+] fails when the continuation fails after every run. *)
Lemma rmatch_group_plus_fails {A : Type} (i : nat) (p : N → bool) (pos : nat)
    (s : jsstring) (caps : captures) (k : continuation A) :
  (∀ s1 s2 caps', s = s1 ++ s2 → k (pos + length s1)%nat s2 caps' = None) →
  rmatch (Group i (Plus true (Chr p))) pos s caps k = None.
Proof.
  intros Hk. destruct s as [|c s]; [done|].
  change (rmatch (Group i (Plus true (Chr p))) pos (c :: s) caps k)
    with (if p c then
            rmatch (Star true (Chr p)) (S pos) s caps
              (λ pos' s' caps',
                 k pos' s' (<[i := Some (take (pos' - pos) (c :: s))]> caps'))
          else None).
  destruct (p c); [|done]. rewrite rmatch_class_star.
  apply class_star_none. intros s1 s2 Hs.
  rewrite <- (Hk (c :: s1) s2 (<[i:=Some (take (S pos + length s1 - pos) (c :: s))]> caps))
    by (by rewrite Hs).
  f_equal. simpl. lia.
Qed.

Lemma rmatch_bol {A : Type} (s : jsstring) (caps : captures) (k : continuation A) :
  rmatch Bol 0 s caps k = k 0%nat s caps.
Proof. reflexivity. Qed.

Lemma rmatch_eol {A : Type} (pos : nat) (caps : captures) (k : continuation A) :
  rmatch Eol pos [] caps k = k pos [] caps.
Proof. reflexivity. Qed.

Lemma search_at_start (r : regex) (n pos e : nat) (s : jsstring) (caps : captures) :
  rmatch r pos s (replicate (S n) None)
    (λ pos' _ caps', Some (pos', <[O := Some (take (pos' - pos) s)]> caps'))
  = Some (e, caps) →
  search r n pos s = Some {| index := pos; lastIndex := e; groups := caps |}.
Proof. intros Hm. destruct s; cbn [search]; by rewrite Hm. Qed.

End RegexProperties.

(* ================================================================== *)
(** * Properties of the long ids *)
(* ================================================================== *)

Section LongIdProperties.
Import Regex Finding.

(** ** Numbers and their digits *)

Lemma digits_of_uint_digits (d : Decimal.uint) :
  Forall (λ c, is_digit c = true) (digits_of_uint d).
Proof. induction d; simpl; constructor; done. Qed.

Lemma digits_of_uint_nonempty (d : Decimal.uint) :
  d ≠ Decimal.Nil → digits_of_uint d ≠ [].
Proof. by destruct d. Qed.

Lemma parseInt10_acc (d : Decimal.uint) (acc : positive) :
  foldl (λ a c, a * 10 + (Z.of_N c - 48)) (Z.pos acc) (digits_of_uint d)
  = Z.pos (Pos.of_uint_acc d acc).
Proof.
  revert acc. induction d; intros acc; simpl; [done|..];
    (etrans; [|apply IHd]); f_equal; lia.
Qed.

Lemma parseInt10_of_uint (d : Decimal.uint) :
  parseInt10 (digits_of_uint d) = Z.of_N (Pos.of_uint d).
Proof.
  unfold parseInt10. induction d; simpl; [done|done|..];
    (etrans; [|apply f_equal, eq_refl]);
    (etrans; [|apply parseInt10_acc]); f_equal.
Qed.

Lemma numberToString_digits (n : Z) :
  0 ≤ n → Forall (λ c, is_digit c = true) (numberToString n).
Proof.
  destruct n as [|p|p]; intros Hn; simpl; [by repeat constructor| |lia].
  apply digits_of_uint_digits.
Qed.

Lemma numberToString_nonempty (n : Z) : numberToString n ≠ [].
Proof.
  destruct n as [|p|p]; simpl; [done| |done].
  apply digits_of_uint_nonempty, Unsigned.to_uint_nonnil.
Qed.

Lemma parseInt10_numberToString (n : Z) :
  0 ≤ n → parseInt10 (numberToString n) = n.
Proof.
  destruct n as [|p|p]; intros Hn; [done| |lia].
  simpl. rewrite parseInt10_of_uint, Unsigned.of_to. done.
Qed.

Lemma digit_not_colon (l : jsstring) :
  Forall (λ c, is_digit c = true) l → 58%N ∉ l.
Proof.
  intros Hl Hin. rewrite Forall_forall in Hl. specialize (Hl _ Hin). done.
Qed.

(** The end of the pattern does not match inside [line:col]. *)
Lemma long_id_tail_fails {A : Type} (l c before s : jsstring) (pos : nat)
    (caps : captures) (k : continuation A) :
  Forall (λ c, is_digit c = true) l → Forall (λ c, is_digit c = true) c →
  l ++ 58%N :: c = before ++ s →
  rmatch (Cat LONG_ID_TAIL) pos s caps k = None.
Proof.
  intros Hl Hc Heq. unfold LONG_ID_TAIL. rewrite rmatch_cat_cons.
  destruct s as [|c0 s]; [by apply rmatch_lit1_fails|].
  destruct (decide (c0 = 58%N)) as [-> | Hne];
    [|apply rmatch_lit1_fails; by intros <-].
  assert (Hbefore : 58%N ∉ before).
  { intros Hin. apply list_elem_of_lookup in Hin as (i & Hi).
    assert (Hlt : (i < length before)%nat) by by eapply lookup_lt_Some.
    assert (Hi' : (l ++ 58%N :: c) !! i = Some 58%N).
    { rewrite Heq. by rewrite lookup_app_l. }
    assert (Hi2 : (l ++ 58%N :: c) !! length before = Some 58%N).
    { rewrite Heq. by rewrite lookup_app_r, Nat.sub_diag. }
    destruct (decide (i < length l)%nat) as [Hil | Hil].
    - rewrite lookup_app_l in Hi' by done.
      apply (digit_not_colon l Hl). by eapply list_elem_of_lookup_2.
    - rewrite lookup_app_r in Hi2 by lia.
      destruct (length before - length l)%nat as [|j] eqn:Hj; [lia|].
      simpl in Hi2. apply (digit_not_colon c Hc). by eapply list_elem_of_lookup_2. }
  apply (first_separator 58) in Heq as [<- <-];
    [|by apply digit_not_colon|done].
  change (58%N :: c) with (js ":" ++ c). rewrite rmatch_lit by done. cbv beta.
  rewrite rmatch_cat_cons. apply rmatch_group_plus_fails.
  intros s1 s2 caps' Hs. rewrite rmatch_cat_cons.
  apply rmatch_lit1_fails. destruct s2 as [|c2 s2]; [done|].
  intros <-. apply (digit_not_colon c Hc). rewrite Hs.
  apply elem_of_app. right. by left.
Qed.

(** The pattern on a long id made of a package without slash, an export
    without colon, a file without line terminator and two numbers. *)
Lemma long_id_pattern_matches {A : Type} (pkg exp file l c : jsstring)
    (k : continuation A) (x : A) :
  let s := js "dxy:" ++ pkg ++ js "/" ++ exp ++ js ":" ++ file ++ js ":"
           ++ l ++ js ":" ++ c in
  pkg ≠ [] → 47%N ∉ pkg → exp ≠ [] → 58%N ∉ exp →
  file ≠ [] → Forall (λ c, is_dot c = true) file →
  l ≠ [] → Forall (λ c, is_digit c = true) l →
  c ≠ [] → Forall (λ c, is_digit c = true) c →
  k (length s) [] [None; Some pkg; Some exp; Some file; Some l; Some c] = Some x →
  rmatch LONG_ID_PATTERN 0 s (replicate 6 None) k = Some x.
Proof.
  intros s Hpkg Hpkg' Hexp Hexp' Hfile Hfile' Hl Hl' Hc Hc' Hk. unfold s, LONG_ID_PATTERN.
  rewrite rmatch_cat_cons, rmatch_bol. cbv beta.
  rewrite rmatch_cat_cons, rmatch_lit by done. cbv beta.
  rewrite rmatch_cat_cons. apply rmatch_group_plus; [done| |by left|].
  { apply Forall_forall. intros a Ha. apply negb_true_iff, N.eqb_neq. by intros ->. }
  rewrite rmatch_cat_cons, rmatch_lit by done. cbv beta.
  rewrite rmatch_cat_cons. apply rmatch_group_plus; [done| |by left|].
  { apply Forall_forall. intros a Ha. apply negb_true_iff, N.eqb_neq. by intros ->. }
  rewrite rmatch_cat_cons, rmatch_lit by done. cbv beta.
  rewrite rmatch_cat_cons. apply rmatch_group_plus; [done|done| |].
  { right. intros b1 b2 Hb Hb1.
    destruct b1 as [|c1 b1]; [done|]. simpl in Hb. injection Hb as <- Hb.
    rewrite rmatch_cat_cons.
    by apply (long_id_tail_fails l c b1 b2). }
  rewrite rmatch_cat_cons, rmatch_lit by done. cbv beta.
  rewrite rmatch_cat_cons. apply rmatch_group_plus; [done|done|by left|].
  rewrite rmatch_cat_cons, rmatch_lit by done. cbv beta.
  rewrite rmatch_cat_cons. rewrite <- (app_nil_r c) at 1.
  apply rmatch_group_plus; [done|done|by left|].
  rewrite rmatch_cat_cons, rmatch_eol, rmatch_cat_nil.
  rewrite <- Hk. f_equal. unfold s. rewrite !length_app. lia.
Qed.

(** X6.  The long id of a finding parses back to its parts when the package
    holds no slash, the export no colon and the file no line terminator,
    none of the three is empty, and line and column are safe integers that
    are not negative (from 0 to [2^53 - 1]). *)
Theorem parseLongId_makeLongId (pkg exp file : jsstring) (line col : Z) :
  pkg ≠ [] → 47%N ∉ pkg → exp ≠ [] → 58%N ∉ exp →
  file ≠ [] → Forall (λ c, is_dot c = true) file →
  MoreFindingVocabulary.line_number line → MoreFindingVocabulary.line_number col →
  parseLongId (makeLongId pkg exp file line col)
  = Some {| package := pkg; export := exp; file := file;
            line := line; column := col |}.
Proof.
  intros Hpkg Hpkg' Hexp Hexp' Hfile Hfile' [Hline _] [Hcol _].
  unfold parseLongId, match_, exec.
  erewrite search_at_start; last first.
  { apply long_id_pattern_matches; try done;
      (apply numberToString_nonempty || by apply numberToString_digits). }
  simpl.
  pose proof (numberToString_nonempty line) as Hl.
  pose proof (numberToString_nonempty col) as Hc.
  destruct pkg; [done|]. destruct exp; [done|]. destruct file; [done|].
  destruct (numberToString line) eqn:El; [done|].
  destruct (numberToString col) eqn:Ec; [done|].
  simpl. rewrite <- El, <- Ec. by rewrite !parseInt10_numberToString.
Qed.

End LongIdProperties.

(** The long id of the repository's own example parses back to its
    parts. *)
Example parseLongId_makeLongId_sample :
  Finding.parseLongId
    (Finding.makeLongId (js "react") (js "createFactory") (js "src/App.tsx") 14 5)
  = Some {| Finding.package := js "react"; Finding.export := js "createFactory";
            Finding.file := js "src/App.tsx";
            Finding.line := 14; Finding.column := 5 |}.
Proof. vm_compute. reflexivity. Qed.

(** C2 at a failing input.  For the scoped package [@tanstack/react-query]
    the long id parses, but not back to its parts: the pattern ends the
    package at the first slash, so the package comes back as [@tanstack]
    and the export as [react-query/useQuery]. *)
Theorem parseLongId_scoped_package :
  Finding.makeLongId (js "@tanstack/react-query") (js "useQuery")
    (js "src/hooks.ts") 10 0
  = js "dxy:@tanstack/react-query/useQuery:src/hooks.ts:10:0"
  ∧ Finding.parseLongId
      (Finding.makeLongId (js "@tanstack/react-query") (js "useQuery")
         (js "src/hooks.ts") 10 0)
    = Some {| Finding.package := js "@tanstack";
              Finding.export := js "react-query/useQuery";
              Finding.file := js "src/hooks.ts";
              Finding.line := 10; Finding.column := 0 |}.
Proof. split; vm_compute; reflexivity. Qed.

(* ================================================================== *)
(** * Properties of the inline suppressions *)
(* ================================================================== *)

Import Regex Finding Suppression SuppressionVocabulary.

(** The block of the repository's tests, and three sources without a
    complete block: a start that is never closed, an end that closes
    nothing, and an end before the start. *)
Example parseInlineSuppressions_samples :
  parseInlineSuppressions
    (join [ js "// code before"; js "/* doxy-ignore-start deprecated-api */";
            js "const a = createFactory('a');"; js "const b = createFactory('b');";
            js "/* doxy-ignore-end */"; js "// code after" ] 10)
  = [ {| kind := OfKind DeprecatedApi; reason := None;
         startLine := 2; endLine := 5 |} ]
  ∧ parseInlineSuppressions
      (join [ js "/* doxy-ignore-start deprecated-api */"; js "code();" ] 10) = []
  ∧ parseInlineSuppressions
      (join [ js "code();"; js "/* doxy-ignore-end */" ] 10) = []
  ∧ parseInlineSuppressions
      (join [ js "/* doxy-ignore-end */";
              js "/* doxy-ignore-start deprecated-api */"; js "code();" ] 10) = [].
Proof. split_and!; vm_compute; reflexivity. Qed.

(** C6.  [isLineSuppressed] returns the first suppression of the list
    whose closed range holds the line and whose kind is ["*"] or the kind
    asked for, and nothing when the list has no such suppression. *)
Theorem isLineSuppressed_first (line : Z) (kind : ViolationKind)
    (sups : list InlineSuppression) :
  match isLineSuppressed line kind sups with
  | Some sup =>
      ∃ earlier later, sups = earlier ++ sup :: later
        ∧ suppresses line kind sup
        ∧ ∀ s, s ∈ earlier → ¬ suppresses line kind s
  | None => ∀ s, s ∈ sups → ¬ suppresses line kind s
  end.
Proof.
  induction sups as [|sup sups IH]; simpl.
  - intros s Hin. by apply elem_of_nil in Hin.
  - assert (Hskip : ¬ suppresses line kind sup →
      match isLineSuppressed line kind sups with
      | Some sup0 =>
          ∃ earlier later, sup :: sups = earlier ++ sup0 :: later
            ∧ suppresses line kind sup0
            ∧ ∀ s, s ∈ earlier → ¬ suppresses line kind s
      | None => ∀ s, s ∈ sup :: sups → ¬ suppresses line kind s
      end).
    { intros Hno. destruct (isLineSuppressed line kind sups) as [sup0|].
      - destruct IH as (earlier & later & -> & Hsup & Hearlier).
        exists (sup :: earlier), later. split_and!; [done..|].
        intros s Hin. apply elem_of_cons in Hin as [-> | Hin]; eauto.
      - intros s Hin. apply elem_of_cons in Hin as [-> | Hin]; eauto. }
    destruct ((line <? startLine sup) || (line >? endLine sup)) eqn:Hrange.
    + apply Hskip. intros [Hin _].
      apply orb_true_iff in Hrange as [Hr | Hr]; lia.
    + apply orb_false_iff in Hrange as [Hlo Hhi].
      destruct (bool_decide (Suppression.kind sup = AnyKind)
                || bool_decide (Suppression.kind sup = OfKind kind)) eqn:Hk.
      * exists [], sups. split_and!; [done| |].
        -- split; [lia|].
           apply orb_true_iff in Hk as [Hk | Hk]; apply bool_decide_eq_true in Hk; auto.
        -- intros s Hin. by apply elem_of_nil in Hin.
      * apply Hskip. intros [_ Hkind].
        apply orb_false_iff in Hk as [Hk1 Hk2].
        apply bool_decide_eq_false in Hk1, Hk2. tauto.
Qed.

Lemma pop_snoc {A : Type} (l : list A) (x : A) : pop (l ++ [x]) = (Some x, l).
Proof.
  unfold pop. rewrite last_snoc, length_app. simpl.
  replace (length l + 1 - 1)%nat with (length l) by lia.
  by rewrite take_app_length.
Qed.

Lemma pop_nil {A : Type} : pop (@nil A) = (None, []).
Proof. reflexivity. Qed.

(** The loop body by the kind of line it reads. *)
Lemma parse_line_cases (lineNum : Z) (line : jsstring) (st : ParserState) :
  parse_line lineNum line st =
  if is_block_end line then
    match pop (openBlocks st) with
    | (Some last, rest) =>
        {| suppressions :=
             suppressions st ++ [ {| kind := ob_kind last; reason := ob_reason last;
                                     startLine := ob_startLine last;
                                     endLine := lineNum |} ];
           openBlocks := rest |}
    | (None, rest) => {| suppressions := suppressions st; openBlocks := rest |}
    end
  else
    match opens_block line with
    | Some (kind, reason) =>
        {| suppressions := suppressions st;
           openBlocks := openBlocks st ++ [ {| ob_kind := kind; ob_reason := reason;
                                               ob_startLine := lineNum |} ] |}
    | None =>
        {| suppressions :=
             suppressions st ++ match blockStartMatch line with
                                | Some _ => []
                                | None => line_directive lineNum line
                                end;
           openBlocks := openBlocks st |}
    end.
Proof.
  unfold parse_line, opens_block, is_block_end, line_directive.
  destruct (test IGNORE_BLOCK_END 0 line); [done|].
  destruct st as [sups obs]; simpl.
  destruct (blockStartMatch line) as [m|].
  { destruct (VALID_KINDS (default [] (group m 1))); [done|]. by rewrite app_nil_r. }
  destruct (match_ IGNORE_CURRENT_LINE 2 line) as [m|].
  { destruct (VALID_KINDS (default [] (group m 1))); [done|]. by rewrite app_nil_r. }
  destruct (match_ IGNORE_NEXT_LINE 2 line) as [m|].
  { destruct (VALID_KINDS (default [] (group m 1))); [done|]. by rewrite app_nil_r. }
  by rewrite app_nil_r.
Qed.

Lemma parse_lines_app (i : Z) (l1 l2 : list jsstring) (st : ParserState) :
  parse_lines i (l1 ++ l2) st
  = parse_lines (i + Z.of_nat (length l1)) l2 (parse_lines i l1 st).
Proof.
  revert i st. induction l1 as [|l l1 IH]; intros i st; simpl.
  - by rewrite Z.add_0_r.
  - rewrite IH. f_equal. lia.
Qed.

Lemma parse_lines_snoc (pre : list jsstring) (l : jsstring) :
  parse_lines 0 (pre ++ [l]) initial
  = parse_line (Z.of_nat (length pre) + 1) l (parse_lines 0 pre initial).
Proof. rewrite parse_lines_app. simpl. reflexivity. Qed.

(** The loop only pushes on [suppressions]. *)
Lemma parse_line_prefix (lineNum : Z) (line : jsstring) (st : ParserState) :
  suppressions st `prefix_of` suppressions (parse_line lineNum line st).
Proof.
  rewrite parse_line_cases.
  destruct (is_block_end line).
  - destruct (pop (openBlocks st)) as [[last|] rest]; simpl; [|done].
    by apply prefix_app_r.
  - destruct (opens_block line) as [[kind reason]|]; simpl; [done|].
    by apply prefix_app_r.
Qed.

Lemma parse_lines_prefix (i : Z) (lines : list jsstring) (st : ParserState) :
  suppressions st `prefix_of` suppressions (parse_lines i lines st).
Proof.
  revert i st. induction lines as [|l lines IH]; intros i st; simpl; [done|].
  etrans; [apply parse_line_prefix | apply IH].
Qed.










(* ================================================================== *)
(** * Properties of the import resolver *)
(* ================================================================== *)

Import Resolver ResolverVocabulary.

(** ** Package names *)

Lemma startsWith_cons (s : jsstring) (c : N) :
  startsWith s [c] = match s with a :: _ => (c =? a)%N | [] => false end.
Proof. destruct s as [|a [|b s]]; simpl; [done|..]; by rewrite andb_true_r. Qed.

(** [indexOf] against [split]: without the separator the string is its
    only segment; otherwise the index of the first separator is the length
    of the first segment, which is a prefix of the string. *)
Lemma indexOf_split (s : jsstring) (c : N) :
  ∃ seg0 rest, split s c = seg0 :: rest
    ∧ ((indexOf s c = -1 ∧ rest = [] ∧ seg0 = s ∧ c ∉ s)
       ∨ (indexOf s c = Z.of_nat (length seg0) ∧ rest ≠ []
          ∧ take (length seg0) s = seg0 ∧ c ∈ s)).
Proof.
  induction s as [|a s IH]; simpl.
  - exists [], []. split; [done|]. left. split_and!; [done..|]. apply not_elem_of_nil.
  - destruct IH as (seg0 & rest & Hsplit & IH). rewrite Hsplit.
    destruct (N.eqb_spec a c) as [-> | Hne].
    + exists [], (seg0 :: rest). split; [done|]. right.
      split_and!; [done..|]. by left.
    + exists (a :: seg0), rest. split; [done|].
      destruct IH as [(Hi & -> & -> & Hnot) | (Hi & Hrest & Htake & Hin)].
      * left. rewrite Hi. simpl. split_and!; [done..|].
        apply not_elem_of_cons. done.
      * right. rewrite Hi. simpl.
        destruct (Z.of_nat (length seg0) <? 0) eqn:Hneg; [lia|].
        split_and!; [lia | done | by rewrite Htake | by right].
Qed.

Lemma slice_prefix (s : jsstring) (n : nat) :
  (n ≤ length s)%nat → slice s 0 (Z.of_nat n) = take n s.
Proof.
  intros Hn. unfold slice, clamp_index. simpl.
  destruct (Z.of_nat n <? 0) eqn:Hneg; [lia|].
  rewrite Z.min_l by lia. rewrite Z.min_l by lia.
  rewrite Z.sub_0_r, Nat2Z.id. done.
Qed.

(** The package names of the repository's tests. *)
Example extractPackageName_samples :
  extractPackageName (js "react") = Some (js "react")
  ∧ extractPackageName (js "react-dom/client") = Some (js "react-dom")
  ∧ extractPackageName (js "@tanstack/react-query") = Some (js "@tanstack/react-query")
  ∧ extractPackageName (js "@tanstack/react-query/build")
    = Some (js "@tanstack/react-query")
  ∧ extractPackageName (js "./utils") = None
  ∧ extractPackageName (js "../lib/foo") = None
  ∧ extractPackageName (js "/absolute/path") = None.
Proof. split_and!; reflexivity. Qed.

(** C7, amended.  [extractPackageName] returns nothing for a source that
    starts with [.] or [/]; for a source that starts with [@] it returns
    the first two slash-delimited segments, joined by a slash, when the
    source has a slash, and nothing when it has none; for every other
    source it returns the first slash-delimited segment, which is the whole
    source when it has no slash. *)
Theorem extractPackageName_segments (s : jsstring) :
  (startsWith s (js ".") = true ∨ startsWith s (js "/") = true →
     extractPackageName s = None)
  ∧ (startsWith s (js "@") = true → 47%N ∉ s → extractPackageName s = None)
  ∧ (startsWith s (js "@") = true →
       ∀ seg0 seg1 rest, split s 47 = seg0 :: seg1 :: rest →
         extractPackageName s = Some (seg0 ++ js "/" ++ seg1))
  ∧ (startsWith s (js ".") = false → startsWith s (js "/") = false →
     startsWith s (js "@") = false →
       (∃ seg0 rest, split s 47 = seg0 :: rest ∧ extractPackageName s = Some seg0)
       ∧ (47%N ∉ s → extractPackageName s = Some s)).
Proof.
  unfold extractPackageName. split_and!.
  - intros [-> | ->]; [done | by rewrite orb_true_r].
  - intros Hat Hno.
    assert (startsWith s (js ".") = false ∧ startsWith s (js "/") = false) as [-> ->].
    { simpl in *. rewrite !startsWith_cons in *. destruct s as [|a s]; [done|].
      apply N.eqb_eq in Hat as <-. done. }
    rewrite Hat. simpl.
    destruct (indexOf_split s 47) as (seg0 & rest & -> & [(_ & -> & _) | (_ & _ & _ & Hin)]);
      done.
  - intros Hat seg0 seg1 rest Hsplit.
    assert (startsWith s (js ".") = false ∧ startsWith s (js "/") = false) as [-> ->].
    { simpl in *. rewrite !startsWith_cons in *. destruct s as [|a s]; [done|].
      apply N.eqb_eq in Hat as <-. done. }
    rewrite Hat, Hsplit. done.
  - intros -> -> ->. simpl.
    destruct (indexOf_split s 47)
      as (seg0 & rest & Hsplit & [(Hi & -> & -> & Hno) | (Hi & Hrest & Htake & Hin)]).
    + rewrite Hi. simpl. split; [eauto | done].
    + rewrite Hi.
      destruct (Z.of_nat (length seg0) =? -1) eqn:Hneg; [lia|].
      rewrite slice_prefix, Htake.
      * split; [eauto | done].
      * rewrite <- Htake at 1. rewrite length_take. lia.
Qed.

Lemma extractPackageName_segments_witness :
  extractPackageName (js "@tanstack/react-query/build") = Some (js "@tanstack" ++ js "/" ++ js "react-query").
Proof.
  refine (proj1 (proj2 (proj2 (extractPackageName_segments (js "@tanstack/react-query/build")))) _
            (js "@tanstack") (js "react-query") [js "build"] _); reflexivity.
Defined.

(** C7 as stated fails on a scope without a name.  The source starts with
    [@] and has one slash-delimited segment only: there are no two segments
    to return, and the function returns nothing. *)
Lemma extractPackageName_scope_only :
  startsWith (js "@scope") (js "@") = true
  ∧ split (js "@scope") 47 = [js "@scope"]
  ∧ extractPackageName (js "@scope") = None.
Proof. split_and!; reflexivity. Qed.

(** ** Maps *)

Lemma map_get_elem {V : Type} (m : Map V) (k : jsstring) (v : V) :
  map_get m k = Some v → (k, v) ∈ m.
Proof.
  induction m as [|[k' v'] m IH]; simpl; [done|].
  unfold str_eqb. case_bool_decide as Hk.
  - intros [= ->]. subst k'. by left.
  - intros Hget. right. by apply IH.
Qed.

Lemma map_get_is_Some {V : Type} (m : Map V) (k : jsstring) :
  is_Some (map_get m k) ↔ k ∈ m.*1.
Proof.
  induction m as [|[k' v'] m IH]; simpl.
  - split; [by intros [? ?] | by intros ?%elem_of_nil].
  - unfold str_eqb. case_bool_decide as Hk.
    + subst k'. split; [by left | eauto].
    + rewrite IH. split; [by right|].
      intros Hin. apply elem_of_cons in Hin as [-> | Hin]; done.
Qed.

Lemma map_has_elem {V : Type} (m : Map V) (k : jsstring) :
  map_has m k = true ↔ k ∈ m.*1.
Proof. unfold map_has. by rewrite bool_decide_eq_true, map_get_is_Some. Qed.

Lemma map_has_app {V : Type} (m1 m2 : Map V) (k : jsstring) :
  map_has (m1 ++ m2) k = false → map_has m1 k = false.
Proof.
  intros Hno. apply not_true_is_false. intros Hhas.
  apply map_has_elem in Hhas.
  assert (map_has (m1 ++ m2) k = true); [|congruence].
  apply map_has_elem. rewrite fmap_app. apply elem_of_app. by left.
Qed.

Lemma map_set_fresh {V : Type} (m : Map V) (k : jsstring) (v : V) :
  map_has m k = false → map_set m k v = m ++ [(k, v)].
Proof.
  intros Hno. assert (Hk : k ∉ m.*1).
  { intros Hin. apply map_has_elem in Hin. congruence. }
  clear Hno. induction m as [|[k' v'] m IH]; simpl; [done|].
  simpl in Hk. apply not_elem_of_cons in Hk as [Hne Hk].
  unfold str_eqb. rewrite bool_decide_eq_false_2 by done. by rewrite IH.
Qed.

Lemma map_set_elem {V : Type} (m : Map V) (k k' : jsstring) (v v' : V) :
  (k', v') ∈ map_set m k v → (k', v') ∈ m ∨ (k' = k ∧ v' = v).
Proof.
  induction m as [|[k0 v0] m IH]; simpl.
  - intros Hin. apply list_elem_of_singleton in Hin as [= -> ->]. by right.
  - unfold str_eqb. case_bool_decide as Hk.
    + subst k0. intros Hin. apply elem_of_cons in Hin as [[= -> ->] | Hin].
      * by right.
      * left. by right.
    + intros Hin. apply elem_of_cons in Hin as [[= -> ->] | Hin].
      * left. by left.
      * destruct (IH Hin) as [Hm | Heq]; [left; by right | by right].
Qed.

Lemma map_set_Forall {V : Type} (P : jsstring → V → Prop) (m : Map V)
    (k : jsstring) (v : V) :
  (∀ k' v', (k', v') ∈ m → P k' v') → P k v →
  ∀ k' v', (k', v') ∈ map_set m k v → P k' v'.
Proof.
  intros Hm Hv k' v' Hin.
  destruct (map_set_elem _ _ _ _ _ Hin) as [Hold | [-> ->]]; auto.
Qed.

Lemma map_values_elem {V : Type} (m : Map V) (v : V) :
  v ∈ map_values m ↔ ∃ k, (k, v) ∈ m.
Proof.
  unfold map_values. rewrite list_elem_of_fmap. split.
  - intros ([k v'] & -> & Hin). by exists k.
  - intros (k & Hin). by exists (k, v).
Qed.

Lemma NoDup_keys_functional {V : Type} (m : Map V) (k : jsstring) (v v' : V) :
  NoDup m.*1 → (k, v) ∈ m → (k, v') ∈ m → v = v'.
Proof.
  induction m as [|[k0 v0] m IH]; simpl; [by intros _ ?%elem_of_nil|].
  intros Hnd Hin Hin'. apply NoDup_cons in Hnd as [Hk0 Hnd].
  apply elem_of_cons in Hin as [Hin | Hin];
    apply elem_of_cons in Hin' as [Hin' | Hin']; simplify_eq.
  - done.
  - exfalso. apply Hk0. apply list_elem_of_fmap. by eexists (_, _).
  - exfalso. apply Hk0. apply list_elem_of_fmap. by eexists (_, _).
  - by apply IH.
Qed.

(** ** The shape of package names *)

Lemma extractPackageName_shape (s p : jsstring) :
  extractPackageName s = Some p → package_shape p.
Proof.
  unfold extractPackageName, package_shape.
  destruct (startsWith s (js ".") || startsWith s (js "/")); [done|].
  destruct (startsWith s (js "@")) eqn:Hat.
  - pose proof (join_split s 47) as Hjoin.
    pose proof (split_no_sep s 47) as Hfree.
    destruct (split s 47) as [|seg0 [|seg1 rest]]; [done..|]. simpl.
    intros [= <-]. right. exists seg0, seg1. split_and!.
    + done.
    + simpl in Hat. rewrite startsWith_cons in Hat.
      destruct s as [|a s]; [done|]. apply N.eqb_eq in Hat as <-.
      simpl. rewrite startsWith_cons.
      change (join (seg0 :: seg1 :: rest) 47) with (seg0 ++ 47%N :: join (seg1 :: rest) 47)
        in Hjoin.
      destruct seg0 as [|a0 seg0]; simpl in Hjoin; by simplify_eq.
    + apply Hfree. by left.
    + apply Hfree. right. by left.
  - destruct (indexOf_split s 47)
      as (seg0 & rest & Hsplit & [(Hi & -> & -> & Hno) | (Hi & Hrest & Htake & Hin)]).
    + rewrite Hi. simpl. intros [= <-]. by left.
    + rewrite Hi.
      destruct (Z.of_nat (length seg0) =? -1) eqn:Hneg; [lia|].
      assert (Hlen : (length seg0 ≤ length s)%nat).
      { rewrite <- Htake at 1. rewrite length_take. lia. }
      rewrite slice_prefix, Htake by done. intros [= <-]. left. split.
      * simpl in *. rewrite startsWith_cons in *.
        destruct seg0 as [|a0 seg0]; [done|].
        destruct s as [|a s]; simpl in Htake; by simplify_eq.
      * apply (split_no_sep s 47). rewrite Hsplit. by left.
Qed.

(** The key of the usage map determines the symbol. *)
Lemma usageKey_inj (p1 e1 p2 e2 : jsstring) :
  package_shape p1 → package_shape p2 →
  usageKey p1 e1 = usageKey p2 e2 → p1 = p2 ∧ e1 = e2.
Proof.
  unfold usageKey. simpl.
  intros [[Hat1 Hno1] | (a1 & b1 & -> & Hat1 & Ha1 & Hb1)]
         [[Hat2 Hno2] | (a2 & b2 & -> & Hat2 & Ha2 & Hb2)] Heq.
  - by apply (first_separator 47).
  - rewrite <- (app_assoc a2) in Heq. simpl in Heq.
    apply (first_separator 47) in Heq as [-> _]; [congruence|done..].
  - rewrite <- (app_assoc a1) in Heq. simpl in Heq.
    apply (first_separator 47) in Heq as [-> _]; [congruence|done..].
  - rewrite <- (app_assoc a1), <- (app_assoc a2) in Heq. simpl in Heq.
    apply (first_separator 47) in Heq as [-> Heq]; [|done..].
    apply (first_separator 47) in Heq as [-> ->]; done.
Qed.

(** ** What step 1 builds *)


Lemma bind_specifiers_ok (pkg : jsstring) (l : SourceLocation)
    (specs : list ImportSpecifier) (bs : Map Binding) :
  package_shape pkg →
  (∀ k b, (k, b) ∈ bs → binding_ok b) →
  ∀ k b, (k, b) ∈ foldl (bind_specifier pkg l) bs specs → binding_ok b.
Proof.
  intros Hpkg. revert bs. induction specs as [|sp specs IH]; intros bs Hbs; simpl.
  - done.
  - apply IH. unfold bind_specifier. destruct (spec_isTypeOnly sp); [done|].
    apply map_set_Forall; [done|]. split; [done | by left].
Qed.

Lemma import_step_ok (tracked : option (gset jsstring)) (st : ImportState)
    (imp : NormalizedImport) :
  imports_ok st → imports_ok (import_step tracked st imp).
Proof.
  intros [Hb Hn]. unfold import_step.
  destruct (isTypeOnly imp); [done|].
  destruct (extractPackageName (source imp)) as [pkg|] eqn:Hpkg; [|done].
  apply extractPackageName_shape in Hpkg.
  destruct (negb (truthy pkg)); [done|].
  destruct (match tracked with Some _ => _ | None => _ end); [done|].
  pose proof (bind_specifiers_ok pkg (location imp) (specifiers imp) _ Hpkg Hb) as Hb1.
  set (b1 := foldl _ _ _) in *.
  destruct (hasDefault imp && truthy_opt (defaultLocal imp));
    destruct (hasNamespace imp && truthy_opt (namespaceLocal imp)); split; simpl;
    repeat (apply map_set_Forall; [|done || (split; [done | by right])]); done.
Qed.

Lemma importsOf_ok (ast : NormalizedAST) (tracked : option (gset jsstring)) :
  imports_ok (importsOf ast tracked).
Proof.
  unfold importsOf.
  assert (Hinit : imports_ok no_imports).
  { split; intros ? ? Hin; by apply elem_of_nil in Hin. }
  revert Hinit. generalize no_imports.
  induction (imports ast) as [|imp imps IH]; intros st Hst; simpl; [done|].
  apply IH. by apply import_step_ok.
Qed.

(** ** What step 2 builds *)


Lemma resolveCallee_shape (c : jsstring) (st : ImportState) (r : ResolvedCallee) :
  imports_ok st →
  resolveCallee c (bindings st) (namespacesAndDefaults st) = Some r →
  package_shape (rc_package r).
Proof.
  intros [Hb Hn]. unfold resolveCallee.
  assert (Hmember :
    (if negb (indexOf c 46 =? -1)
     then match map_get (namespacesAndDefaults st) (slice c 0 (indexOf c 46)) with
          | Some pkg =>
              if truthy pkg
              then Some {| rc_package := pkg;
                           rc_exportName := slice_from c (indexOf c 46 + 1);
                           rc_importKind :=
                             match map_get (bindings st) (slice c 0 (indexOf c 46)) with
                             | Some binding =>
                                 if bool_decide (b_importKind binding = Namespace)
                                 then Namespace else Default
                             | None => Default
                             end |}
              else None
          | None => None
          end
     else None) = Some r → package_shape (rc_package r)).
  { destruct (negb (indexOf c 46 =? -1)); [|done].
    destruct (map_get (namespacesAndDefaults st) _) as [pkg|] eqn:Hget; [|done].
    destruct (truthy pkg); [|done]. intros [= <-]. simpl.
    apply map_get_elem in Hget. by eapply Hn. }
  destruct (map_get (bindings st) c) as [b|] eqn:Hget; [|done].
  destruct (negb (is_member_export (exportName b))); [|done].
  intros [= <-]. simpl. apply map_get_elem in Hget. by eapply Hb.
Qed.

Lemma call_step_ok (st : ImportState) (m : Map SymbolUsage)
    (call : NormalizedCallExpression) :
  imports_ok st →
  (∀ k u, (k, u) ∈ m → usage_ok k u) →
  ∀ k u, (k, u) ∈ call_step (bindings st) (namespacesAndDefaults st) m call →
    usage_ok k u.
Proof.
  intros Hst Hm. unfold call_step.
  destruct (resolveCallee _ _ _) as [r|] eqn:Hr; [|done].
  apply resolveCallee_shape in Hr; [|done].
  apply map_set_Forall; [done|].
  destruct (map_get m _) as [u0|] eqn:Hget; simpl.
  - apply map_get_elem in Hget. apply Hm in Hget as [Hk Hshape]. done.
  - done.
Qed.

Lemma callUsages_ok (ast : NormalizedAST) (st : ImportState) :
  imports_ok st → ∀ k u, (k, u) ∈ callUsages ast st → usage_ok k u.
Proof.
  intros Hst. unfold callUsages.
  assert (Hinit : ∀ k u, (k, u) ∈ ([] : Map SymbolUsage) → usage_ok k u).
  { intros ? ? Hin. by apply elem_of_nil in Hin. }
  revert Hinit. generalize ([] : Map SymbolUsage).
  induction (callExpressions ast) as [|call calls IH]; intros m Hm; simpl; [done|].
  apply IH. by apply call_step_ok.
Qed.

(** A symbol has a call site exactly when the usage map of step 2 has its
    key. *)
Lemma has_call_site_key (calls : Map SymbolUsage) (pkg exp : jsstring) :
  (∀ k u, (k, u) ∈ calls → usage_ok k u) →
  package_shape pkg →
  map_has calls (usageKey pkg exp) = true ↔ has_call_site calls pkg exp.
Proof.
  intros Hcalls Hpkg. rewrite map_has_elem. unfold has_call_site. split.
  - intros Hin. apply list_elem_of_fmap in Hin as ([k u] & Hk & Hin).
    simpl in Hk. subst k. exists u.
    destruct (Hcalls _ _ Hin) as [Hkey Hshape].
    apply usageKey_inj in Hkey as [-> ->]; [|done..].
    split_and!; [|done..]. apply map_values_elem. eauto.
  - intros (u & Hin & <- & <-). apply map_values_elem in Hin as (k & Hin).
    destruct (Hcalls _ _ Hin) as [-> _].
    apply list_elem_of_fmap. by exists (usageKey (package u) (export u), u).
Qed.

(** ** What step 3 adds *)

Lemma import_only_fold (m : Map SymbolUsage) (bs : list Binding) :
  foldl import_only_step m bs = m ++ import_only_entries m bs.
Proof.
  revert m. induction bs as [|b bs IH]; intros m; simpl.
  - by rewrite app_nil_r.
  - rewrite IH. unfold import_only_step.
    destruct (is_member_export (exportName b)); simpl; [done|].
    destruct (map_has m _) eqn:Hhas; simpl; [done|].
    rewrite map_set_fresh by done. by rewrite <- app_assoc.
Qed.

Lemma import_only_entries_elem (m : Map SymbolUsage) (bs : list Binding)
    (k : jsstring) (u : SymbolUsage) :
  (k, u) ∈ import_only_entries m bs →
  ∃ b, b ∈ bs ∧ is_member_export (exportName b) = false
    ∧ k = usageKey (b_package b) (exportName b)
    ∧ u = import_only_usage b ∧ map_has m k = false.
Proof.
  revert m. induction bs as [|b bs IH]; intros m; simpl.
  - by intros ?%elem_of_nil.
  - destruct (is_member_export (exportName b)) eqn:Hmem; simpl.
    { intros Hin. destruct (IH _ Hin) as (b' & Hb' & ?). exists b'. split; [by right|done]. }
    destruct (map_has m _) eqn:Hhas; simpl.
    { intros Hin. destruct (IH _ Hin) as (b' & Hb' & ?). exists b'. split; [by right|done]. }
    intros Hin. apply elem_of_cons in Hin as [[= -> ->] | Hin].
    + exists b. split_and!; [by left|done..].
    + destruct (IH _ Hin) as (b' & Hb' & Hmem' & Hk & Hu & Hno).
      exists b'. split_and!; [by right|done..|]. by eapply map_has_app.
Qed.

Lemma import_only_entries_NoDup (m : Map SymbolUsage) (bs : list Binding) :
  NoDup (import_only_entries m bs).*1.
Proof.
  revert m. induction bs as [|b bs IH]; intros m; simpl.
  - apply NoDup_nil_2.
  - destruct (is_member_export (exportName b) || map_has m _); [apply IH|].
    simpl. apply NoDup_cons. split; [|apply IH].
    intros Hin. apply list_elem_of_fmap in Hin as ([k u] & Hk & Hin).
    simpl in Hk. subst k.
    apply import_only_entries_elem in Hin as (_ & _ & _ & _ & _ & Hno).
    assert (map_has (m ++ [(usageKey (b_package b) (exportName b), import_only_usage b)])
              (usageKey (b_package b) (exportName b)) = true); [|congruence].
    apply map_has_elem. rewrite fmap_app. apply elem_of_app. right. by left.
Qed.

(** The first binding of a symbol that step 2 has not seen gets its
    entry. *)
Lemma import_only_entries_first (m : Map SymbolUsage) (bs : list Binding)
    (i : nat) (b : Binding) :
  bs !! i = Some b →
  is_member_export (exportName b) = false →
  map_has m (usageKey (b_package b) (exportName b)) = false →
  (∀ j b0, (j < i)%nat → bs !! j = Some b0 →
     is_member_export (exportName b0) = false →
     usageKey (b_package b0) (exportName b0) ≠ usageKey (b_package b) (exportName b)) →
  (usageKey (b_package b) (exportName b), import_only_usage b)
    ∈ import_only_entries m bs.
Proof.
  revert m i. induction bs as [|b0 bs IH]; intros m i Hi Hmem Hno Hfirst; [done|].
  destruct i as [|i]; simpl in *.
  - simplify_eq. rewrite Hmem, Hno. simpl. by left.
  - assert (Hrest : ∀ j b1, (j < i)%nat → bs !! j = Some b1 →
              is_member_export (exportName b1) = false →
              usageKey (b_package b1) (exportName b1)
              ≠ usageKey (b_package b) (exportName b)).
    { intros j b1 Hj Hb1. apply (Hfirst (S j)); [lia | done]. }
    destruct (is_member_export (exportName b0)) eqn:Hmem0; simpl; [by eapply IH|].
    destruct (map_has m (usageKey (b_package b0) (exportName b0))) eqn:Hhas0; simpl;
      [by eapply IH|].
    right. eapply IH; [done..| |done].
    apply not_true_is_false. intros Hhas. apply map_has_elem in Hhas.
    rewrite fmap_app in Hhas. apply elem_of_app in Hhas as [Hhas | Hhas].
    + apply map_has_elem in Hhas. congruence.
    + simpl in Hhas. apply list_elem_of_singleton in Hhas.
      eapply (Hfirst 0%nat b0); [lia|done..].
Qed.

(** Every binding of a symbol that step 2 has not seen finds an entry for
    its key. *)
Lemma import_only_entries_covers (m : Map SymbolUsage) (bs : list Binding)
    (b : Binding) :
  b ∈ bs →
  is_member_export (exportName b) = false →
  map_has m (usageKey (b_package b) (exportName b)) = false →
  usageKey (b_package b) (exportName b) ∈ (import_only_entries m bs).*1.
Proof.
  revert m. induction bs as [|b0 bs IH]; intros m Hin Hmem Hno.
  { by apply elem_of_nil in Hin. }
  simpl. apply elem_of_cons in Hin as [-> | Hin].
  { rewrite Hmem, Hno. simpl. by left. }
  destruct (is_member_export (exportName b0) || map_has m _) eqn:Hskip; [by apply IH|].
  simpl.
  destruct (decide (usageKey (b_package b0) (exportName b0)
                    = usageKey (b_package b) (exportName b))) as [Heq | Hkey].
  { rewrite Heq. by left. }
  right. apply IH; [done..|].
  apply not_true_is_false. intros Hhas. apply map_has_elem in Hhas.
  rewrite fmap_app in Hhas. apply elem_of_app in Hhas as [Hhas | Hhas].
  + apply map_has_elem in Hhas. congruence.
  + simpl in Hhas. apply list_elem_of_singleton in Hhas. done.
Qed.

Lemma keys_of_values {V : Type} (f : V → jsstring) (m : Map V) :
  (∀ k v, (k, v) ∈ m → k = f v) → m.*1 = f <$> m.*2.
Proof.
  induction m as [|[k v] m IH]; intros Hm; [done|].
  rewrite !fmap_cons. simpl. f_equal.
  - apply Hm. by left.
  - apply IH. intros k' v' Hin. apply Hm. by right.
Qed.

Lemma is_member_export_false (e : jsstring) :
  is_member_export e = false ↔ e ≠ js "default" ∧ e ≠ js "*".
Proof.
  unfold is_member_export, str_eqb. rewrite orb_false_iff.
  by rewrite !bool_decide_eq_false.
Qed.

(** Step 3 by the binding map.  It leaves the usages of the call sites as
    they are and appends usages ([extra]), one for each symbol that a named
    binding of the map names and that has no usage yet: no two of them name
    the same symbol, each is the import-only usage of such a binding, and
    for a symbol it is that of the first binding of the symbol in the order
    of the map. *)
Lemma import_only_by_bindings (ast : NormalizedAST)
    (tracked : option (gset jsstring)) :
  let st := importsOf ast tracked in
  let calls := callUsages ast st in
  let bs := map_values (bindings st) in
  ∃ extra,
    usages (resolveImports ast tracked) = map_values calls ++ extra
    ∧ NoDup ((λ u, (package u, export u)) <$> extra)
    ∧ (∀ u, u ∈ extra →
         ∃ b, b ∈ bs ∧ is_named b
           ∧ ¬ has_call_site calls (b_package b) (exportName b)
           ∧ u = import_only_usage b)
    ∧ (∀ b, b ∈ bs → is_named b →
         ¬ has_call_site calls (b_package b) (exportName b) →
         ∃ b', b' ∈ bs ∧ b_package b' = b_package b ∧ exportName b' = exportName b
           ∧ import_only_usage b' ∈ extra
           ∧ ∀ u, u ∈ extra → same_symbol b u → u = import_only_usage b')
    ∧ (∀ i b, bs !! i = Some b → is_named b →
         ¬ has_call_site calls (b_package b) (exportName b) →
         (∀ j b0, (j < i)%nat → bs !! j = Some b0 →
            ¬ (b_package b0 = b_package b ∧ exportName b0 = exportName b)) →
         import_only_usage b ∈ extra).
Proof.
  intros st calls bs.
  pose proof (importsOf_ok ast tracked) as Hst. fold st in Hst.
  pose proof (callUsages_ok ast st Hst) as Hcalls. fold calls in Hcalls.
  assert (Hbs : ∀ b, b ∈ bs → binding_ok b).
  { intros b Hb. apply map_values_elem in Hb as (k & Hb). by eapply (proj1 Hst). }
  set (entries := import_only_entries calls bs).
  assert (Hkeys : ∀ k u, (k, u) ∈ entries → k = usageKey (package u) (export u)).
  { intros k u Hin.
    apply import_only_entries_elem in Hin as (b & _ & _ & -> & -> & _). done. }
  assert (Hnd : NoDup entries.*1) by apply import_only_entries_NoDup.
  assert (Hcalled : ∀ b, b ∈ bs →
            map_has calls (usageKey (b_package b) (exportName b)) = false
            ↔ ¬ has_call_site calls (b_package b) (exportName b)).
  { intros b Hb. rewrite <- has_call_site_key; [|done|by apply Hbs].
    by destruct (map_has calls _). }
  exists (map_values entries). split_and!.
  - unfold resolveImports. simpl. fold st calls bs.
    rewrite import_only_fold. unfold map_values. by rewrite fmap_app.
  - unfold map_values.
    rewrite (keys_of_values (λ u, usageKey (package u) (export u))) in Hnd by done.
    rewrite (list_fmap_compose (λ u, (package u, export u))
               (λ pe, usageKey pe.1 pe.2)) in Hnd.
    by apply NoDup_fmap_1 in Hnd.
  - intros u Hu. apply map_values_elem in Hu as (k & Hin).
    apply import_only_entries_elem in Hin as (b & Hb & Hmem & -> & -> & Hno).
    exists b. split_and!; [done| |by apply Hcalled|done].
    destruct (Hbs b Hb) as [_ [Hnamed | Hmember]]; [|congruence].
    apply is_member_export_false in Hmem as [? ?]. by split_and!.
  - intros b Hb (Hkind & Hd & Hs) Hnot.
    assert (Hmem : is_member_export (exportName b) = false).
    { by apply is_member_export_false. }
    apply Hcalled in Hnot; [|done].
    pose proof (import_only_entries_covers calls bs b Hb Hmem Hnot) as Hin.
    apply list_elem_of_fmap in Hin as ([k u] & Hk & Hin). simpl in Hk. subst k.
    pose proof Hin as Hin'.
    apply import_only_entries_elem in Hin' as (b' & Hb' & Hmem' & Hk' & -> & _).
    apply usageKey_inj in Hk' as [Hp He]; [|by apply Hbs..].
    exists b'. split_and!; [done..| |].
    + apply map_values_elem. eauto.
    + intros u' Hu' [Hp' He']. apply map_values_elem in Hu' as (k' & Hin2).
      pose proof (Hkeys _ _ Hin2) as ->. rewrite Hp', He' in Hin2.
      by eapply NoDup_keys_functional.
  - intros i b Hi (Hkind & Hd & Hs) Hnot Hfirst.
    assert (Hb : b ∈ bs) by by eapply list_elem_of_lookup_2.
    apply map_values_elem.
    exists (usageKey (b_package b) (exportName b)).
    apply (import_only_entries_first calls bs i); [done| | |].
    + by apply is_member_export_false.
    + by apply Hcalled.
    + intros j b0 Hj Hb0 _ Hkey. apply (Hfirst j b0 Hj Hb0).
      apply usageKey_inj in Hkey; [done| |by apply Hbs].
      apply Hbs. by eapply list_elem_of_lookup_2.
Qed.

(** The sample file: [useState] is called, [createFactory] is only
    imported. *)
Example resolveImports_sample :
  usages (resolveImports sample_ast None)
  = [ {| package := js "react"; export := js "useState"; importKind := Named;
         usageSites := [ {| site_location := loc 3; site_argCount := Some 1;
                            site_argNames := None |} ] |};
      {| package := js "react"; export := js "createFactory"; importKind := Named;
         usageSites := [ {| site_location := loc 1; site_argCount := None;
                            site_argNames := None |} ] |} ].
Proof. vm_compute. reflexivity. Qed.

(* ================================================================== *)
(** * More about the authority store *)
(* ================================================================== *)

Section MoreAuthority.
Context `{SemverApi}.
Import Authority.

(** X1.  The three outcomes of [getApiSpec].  For a key the store does not
    hold it returns [undefined].  For a key it holds it throws exactly when
    the version coerces, does not satisfy [availableIn], and
    [semver.minVersion] throws on [availableIn]; otherwise it returns a
    resolved spec, and that spec is the one stored under the key. *)
Theorem getApiSpec_outcomes (this : InMemoryAuthorityStore)
    (packageName exportName v : jsstring) :
  match specs this !! specKey packageName exportName with
  | None => (getApiSpec this packageName exportName v).1 = Returned None
  | Some s =>
      let throws :=
        ∃ cv, coerce v = Some cv ∧ satisfies cv (availableIn s) = false
              ∧ minVersion (availableIn s) = Thrown in
      (throws → (getApiSpec this packageName exportName v).1 = Thrown)
      ∧ (¬ throws →
           ∃ r, (getApiSpec this packageName exportName v).1 = Returned (Some r)
                ∧ spec r = s)
  end.
Proof.
  unfold getApiSpec.
  destruct (specs this !! specKey packageName exportName) as [s|]; [|done].
  unfold isAvailable, isFutureApi. split.
  - intros (cv & -> & -> & ->). done.
  - intros Hno. destruct (coerce v) as [cv|] eqn:Hv; simpl; [|eauto].
    destruct (satisfies cv (availableIn s)) eqn:Hsat; simpl; [eauto|].
    destruct (minVersion (availableIn s)) as [[m|]|] eqn:Hmin; [eauto..|].
    exfalso. apply Hno. eauto.
Qed.

(** X2.  For a version that coerces, the active deprecation is the first
    entry, in the order of [deprecations], whose [since] coerces and is at
    most the version; there is none exactly when no entry has been
    announced by the version. *)
Theorem findActiveDeprecation_first_announced (s : ApiSpec) (v : jsstring)
    (cv : SemVer) :
  coerce v = Some cv →
  match findActiveDeprecation s v with
  | None => ∀ dep, dep ∈ deprecations s → ¬ deprecation_applies cv dep
  | Some dep =>
      ∃ earlier later, deprecations s = earlier ++ dep :: later
        ∧ deprecation_applies cv dep
        ∧ ∀ d, d ∈ earlier → ¬ deprecation_applies cv d
  end.
Proof.
  intros Hv. unfold findActiveDeprecation. rewrite Hv.
  apply deprecation_loop_first.
Qed.

End MoreAuthority.

Lemma getApiSpec_outcomes_witness :
  (Authority.getApiSpec Samples.sample_store (js "vue") (js "ref") (js "3.0.0")).1
  = Returned None.
Proof.
  exact (getApiSpec_outcomes Samples.sample_store (js "vue") (js "ref") (js "3.0.0")).
Defined.

Lemma findActiveDeprecation_first_announced_witness :
  match Authority.findActiveDeprecation Samples.twice_deprecated (js "18.2.0") with
  | None => ∀ dep, dep ∈ Authority.deprecations Samples.twice_deprecated →
              ¬ deprecation_applies (18, 2, 0)%N dep
  | Some dep =>
      ∃ earlier later,
        Authority.deprecations Samples.twice_deprecated = earlier ++ dep :: later
        ∧ deprecation_applies (18, 2, 0)%N dep
        ∧ ∀ d, d ∈ earlier → ¬ deprecation_applies (18, 2, 0)%N d
  end.
Proof.
  apply (findActiveDeprecation_first_announced Samples.twice_deprecated (js "18.2.0")).
  reflexivity.
Defined.

Section MoreStores.
Context `{SemverApi}.
Variable sha256_hex : jsstring → jsstring.
Variable JSON_stringify : Authority.ApiSpec → jsstring.
Import Authority StoreConstruction.

Lemma set_add_elem (s : list jsstring) (x y : jsstring) :
  y ∈ Resolver.set_add s x ↔ y ∈ s ∨ y = x.
Proof.
  unfold Resolver.set_add. case_bool_decide as Hx.
  - split; [by left|]. by intros [? | ->].
  - rewrite elem_of_app, list_elem_of_singleton. done.
Qed.

Lemma set_add_NoDup (s : list jsstring) (x : jsstring) :
  NoDup s → NoDup (Resolver.set_add s x).
Proof.
  intros Hs. unfold Resolver.set_add. case_bool_decide as Hx; [done|].
  apply NoDup_app. split_and!; [done| |apply NoDup_singleton].
  intros y Hy Hy'. apply list_elem_of_singleton in Hy' as ->. done.
Qed.

(** The spec the loop leaves under a key: the last one of the list with
    that key, or what was there before. *)
Lemma build_lookup (st : Building) (l : list ApiSpec) (k : jsstring) :
  b_specs (foldl (add_spec JSON_stringify) st l) !! k
  = match last (filter (λ s, specKey (package s) (export s) = k) l) with
    | Some s => Some s
    | None => b_specs st !! k
    end.
Proof.
  revert st. induction l as [|s l IH]; intros st; simpl; [done|].
  rewrite IH. rewrite filter_cons. case_decide as Hk.
  - rewrite last_cons.
    destruct (last (filter _ l)); [done|]. simpl. rewrite <- Hk.
    apply lookup_insert_eq.
  - destruct (last (filter _ l)); [done|]. simpl. by rewrite lookup_insert_ne.
Qed.

Lemma build_packages (st : Building) (l : list ApiSpec) :
  NoDup (b_packages st) →
  NoDup (b_packages (foldl (add_spec JSON_stringify) st l))
  ∧ ∀ p, p ∈ b_packages (foldl (add_spec JSON_stringify) st l)
         ↔ p ∈ b_packages st ∨ ∃ s, s ∈ l ∧ package s = p.
Proof.
  revert st. induction l as [|s l IH]; intros st Hnd; simpl.
  - split; [done|]. intros p. split; [by left|].
    intros [? | (s & Hs & _)]; [done|]. by apply elem_of_nil in Hs.
  - destruct (IH (add_spec JSON_stringify st s)) as [Hnd' Hin].
    { simpl. by apply set_add_NoDup. }
    split; [done|]. intros p. rewrite Hin. simpl. rewrite set_add_elem. split.
    + intros [[Hp | ->] | (s' & Hs' & Hp)]; [by left| |].
      * right. exists s. split; [by left|done].
      * right. exists s'. split; [by right|done].
    + intros [Hp | (s' & Hs' & Hp)]; [by left; left|].
      apply elem_of_cons in Hs' as [-> | Hs']; [left; by right|].
      right. eauto.
Qed.

(** What a built store holds under a key, and what a query returns. *)
Lemma created_store_lookup (apiSpecs : list ApiSpec) (version : option jsstring)
    (k : jsstring) :
  specs (createAuthorityStoreFromSpecs sha256_hex JSON_stringify apiSpecs version) !! k
  = last (filter (λ s, specKey (package s) (export s) = k) apiSpecs).
Proof.
  unfold createAuthorityStoreFromSpecs. simpl. rewrite build_lookup.
  simpl. by destruct (last _).
Qed.

Lemma created_store_answer (apiSpecs : list ApiSpec) (version : option jsstring)
    (packageName exportName v : jsstring) (r : ResolvedApiSpec) :
  (getApiSpec (createAuthorityStoreFromSpecs sha256_hex JSON_stringify apiSpecs version)
     packageName exportName v).1 = Returned (Some r) →
  last (filter (λ s, specKey (package s) (export s) = specKey packageName exportName)
          apiSpecs) = Some (spec r).
Proof.
  intros Hr. unfold getApiSpec in Hr. rewrite created_store_lookup in Hr.
  destruct (last (filter _ apiSpecs)) as [s|]; [|done].
  destruct (if negb _ then _ else _); [|done].
  simpl in Hr. injection Hr as <-. done.
Qed.

(** X3.  A store built from a list of specs answers a query with the last
    spec of the list that has the key of the query: when the list has such
    a spec the answer is not [undefined], the store returns a result unless
    [semver.minVersion] throws on [availableIn], and a result it returns
    holds that last spec.  When the list has no spec with the key, the
    answer is [undefined]. *)
Theorem createAuthorityStoreFromSpecs_lookup (apiSpecs : list ApiSpec)
    (version : option jsstring) (packageName exportName v : jsstring) :
  let store := createAuthorityStoreFromSpecs sha256_hex JSON_stringify apiSpecs version in
  let same_key := λ s, specKey (package s) (export s) = specKey packageName exportName in
  match last (filter same_key apiSpecs) with
  | None => (getApiSpec store packageName exportName v).1 = Returned None
  | Some s =>
      (getApiSpec store packageName exportName v).1 ≠ Returned None
      ∧ (minVersion (availableIn s) ≠ Thrown →
           ∃ r, (getApiSpec store packageName exportName v).1 = Returned (Some r))
      ∧ (∀ r, (getApiSpec store packageName exportName v).1 = Returned (Some r) →
           spec r = s)
  end.
Proof.
  intros store same_key.
  pose proof (created_store_lookup apiSpecs version (specKey packageName exportName))
    as Hl.
  fold store in Hl. fold same_key in Hl.
  destruct (last (filter same_key apiSpecs)) as [s|] eqn:Hlast.
  - split_and!.
    + unfold getApiSpec. rewrite Hl.
      by destruct (if negb (isAvailable s v) then isFutureApi s v else Returned false).
    + intros Hmin. by apply (getApiSpec_returns store packageName exportName v s).
    + intros r Hr. apply getApiSpec_returned in Hr as (Hspec & _).
      rewrite Hl in Hspec. by injection Hspec.
  - unfold getApiSpec. by rewrite Hl.
Qed.

(** X4.  The packages of a store built from a list of specs are the
    packages of the specs, each once; every spec the store answers with
    belongs to a package it covers. *)
Theorem createAuthorityStoreFromSpecs_packages (apiSpecs : list ApiSpec)
    (version : option jsstring) :
  let store := createAuthorityStoreFromSpecs sha256_hex JSON_stringify apiSpecs version in
  NoDup (coveredPackages store)
  ∧ (∀ p, hasPackage store p = true ↔ ∃ s, s ∈ apiSpecs ∧ package s = p)
  ∧ (∀ packageName exportName v r,
       (getApiSpec store packageName exportName v).1 = Returned (Some r) →
       hasPackage store (package (spec r)) = true).
Proof.
  intros store.
  destruct (build_packages {| b_specs := ∅; b_packages := []; b_hashed := [] |}
              apiSpecs) as [Hnd Hin]; [apply NoDup_nil_2|].
  assert (Hhas : ∀ p, hasPackage store p = true ↔ ∃ s, s ∈ apiSpecs ∧ package s = p).
  { intros p. unfold hasPackage. rewrite bool_decide_eq_true.
    unfold store, createAuthorityStoreFromSpecs. simpl. rewrite Hin. simpl.
    split; [|by right]. intros [Hp | Hp]; [by apply elem_of_nil in Hp | done]. }
  split_and!; [done|done|].
  intros packageName exportName v r Hr.
  apply created_store_answer in Hr.
  apply last_Some_elem_of, list_elem_of_filter in Hr as [_ Hr].
  apply Hhas. eauto.
Qed.

(** X5.  When package names have the shape of package names (no slash, or
    [@scope/name]), a store built from a list of specs answers a query
    with a spec of the symbol asked for. *)
Theorem createAuthorityStoreFromSpecs_symbol (apiSpecs : list ApiSpec)
    (version : option jsstring) (packageName exportName v : jsstring)
    (r : ResolvedApiSpec) :
  (∀ s, s ∈ apiSpecs → ResolverVocabulary.package_shape (package s)) →
  ResolverVocabulary.package_shape packageName →
  (getApiSpec (createAuthorityStoreFromSpecs sha256_hex JSON_stringify apiSpecs version)
     packageName exportName v).1 = Returned (Some r) →
  package (spec r) = packageName ∧ export (spec r) = exportName.
Proof.
  intros Hshapes Hshape Hr.
  apply created_store_answer in Hr.
  apply last_Some_elem_of, list_elem_of_filter in Hr as [Hkey Hr].
  apply (usageKey_inj _ _ _ _ (Hshapes _ Hr) Hshape Hkey).
Qed.

End MoreStores.

Lemma createAuthorityStoreFromSpecs_symbol_witness :
  Authority.package (Authority.spec Samples.resolved_sample) = js "test-pkg"
  ∧ Authority.export (Authority.spec Samples.resolved_sample) = js "testFn".
Proof.
  apply (createAuthorityStoreFromSpecs_symbol (λ x, x) (λ _, [])
           [Samples.tie_spec] None (js "test-pkg") (js "testFn") (js "1.5.0")).
  - intros s Hs. apply list_elem_of_singleton in Hs. subst s.
    left. split; [reflexivity|].
    refine (bool_decide_unpack _ _). vm_compute. exact I.
  - left. split; [reflexivity|].
    refine (bool_decide_unpack _ _). vm_compute. exact I.
  - vm_compute. reflexivity.
Defined.

(* ================================================================== *)
(** * More about the long ids *)
(* ================================================================== *)

Section MoreRegex.
Import Regex.

(** Where a successful star of a class stopped. *)
Lemma class_star_some {A : Type} (p : N → bool) (pos : nat) (s : jsstring)
    (caps : captures) (k : continuation A) (x : A) :
  class_star p pos s caps k = Some x →
  ∃ a b, s = a ++ b ∧ Forall (λ c, p c = true) a
         ∧ k (pos + length a)%nat b caps = Some x.
Proof.
  revert pos. induction s as [|c s IH]; intros pos; simpl.
  - intros Hk. exists [], []. split_and!; [done|done|]. by rewrite Nat.add_0_r.
  - assert (Hstop : k pos (c :: s) caps = Some x →
              ∃ a b, c :: s = a ++ b ∧ Forall (λ c, p c = true) a
                     ∧ k (pos + length a)%nat b caps = Some x).
    { intros Hk. exists [], (c :: s). split_and!; [done|done|]. by rewrite Nat.add_0_r. }
    destruct (p c) eqn:Hc; [|done].
    destruct (class_star p (S pos) s caps k) as [y|] eqn:Hmore; [|done].
    intros [= ->]. destruct (IH _ Hmore) as (a & b & -> & Ha & Hk).
    exists (c :: a), b. split_and!; [done|by constructor|].
    rewrite <- Hk. f_equal. simpl. lia.
Qed.

Lemma rmatch_group_plus_some {A : Type} (i : nat) (p : N → bool) (pos : nat)
    (s : jsstring) (caps : captures) (k : continuation A) (x : A) :
  rmatch (Group i (Plus true (Chr p))) pos s caps k = Some x →
  ∃ a b, s = a ++ b ∧ a ≠ [] ∧ Forall (λ c, p c = true) a
         ∧ k (pos + length a)%nat b (<[i := Some a]> caps) = Some x.
Proof.
  destruct s as [|c s]; [done|].
  change (rmatch (Group i (Plus true (Chr p))) pos (c :: s) caps k)
    with (if p c then
            rmatch (Star true (Chr p)) (S pos) s caps
              (λ pos' s' caps',
                 k pos' s' (<[i := Some (take (pos' - pos) (c :: s))]> caps'))
          else None).
  destruct (p c) eqn:Hc; [|done]. rewrite rmatch_class_star.
  intros Hm. apply class_star_some in Hm as (a & b & -> & Ha & Hk).
  exists (c :: a), b. split_and!; [done|done|by constructor|].
  rewrite <- Hk. f_equal; [simpl; lia|].
  do 2 f_equal. replace (S pos + length a - pos)%nat with (length (c :: a)) by (simpl; lia).
  change (c :: a ++ b) with ((c :: a) ++ b). by rewrite take_app_length.
Qed.

Lemma rmatch_lit_some {A : Type} (l s : jsstring) (pos : nat) (caps : captures)
    (k : continuation A) (x : A) :
  l ≠ [] → rmatch (Lit l) pos s caps k = Some x →
  ∃ s', s = l ++ s' ∧ k (pos + length l)%nat s' caps = Some x.
Proof.
  revert pos s. induction l as [|c l IH]; intros pos s Hl; [done|].
  destruct l as [|c' l].
  - destruct s as [|c0 s]; simpl; [done|].
    destruct (N.eqb_spec c c0) as [<- | _]; [|done].
    intros Hk. exists s. split; [done|]. rewrite <- Hk. f_equal. lia.
  - destruct s as [|c0 s]; [done|].
    change (rmatch (Lit (c :: c' :: l)) pos (c0 :: s) caps k)
      with (if (c =? c0)%N then rmatch (Lit (c' :: l)) (S pos) s caps k else None).
    destruct (N.eqb_spec c c0) as [<- | _]; [|done].
    intros Hm. apply IH in Hm as (s' & -> & Hk); [|done].
    exists s'. split; [done|]. rewrite <- Hk. f_equal. simpl. lia.
Qed.

Lemma rmatch_eol_some {A : Type} (pos : nat) (s : jsstring) (caps : captures)
    (k : continuation A) (x : A) :
  rmatch Eol pos s caps k = Some x → s = [] ∧ k pos [] caps = Some x.
Proof. by destruct s. Qed.

(** A pattern that starts with [^] matches at the start of the subject or
    not at all. *)
Lemma search_bol_later (rs : list regex) (n pos : nat) (s : jsstring) :
  search (Cat (Bol :: rs)) n (S pos) s = None.
Proof.
  revert pos. induction s as [|c s IH]; intros pos; cbn [search].
  - by rewrite rmatch_cat_cons.
  - rewrite rmatch_cat_cons. simpl. apply IH.
Qed.

Lemma search_bol (rs : list regex) (n : nat) (s : jsstring) (m : match_result) :
  search (Cat (Bol :: rs)) n 0 s = Some m →
  rmatch (Cat rs) 0 s (replicate (S n) None)
    (λ pos' _ caps', Some (pos', <[O := Some (take (pos' - 0) s)]> caps'))
  = Some (lastIndex m, groups m).
Proof.
  destruct s as [|c s]; cbn [search]; rewrite rmatch_cat_cons, rmatch_bol;
    cbv beta.
  - destruct (rmatch (Cat rs) 0 [] _ _) as [[e caps]|]; [|done].
    by intros [= <-].
  - destruct (rmatch (Cat rs) 0 (c :: s) _ _) as [[e caps]|].
    + by intros [= <-].
    + by rewrite search_bol_later.
Qed.

End MoreRegex.

Section MoreLongIds.
Import Regex Finding.

Lemma parseInt10_nonneg (l : jsstring) :
  Forall (λ c, is_digit c = true) l → 0 ≤ parseInt10 l.
Proof.
  unfold parseInt10. intros Hl.
  assert (Hacc : ∀ acc, 0 ≤ acc →
            0 ≤ foldl (λ a c, a * 10 + (Z.of_N c - 48)) acc l).
  { induction Hl as [|c l Hc Hl IH]; intros acc Hacc; simpl; [done|].
    apply IH. unfold is_digit in Hc. apply andb_true_iff in Hc as [Hlo _].
    apply N.leb_le in Hlo. lia. }
  by apply Hacc.
Qed.

(** X7.  What [parseLongId] accepts.  A string that parses is [dxy:], a
    package, a slash, an export, a colon, a file, a colon, a run of digits,
    a colon and a run of digits; the package is not empty and holds no
    slash, the export is not empty and holds no colon, the file is not
    empty and holds no line terminator.  Where a run of digits denotes a
    safe integer (at most [2^53 - 1]), the line, or the column, is that
    integer. *)
Theorem parseLongId_shape (longId : jsstring) (r : ParsedLongId) :
  parseLongId longId = Some r →
  ∃ l c,
    longId = js "dxy:" ++ package r ++ js "/" ++ export r ++ js ":" ++ file r
             ++ js ":" ++ l ++ js ":" ++ c
    ∧ package r ≠ [] ∧ (47%N ∉ package r)
    ∧ export r ≠ [] ∧ (58%N ∉ export r)
    ∧ file r ≠ [] ∧ Forall (λ c, is_dot c = true) (file r)
    ∧ l ≠ [] ∧ Forall (λ c, is_digit c = true) l
    ∧ c ≠ [] ∧ Forall (λ c, is_digit c = true) c
    ∧ (parseInt10 l ≤ MoreFindingVocabulary.MAX_SAFE_INTEGER →
         line r = parseInt10 l ∧ MoreFindingVocabulary.line_number (line r))
    ∧ (parseInt10 c ≤ MoreFindingVocabulary.MAX_SAFE_INTEGER →
         column r = parseInt10 c ∧ MoreFindingVocabulary.line_number (column r)).
Proof.
  unfold parseLongId, match_, exec.
  destruct (search LONG_ID_PATTERN 5 0 longId) as [m|] eqn:Hsearch; [|done].
  apply search_bol in Hsearch.
  rewrite rmatch_cat_cons in Hsearch.
  apply rmatch_lit_some in Hsearch as (s1 & -> & Hm); [|done].
  rewrite rmatch_cat_cons in Hm.
  apply rmatch_group_plus_some in Hm as (pkg & s2 & -> & Hpkg & Hpkg' & Hm).
  rewrite rmatch_cat_cons in Hm.
  apply rmatch_lit_some in Hm as (s3 & -> & Hm); [|done].
  rewrite rmatch_cat_cons in Hm.
  apply rmatch_group_plus_some in Hm as (exp & s4 & -> & Hexp & Hexp' & Hm).
  rewrite rmatch_cat_cons in Hm.
  apply rmatch_lit_some in Hm as (s5 & -> & Hm); [|done].
  rewrite rmatch_cat_cons in Hm.
  apply rmatch_group_plus_some in Hm as (file & s6 & -> & Hfile & Hfile' & Hm).
  rewrite rmatch_cat_cons in Hm.
  apply rmatch_lit_some in Hm as (s7 & -> & Hm); [|done].
  rewrite rmatch_cat_cons in Hm.
  apply rmatch_group_plus_some in Hm as (l & s8 & -> & Hl & Hl' & Hm).
  rewrite rmatch_cat_cons in Hm.
  apply rmatch_lit_some in Hm as (s9 & -> & Hm); [|done].
  rewrite rmatch_cat_cons in Hm.
  apply rmatch_group_plus_some in Hm as (c & s10 & -> & Hc & Hc' & Hm).
  rewrite rmatch_cat_cons in Hm.
  apply rmatch_eol_some in Hm as [-> Hm].
  rewrite rmatch_cat_nil in Hm. injection Hm as _ Hgroups.
  eassert (Hg : groups m = [_; Some pkg; Some exp; Some file; Some l; Some c])
    by (rewrite <- Hgroups; reflexivity).
  cbn [fmap option_fmap option_map]. rewrite Hg. clear Hg Hgroups.
  intros Hparse. simpl in Hparse.
  destruct pkg as [|p0 pkg]; [done|]. destruct exp as [|e0 exp]; [done|].
  destruct file as [|f0 file]; [done|].
  destruct l as [|l0 l]; [done|]. destruct c as [|c0 c]; [done|].
  simpl in Hparse. injection Hparse as <-.
  exists (l0 :: l), (c0 :: c). cbn [package export Finding.file line column].
  split_and!; try done.
  - by rewrite app_nil_r.
  - intros Hin. rewrite Forall_forall in Hpkg'.
    specialize (Hpkg' _ Hin). done.
  - intros Hin. rewrite Forall_forall in Hexp'.
    specialize (Hexp' _ Hin). done.
  - intros Hmax. split; [done|]. split; [by apply parseInt10_nonneg | done].
  - intros Hmax. split; [done|]. split; [by apply parseInt10_nonneg | done].
Qed.

End MoreLongIds.

Lemma parseLongId_shape_witness :
  ∃ l c,
    js "dxy:react/useState:src/App.tsx:100:25"
    = js "dxy:" ++ Finding.package MoreSamples.sample_parsed ++ js "/"
      ++ Finding.export MoreSamples.sample_parsed ++ js ":"
      ++ Finding.file MoreSamples.sample_parsed ++ js ":" ++ l ++ js ":" ++ c
    ∧ (Finding.parseInt10 l ≤ MoreFindingVocabulary.MAX_SAFE_INTEGER →
         Finding.line MoreSamples.sample_parsed = Finding.parseInt10 l)
    ∧ (Finding.parseInt10 c ≤ MoreFindingVocabulary.MAX_SAFE_INTEGER →
         Finding.column MoreSamples.sample_parsed = Finding.parseInt10 c).
Proof.
  destruct (parseLongId_shape (js "dxy:react/useState:src/App.tsx:100:25")
              MoreSamples.sample_parsed)
    as (l & c & Hs & _ & _ & _ & _ & _ & _ & _ & _ & _ & _ & Hl & Hc).
  - vm_compute. reflexivity.
  - exists l, c. split; [exact Hs|].
    split; [exact (λ Hmax, proj1 (Hl Hmax)) | exact (λ Hmax, proj1 (Hc Hmax))].
Defined.

(** The round trip at a long id of the repository's tests. *)
Lemma parseLongId_makeLongId_witness :
  Finding.parseLongId
    (Finding.makeLongId (js "react-dom") (js "createRoot")
       (js "src/components/deep/Root.tsx") 1 0)
  = Some {| Finding.package := js "react-dom"; Finding.export := js "createRoot";
            Finding.file := js "src/components/deep/Root.tsx";
            Finding.line := 1; Finding.column := 0 |}.
Proof.
  apply parseLongId_makeLongId; try done.
  - refine (bool_decide_unpack _ _). vm_compute. exact I.
  - refine (bool_decide_unpack _ _). vm_compute. exact I.
  - refine (bool_decide_unpack _ _). vm_compute. exact I.
Defined.

(* ================================================================== *)
(** * More about the inline suppressions *)
(* ================================================================== *)

Section MoreSuppressions.
Import Regex Finding Suppression SuppressionVocabulary MoreSuppressionVocabulary.

Lemma parse_line_ranges (n : Z) (l : jsstring) (st : ParserState) :
  0 ≤ n →
  ranges_ok n st → ranges_ok (n + 1) (parse_line (n + 1) l st).
Proof.
  intros Hn [Hopen Hsups]. rewrite parse_line_cases.
  destruct (is_block_end l).
  - destruct (openBlocks st) as [|ob obs _] eqn:Hobs using rev_ind.
    + simpl. split; simpl.
      * intros ob Hin. by apply elem_of_nil in Hin.
      * intros sup Hin. specialize (Hsups _ Hin). lia.
    + rewrite pop_snoc. split; simpl.
      * intros ob' Hin. assert (1 ≤ ob_startLine ob' ≤ n); [|lia].
        apply Hopen. apply elem_of_app. by left.
      * intros sup Hin. apply elem_of_app in Hin as [Hin | Hin].
        -- specialize (Hsups _ Hin). lia.
        -- apply list_elem_of_singleton in Hin as ->. simpl.
           assert (1 ≤ ob_startLine ob ≤ n); [|lia].
           apply Hopen. apply elem_of_app. right. by left.
  - destruct (opens_block l) as [[kind reason]|]; split; simpl.
    + intros ob Hin. apply elem_of_app in Hin as [Hin | Hin].
      * specialize (Hopen _ Hin). lia.
      * apply list_elem_of_singleton in Hin as ->. simpl. lia.
    + intros sup Hin. specialize (Hsups _ Hin). lia.
    + intros ob Hin. specialize (Hopen _ Hin). lia.
    + intros sup Hin. apply elem_of_app in Hin as [Hin | Hin].
      { specialize (Hsups _ Hin). lia. }
      destruct (blockStartMatch l); [by apply elem_of_nil in Hin|].
      unfold line_directive in Hin.
      destruct (match_ IGNORE_CURRENT_LINE 2 l) as [m|].
      { destruct (VALID_KINDS _); [|by apply elem_of_nil in Hin].
        apply list_elem_of_singleton in Hin as ->. simpl. lia. }
      destruct (match_ IGNORE_NEXT_LINE 2 l) as [m|];
        [|by apply elem_of_nil in Hin].
      destruct (VALID_KINDS _); [|by apply elem_of_nil in Hin].
      apply list_elem_of_singleton in Hin as ->. simpl. lia.
Qed.

Lemma parse_lines_ranges (i : Z) (lines : list jsstring) (st : ParserState) :
  0 ≤ i → ranges_ok i st →
  ranges_ok (i + Z.of_nat (length lines)) (parse_lines i lines st).
Proof.
  revert i st. induction lines as [|l lines IH]; intros i st Hi Hst; simpl.
  - by rewrite Z.add_0_r.
  - replace (i + Z.of_nat (S (length lines)))
      with (i + 1 + Z.of_nat (length lines)) by lia.
    apply IH; [lia|]. by apply parse_line_ranges.
Qed.

(** X8.  Every suppression of the result covers a range of lines that is
    not empty: its start line is at least 1 and at most its end line, and
    its end line is at most one more than the number of lines of the
    source. *)
Theorem parseInlineSuppressions_ranges (source : jsstring) (sup : InlineSuppression) :
  sup ∈ parseInlineSuppressions source →
  1 ≤ startLine sup ≤ endLine sup
  ∧ endLine sup ≤ Z.of_nat (length (split source 10)) + 1.
Proof.
  intros Hin.
  destruct (parse_lines_ranges 0 (split source 10) initial) as [_ Hsups]; [done| |].
  { split; intros ? Hin'; by apply elem_of_nil in Hin'. }
  specialize (Hsups _ Hin). lia.
Qed.

End MoreSuppressions.

Section MoreSuppressions2.
Import Regex Finding Suppression SuppressionVocabulary MoreSuppressionVocabulary.

Lemma join_elem_occurs (parts : list jsstring) (c : N) (seg : jsstring) :
  seg ∈ parts → occurs seg (join parts c).
Proof.
  induction parts as [|p parts IH]; intros Hin; [by apply elem_of_nil in Hin|].
  apply elem_of_cons in Hin as [-> | Hin].
  - destruct parts as [|q parts].
    + exists [], []. simpl. by rewrite app_nil_r.
    + exists [], (c :: join (q :: parts) c). done.
  - destruct parts as [|q parts]; [by apply elem_of_nil in Hin|].
    destruct (IH Hin) as (a & b & Heq).
    exists (p ++ c :: a), b.
    change (join (p :: q :: parts) c) with (p ++ c :: join (q :: parts) c).
    rewrite Heq. by rewrite <- app_assoc.
Qed.

Lemma occurs_trans (x y z : jsstring) : occurs x y → occurs y z → occurs x z.
Proof.
  intros (a & b & ->) (a' & b' & ->). exists (a' ++ a), (b ++ b').
  by rewrite <- !app_assoc.
Qed.

(** A pattern that starts with a literal only matches where the literal
    is. *)
Lemma search_occurs (lit : jsstring) (r : regex) (n pos : nat) (s : jsstring)
    (m : match_result) :
  (∀ pos s caps (k : continuation (nat * captures)) x,
     rmatch r pos s caps k = Some x → ∃ s', s = lit ++ s') →
  search r n pos s = Some m → occurs lit s.
Proof.
  intros Hr. revert pos. induction s as [|c s IH]; intros pos; cbn [search].
  - destruct (rmatch r pos [] _ _) as [[e caps]|] eqn:Hm; [|done].
    intros _. apply Hr in Hm as [s' Hs]. exists [], s'. done.
  - destruct (rmatch r pos (c :: s) _ _) as [[e caps]|] eqn:Hm.
    + intros _. apply Hr in Hm as [s' Hs]. exists [], s'. done.
    + intros Hs. apply IH in Hs as (a & b & ->). by exists (c :: a), b.
Qed.

Lemma cat_lit_occurs (lit rest : jsstring) (rs : list regex) (n : nat)
    (s : jsstring) (m : match_result) :
  lit ++ rest ≠ [] →
  search (Cat (Lit (lit ++ rest) :: rs)) n 0 s = Some m → occurs lit s.
Proof.
  intros Hne Hs. apply (occurs_trans _ (lit ++ rest)).
  { exists [], rest. done. }
  eapply search_occurs; [|exact Hs].
  intros pos s0 caps k x. rewrite rmatch_cat_cons. intros Hm.
  apply rmatch_lit_some in Hm as (s' & -> & _); [|done]. by exists s'.
Qed.

Lemma lit_occurs (lit rest : jsstring) (n : nat) (s : jsstring) (m : match_result) :
  lit ++ rest ≠ [] →
  search (Lit (lit ++ rest)) n 0 s = Some m → occurs lit s.
Proof.
  intros Hne Hs. apply (occurs_trans _ (lit ++ rest)).
  { exists [], rest. done. }
  eapply search_occurs; [|exact Hs].
  intros pos s0 caps k x Hm.
  apply rmatch_lit_some in Hm as (s' & -> & _); [|done]. by exists s'.
Qed.

(** A line without the text [doxy-ignore] is inert. *)
Lemma parse_line_plain (lineNum : Z) (line : jsstring) (st : ParserState) :
  ¬ occurs (js "doxy-ignore") line → parse_line lineNum line st = st.
Proof.
  intros Hno. rewrite parse_line_cases.
  assert (Hend : is_block_end line = false).
  { unfold is_block_end, test, exec. apply bool_decide_eq_false. intros [m Hm].
    apply Hno. by apply (lit_occurs (js "doxy-ignore") (js "-end") 0 line m). }
  assert (Hstart : blockStartMatch line = None).
  { unfold blockStartMatch, match_, exec.
    destruct (search IGNORE_BLOCK_START 2 0 line) as [m|] eqn:Hm; [|done].
    exfalso. apply Hno. unfold IGNORE_BLOCK_START in Hm.
    by eapply (cat_lit_occurs (js "doxy-ignore") (js "-start")); [|exact Hm]. }
  assert (Hdir : line_directive lineNum line = []).
  { unfold line_directive, match_, exec.
    destruct (search IGNORE_CURRENT_LINE 2 0 line) as [m|] eqn:Hm.
    { exfalso. apply Hno. unfold IGNORE_CURRENT_LINE in Hm.
      by eapply (cat_lit_occurs (js "doxy-ignore") (js "-line")); [|exact Hm]. }
    destruct (search IGNORE_NEXT_LINE 2 0 line) as [m|] eqn:Hm'; [|done].
    exfalso. apply Hno. unfold IGNORE_NEXT_LINE in Hm'.
    by eapply (cat_lit_occurs (js "doxy-ignore") []); [|exact Hm']. }
  unfold opens_block. rewrite Hend, Hstart, Hdir. simpl.
  destruct st; simpl. by rewrite app_nil_r.
Qed.

Lemma parse_lines_plain (i : Z) (lines : list jsstring) (st : ParserState) :
  (∀ l, l ∈ lines → ¬ occurs (js "doxy-ignore") l) →
  parse_lines i lines st = st.
Proof.
  revert i st. induction lines as [|l lines IH]; intros i st Hno; simpl; [done|].
  rewrite parse_line_plain by (apply Hno; by left).
  apply IH. intros l' Hin. apply Hno. by right.
Qed.

Lemma startsWith_app (needle b : jsstring) : startsWith (needle ++ b) needle = true.
Proof.
  induction needle as [|c needle IH]; simpl; [by destruct b|].
  by rewrite N.eqb_refl.
Qed.

Lemma occurs_includes (needle s : jsstring) :
  occurs needle s → includes s needle = true.
Proof.
  intros (a & b & ->). induction a as [|c a IH].
  - pose proof (startsWith_app needle b) as Hs. simpl.
    destruct (needle ++ b); cbn [includes]; by rewrite Hs.
  - cbn [app includes]. rewrite IH. apply orb_true_r.
Qed.

(** X9.  A source that does not include the text [doxy-ignore] has no
    suppressions. *)
Theorem parseInlineSuppressions_no_directive (source : jsstring) :
  includes source (js "doxy-ignore") = false → parseInlineSuppressions source = [].
Proof.
  intros Hinc.
  assert (Hno : ¬ occurs (js "doxy-ignore") source).
  { intros Hocc. apply occurs_includes in Hocc. congruence. }
  unfold parseInlineSuppressions.
  rewrite parse_lines_plain; [done|].
  intros l Hin Hl. apply Hno. apply (occurs_trans _ l); [done|].
  rewrite <- (join_split source 10). by apply join_elem_occurs.
Qed.

(** Balanced lines leave the open blocks as they found them; read at
    depth [d], they close the [d] innermost ones. *)
Lemma parse_lines_balanced (d : nat) (i : Z) (lines : list jsstring)
    (st : ParserState) :
  balanced_from d lines = true → (d ≤ length (openBlocks st))%nat →
  openBlocks (parse_lines i lines st)
  = take (length (openBlocks st) - d) (openBlocks st).
Proof.
  revert d i st. induction lines as [|l lines IH]; intros d i st Hbal Hd.
  - simpl in *. apply bool_decide_eq_true in Hbal as ->.
    rewrite Nat.sub_0_r. by rewrite firstn_all.
  - cbn [parse_lines balanced_from] in *. rewrite parse_line_cases.
    destruct (is_block_end l).
    + destruct d as [|d]; [done|].
      destruct (openBlocks st) as [|ob obs _] eqn:Hobs using rev_ind;
        [simpl in Hd; lia|].
      rewrite pop_snoc. rewrite length_app in *. simpl in Hd.
      rewrite (IH d); [|done|simpl; lia]. simpl.
      replace (length obs + 1 - S d)%nat with (length obs - d)%nat by lia.
      rewrite take_app_le by lia. done.
    + destruct (opens_block l) as [[kind reason]|].
      * simpl in Hbal. rewrite (IH (S d)); [|done|simpl; rewrite length_app; simpl; lia].
        simpl. rewrite length_app. simpl.
        replace (length (openBlocks st) + 1 - S d)%nat
          with (length (openBlocks st) - d)%nat by lia.
        rewrite take_app_le by lia. done.
      * simpl in Hbal. rewrite (IH d); [|done|done]. done.
Qed.

Lemma isLineSuppressed_elem (line : Z) (kind : ViolationKind)
    (sups : list InlineSuppression) (sup : InlineSuppression) :
  sup ∈ sups → startLine sup ≤ line ≤ endLine sup →
  covers (Suppression.kind sup) kind →
  ∃ found, isLineSuppressed line kind sups = Some found
    ∧ found ∈ sups
    ∧ startLine found ≤ line ≤ endLine found
    ∧ covers (Suppression.kind found) kind.
Proof.
  intros Hin Hrange Hkind. induction sups as [|s sups IH];
    [by apply elem_of_nil in Hin|].
  simpl.
  destruct ((line <? startLine s) || (line >? endLine s)) eqn:Hr.
  - apply elem_of_cons in Hin as [-> | Hin].
    { apply orb_true_iff in Hr as [Hr | Hr]; lia. }
    destruct (IH Hin) as (found & -> & Hf & Hfr & Hfk).
    exists found. repeat split; try done; try apply Hfr. by right.
  - apply orb_false_iff in Hr as [Hlo Hhi].
    destruct (bool_decide (Suppression.kind s = AnyKind)
              || bool_decide (Suppression.kind s = OfKind kind)) eqn:Hk.
    + exists s. repeat split; [by left | lia | lia |].
      apply orb_true_iff in Hk as [Hk | Hk]; apply bool_decide_eq_true in Hk;
        [by left | by right].
    + apply elem_of_cons in Hin as [-> | Hin].
      { apply orb_false_iff in Hk as [Hk1 Hk2].
        apply bool_decide_eq_false in Hk1, Hk2. by destruct Hkind. }
      destruct (IH Hin) as (found & -> & Hf & Hfr & Hfk).
      exists found. repeat split; try done; try apply Hfr. by right.
Qed.

(** X10.  A block start, balanced lines after it and then a block end:
    every line from the start to the end, both included, is suppressed for
    every kind of finding that the kind of the block covers. *)
Theorem parseInlineSuppressions_block_covers (source : jsstring)
    (pre0 inner post : list jsstring) (l0 l : jsstring)
    (k : SuppressionKind) (r : option jsstring)
    (line : Z) (kind : ViolationKind) :
  split source 10 = pre0 ++ l0 :: inner ++ l :: post →
  opens_block l0 = Some (k, r) →
  balanced inner = true →
  is_block_end l = true →
  covers k kind →
  Z.of_nat (length pre0) + 1 ≤ line ≤ Z.of_nat (length pre0 + length inner) + 2 →
  ∃ found, isLineSuppressed line kind (parseInlineSuppressions source) = Some found
    ∧ startLine found ≤ line ≤ endLine found
    ∧ covers (Suppression.kind found) kind.
Proof.
  intros Hsplit Hopen Hbal Hend Hkind Hline.
  set (sup := {| Suppression.kind := k; reason := r;
                 startLine := Z.of_nat (length pre0) + 1;
                 endLine := Z.of_nat (length pre0 + length inner) + 2 |}).
  assert (Hin : sup ∈ parseInlineSuppressions source).
  { unfold parseInlineSuppressions. rewrite Hsplit.
    replace (pre0 ++ l0 :: inner ++ l :: post)
      with (((pre0 ++ [l0]) ++ inner) ++ [l] ++ post)
      by (by rewrite <- !app_assoc).
    rewrite (parse_lines_app _ _ ([l] ++ post)), (parse_lines_app _ [l] post).
    eapply elem_of_prefix; [|apply parse_lines_prefix].
    cbn [parse_lines]. rewrite parse_line_cases, Hend.
    rewrite (parse_lines_app _ (pre0 ++ [l0]) inner).
    rewrite (parse_lines_balanced 0); [|done|lia].
    rewrite Nat.sub_0_r, firstn_all, parse_lines_snoc, parse_line_cases.
    assert (is_block_end l0 = false) as ->.
    { unfold opens_block in Hopen. by destruct (is_block_end l0). }
    rewrite Hopen. cbn [openBlocks]. rewrite pop_snoc.
    cbn [suppressions]. apply elem_of_app. right.
    apply list_elem_of_singleton. unfold sup. f_equal.
    rewrite !length_app. simpl. lia. }
  destruct (isLineSuppressed_elem line kind _ sup Hin) as (found & Hf & _ & Hr & Hk);
    [done|done|].
  by exists found.
Qed.

Lemma trimStart_head (s : jsstring) (c : N) :
  head (trimStart s) = Some c → is_space c = false.
Proof.
  induction s as [|a s IH]; simpl; [done|].
  destruct (is_space a) eqn:Ha; [done|]. simpl. by intros [= <-].
Qed.

Lemma trimStart_suffix (s : jsstring) : trimStart s `suffix_of` s.
Proof.
  induction s as [|a s IH]; simpl; [done|].
  destruct (is_space a); [|done]. by apply suffix_cons_r.
Qed.

Lemma trim_trimmed (s : jsstring) : trimmed (trim s).
Proof.
  unfold trim. split; intros c.
  - rewrite head_reverse. intros Hlast.
    destruct (trimStart_suffix (reverse (trimStart s))) as [a Ha].
    apply (trimStart_head s c). rewrite <- last_reverse, Ha.
    destruct (trimStart (reverse (trimStart s))) as [|t ts] eqn:Ht; [done|].
    by rewrite last_app, Hlast.
  - rewrite last_reverse. apply trimStart_head.
Qed.

Lemma or_undefined_trim (s x : jsstring) :
  or_undefined (trim s) = Some x → x = trim s ∧ x ≠ [] ∧ trimmed x.
Proof.
  unfold or_undefined. destruct (trim s) as [|t ts] eqn:Ht; simpl; [done|].
  intros [= <-]. split_and!; [done..|]. rewrite <- Ht. apply trim_trimmed.
Qed.

Lemma parse_line_reasons (n : Z) (l : jsstring) (st : ParserState) :
  reasons_ok st → reasons_ok (parse_line n l st).
Proof.
  intros [Hopen Hsups]. rewrite parse_line_cases.
  destruct (is_block_end l).
  - destruct (openBlocks st) as [|ob obs _] eqn:Hobs using rev_ind.
    + by split.
    + rewrite pop_snoc. split; simpl.
      * intros ob' x Hin. apply Hopen. apply elem_of_app. by left.
      * intros sup x Hin. apply elem_of_app in Hin as [Hin | Hin]; [by apply Hsups|].
        apply list_elem_of_singleton in Hin as ->. simpl. intros Hx.
        apply (Hopen ob x); [|done]. apply elem_of_app. right. by left.
  - destruct (opens_block l) as [[kind reason]|] eqn:Ho; split; simpl.
    + intros ob x Hin. apply elem_of_app in Hin as [Hin | Hin]; [by apply Hopen|].
      apply list_elem_of_singleton in Hin as ->. simpl. intros ->.
      unfold opens_block in Ho. destruct (is_block_end l); [done|].
      destruct (blockStartMatch l) as [m|]; [|done].
      destruct (VALID_KINDS _); [|done]. injection Ho as _ Hc.
      unfold cleanBlockReason in Hc. destruct (group m 2) as [raw|]; [|done].
      destruct (negb (truthy raw)); [done|].
      apply or_undefined_trim in Hc as (_ & ? & ?). done.
    + done.
    + done.
    + intros sup x Hin. apply elem_of_app in Hin as [Hin | Hin]; [by apply Hsups|].
      destruct (blockStartMatch l); [by apply elem_of_nil in Hin|].
      unfold line_directive in Hin.
      destruct (match_ IGNORE_CURRENT_LINE 2 l) as [m|].
      { destruct (VALID_KINDS _); [|by apply elem_of_nil in Hin].
        apply list_elem_of_singleton in Hin as ->. simpl.
        destruct (group m 2); [|done]. simpl. intros [= <-]. apply trim_trimmed. }
      destruct (match_ IGNORE_NEXT_LINE 2 l) as [m|];
        [|by apply elem_of_nil in Hin].
      destruct (VALID_KINDS _); [|by apply elem_of_nil in Hin].
      apply list_elem_of_singleton in Hin as ->. simpl.
      destruct (group m 2); [|done]. simpl. intros [= <-]. apply trim_trimmed.
Qed.

Lemma parse_lines_reasons (i : Z) (lines : list jsstring) (st : ParserState) :
  reasons_ok st → reasons_ok (parse_lines i lines st).
Proof.
  revert i st. induction lines as [|l lines IH]; intros i st Hst; simpl; [done|].
  apply IH. by apply parse_line_reasons.
Qed.

(** X11.  The reason of a suppression, when it has one, has no white
    space at either end. *)
Theorem parseInlineSuppressions_reasons_trimmed (source : jsstring)
    (sup : InlineSuppression) (x : jsstring) :
  sup ∈ parseInlineSuppressions source → reason sup = Some x → trimmed x.
Proof.
  intros Hin Hx.
  destruct (parse_lines_reasons 0 (split source 10) initial) as [_ Hsups].
  { split; intros ? ? Hin'; by apply elem_of_nil in Hin'. }
  by apply (Hsups sup).
Qed.

(** X12.  [cleanBlockReason] returns nothing, or a string that is not
    empty and has no white space at either end: the text it was given,
    which was not empty, without a closing comment mark at its end and
    without the white space around. *)
Theorem cleanBlockReason_trimmed (raw : option jsstring) (x : jsstring) :
  cleanBlockReason raw = Some x →
  x ≠ [] ∧ trimmed x
  ∧ ∃ r, raw = Some r ∧ r ≠ [] ∧ x = trim (replace COMMENT_CLOSER 0 r []).
Proof.
  unfold cleanBlockReason.
  destruct raw as [r|]; [|done].
  destruct r as [|c r]; [done|]. simpl negb. cbv iota.
  intros Hx. apply or_undefined_trim in Hx as (Heq & Hne & Htrim).
  split_and!; [done..|]. by exists (c :: r).
Qed.

End MoreSuppressions2.

Lemma parseInlineSuppressions_ranges_witness :
  1 ≤ 2 ≤ 2 ∧ 2 ≤ Z.of_nat (length (split MoreSamples.next_line_source 10)) + 1.
Proof.
  apply (parseInlineSuppressions_ranges MoreSamples.next_line_source
           MoreSamples.next_line_suppression).
  vm_compute. left.
Defined.

Lemma parseInlineSuppressions_no_directive_witness :
  Suppression.parseInlineSuppressions MoreSamples.plain_source = [].
Proof.
  apply parseInlineSuppressions_no_directive. vm_compute. reflexivity.
Defined.

Lemma parseInlineSuppressions_block_covers_witness :
  ∃ found,
    Suppression.isLineSuppressed 2 Finding.DeprecatedApi
      (Suppression.parseInlineSuppressions MoreSamples.block_source) = Some found
    ∧ Suppression.startLine found ≤ 2 ≤ Suppression.endLine found
    ∧ MoreSuppressionVocabulary.covers (Suppression.kind found) Finding.DeprecatedApi.
Proof.
  apply (parseInlineSuppressions_block_covers MoreSamples.block_source
           [] [js "render(a, b);"] []
           (js "// doxy-ignore-start deprecated-api -- legacy code */")
           (js "// doxy-ignore-end")
           (Suppression.OfKind Finding.DeprecatedApi) (Some (js "legacy code"))).
  - vm_compute. reflexivity.
  - vm_compute. reflexivity.
  - vm_compute. reflexivity.
  - vm_compute. reflexivity.
  - right. reflexivity.
  - simpl. lia.
Defined.

Lemma parseInlineSuppressions_reasons_trimmed_witness :
  MoreSuppressionVocabulary.trimmed (js "legacy code").
Proof.
  apply (parseInlineSuppressions_reasons_trimmed MoreSamples.block_source
           MoreSamples.block_suppression).
  - vm_compute. left.
  - reflexivity.
Defined.

Lemma cleanBlockReason_trimmed_witness :
  js "legacy code" ≠ [] ∧ MoreSuppressionVocabulary.trimmed (js "legacy code")
  ∧ ∃ r, Some (js "legacy code */  ") = Some r ∧ r ≠ []
      ∧ js "legacy code" = Regex.trim (Regex.replace Suppression.COMMENT_CLOSER 0 r []).
Proof.
  apply (cleanBlockReason_trimmed (Some (js "legacy code */  "))).
  vm_compute. reflexivity.
Defined.

(* ================================================================== *)
(** * More about the import resolver *)
(* ================================================================== *)

Section MoreResolver.
Import Resolver ResolverVocabulary MoreResolverVocabulary.

Lemma split_two (a b : jsstring) :
  (47%N ∉ a) → (47%N ∉ b) → split (a ++ 47%N :: b) 47 = [a; b].
Proof.
  intros Ha Hb.
  change (a ++ 47%N :: b) with (join [a; b] 47).
  apply split_join; [done|].
  intros seg Hin. apply elem_of_cons in Hin as [-> | Hin]; [done|].
  by apply list_elem_of_singleton in Hin as ->.
Qed.

Lemma indexOf_none (s : jsstring) (c : N) : c ∉ s → indexOf s c = -1.
Proof.
  intros Hno. destruct (indexOf_split s c)
    as (seg0 & rest & _ & [(Hi & _) | (_ & _ & _ & Hin)]); done.
Qed.

(** The first code unit of a package name is that of the source. *)
Lemma extractPackageName_head (s p : jsstring) :
  extractPackageName s = Some p → head p = head s.
Proof.
  unfold extractPackageName.
  destruct (startsWith s (js ".") || startsWith s (js "/")) eqn:Hrel; [done|].
  destruct (startsWith s (js "@")) eqn:Hat.
  - pose proof (join_split s 47) as Hjoin.
    destruct (split s 47) as [|seg0 [|seg1 rest]]; [done..|]. simpl.
    intros [= <-].
    change (join (seg0 :: seg1 :: rest) 47) with (seg0 ++ 47%N :: join (seg1 :: rest) 47)
      in Hjoin.
    rewrite <- Hjoin. destruct seg0 as [|a0 seg0]; [|done].
    simpl in Hjoin. subst s. done.
  - destruct (indexOf_split s 47)
      as (seg0 & rest & Hsplit & [(Hi & -> & -> & Hno) | (Hi & Hrest & Htake & Hin)]).
    + rewrite Hi. simpl. by intros [= <-].
    + rewrite Hi.
      destruct (Z.of_nat (length seg0) =? -1) eqn:Hneg; [lia|].
      assert (Hlen : (length seg0 ≤ length s)%nat).
      { rewrite <- Htake at 1. rewrite length_take. lia. }
      rewrite slice_prefix, Htake by done. intros [= <-].
      destruct s as [|a s]; [by destruct seg0|].
      destruct seg0 as [|a0 seg0]; simpl in Htake; [|by simplify_eq].
      apply orb_false_iff in Hrel as [_ Hslash].
      change (js "/") with [47%N] in Hslash. rewrite startsWith_cons in Hslash.
      simpl in Hsplit. rewrite N.eqb_sym, Hslash in Hsplit.
      by destruct (split s 47).
Qed.

(** X13.  [extractPackageName] is idempotent: the package name of a
    package name is that name. *)
Theorem extractPackageName_idempotent (s p : jsstring) :
  extractPackageName s = Some p → extractPackageName p = Some p.
Proof.
  intros Hp. pose proof (extractPackageName_head _ _ Hp) as Hhead.
  pose proof (extractPackageName_shape _ _ Hp) as Hshape.
  assert (Hrel : startsWith p (js ".") || startsWith p (js "/") = false).
  { unfold extractPackageName in Hp.
    destruct (startsWith s (js ".") || startsWith s (js "/")) eqn:Hrel; [done|].
    simpl in *. rewrite !startsWith_cons in *.
    destruct p as [|a p], s as [|b s]; simpl in Hhead; by simplify_eq. }
  unfold extractPackageName. rewrite Hrel.
  destruct Hshape as [[Hat Hno] | (a & b & -> & Hat & Ha & Hb)].
  - rewrite Hat, indexOf_none by done. done.
  - assert (startsWith (a ++ 47%N :: b) (js "@") = true) as ->.
    { simpl in *. rewrite startsWith_cons in *. by destruct a. }
    rewrite split_two by done. done.
Qed.

(** The body of step 1 by the kind of import statement it reads. *)
Lemma import_step_cases (tracked : option (gset jsstring)) (st : ImportState)
    (imp : NormalizedImport) :
  import_step tracked st imp =
  match value_package imp with
  | None => st
  | Some pkg =>
      if is_tracked tracked pkg then accept_import pkg st imp
      else {| bindings := bindings st;
              namespacesAndDefaults := namespacesAndDefaults st;
              importedPackages := importedPackages st;
              unresolvedImports := unresolvedImports st ++ [source imp] |}
  end.
Proof.
  unfold import_step, value_package, is_tracked, accept_import.
  destruct (isTypeOnly imp); [done|].
  destruct (extractPackageName (source imp)) as [pkg|]; [|done].
  destruct (truthy pkg); simpl; [|done].
  destruct tracked as [T|]; [|done].
  by destruct (bool_decide (pkg ∈ T)).
Qed.

Lemma accept_import_packages (pkg : jsstring) (st : ImportState)
    (imp : NormalizedImport) :
  importedPackages (accept_import pkg st imp) = set_add (importedPackages st) pkg
  ∧ unresolvedImports (accept_import pkg st imp) = unresolvedImports st.
Proof.
  unfold accept_import.
  by destruct (hasDefault imp && truthy_opt (defaultLocal imp));
    destruct (hasNamespace imp && truthy_opt (namespaceLocal imp)).
Qed.

Lemma unresolved_fold (tracked : option (gset jsstring)) (imps : list NormalizedImport)
    (st : ImportState) :
  unresolvedImports (foldl (import_step tracked) st imps)
  = unresolvedImports st ++ (source <$> List.filter (untracked_import tracked) imps).
Proof.
  revert st. induction imps as [|imp imps IH]; intros st; simpl.
  - by rewrite app_nil_r.
  - rewrite IH, import_step_cases. unfold untracked_import.
    destruct (value_package imp) as [pkg|]; [|done].
    destruct (is_tracked tracked pkg); simpl.
    + by rewrite (proj2 (accept_import_packages _ _ _)).
    + by rewrite <- app_assoc.
Qed.

Lemma imported_fold (tracked : option (gset jsstring)) (imps : list NormalizedImport)
    (st : ImportState) :
  NoDup (importedPackages st) →
  NoDup (importedPackages (foldl (import_step tracked) st imps))
  ∧ ∀ p, p ∈ importedPackages (foldl (import_step tracked) st imps)
      ↔ p ∈ importedPackages st
        ∨ ∃ imp, imp ∈ imps ∧ value_package imp = Some p
            ∧ is_tracked tracked p = true.
Proof.
  revert st. induction imps as [|imp imps IH]; intros st Hnd; simpl.
  - split; [done|]. intros p. split; [by left|].
    intros [Hin | (imp & Hin & _)]; [done | by apply elem_of_nil in Hin].
  - assert (Hstep : NoDup (importedPackages (import_step tracked st imp))
      ∧ ∀ p, p ∈ importedPackages (import_step tracked st imp)
          ↔ p ∈ importedPackages st
            ∨ (value_package imp = Some p ∧ is_tracked tracked p = true)).
    { rewrite import_step_cases.
      destruct (value_package imp) as [pkg|].
      - destruct (is_tracked tracked pkg) eqn:Ht.
        + rewrite (proj1 (accept_import_packages _ _ _)).
          split; [by apply set_add_NoDup|].
          intros p. rewrite set_add_elem. split.
          * intros [Hin | ->]; [by left | by right].
          * intros [Hin | [[= ->] _]]; [by left | by right].
        + simpl. split; [done|]. intros p. split; [by left|].
          intros [Hin | [[= ->] Ht']]; [done | congruence].
      - split; [done|]. intros p. split; [by left|].
        by intros [Hin | [? _]]. }
    destruct Hstep as [Hnd' Hmem].
    destruct (IH _ Hnd') as [Hnd'' Hmem'']. split; [done|].
    intros p. rewrite Hmem'', Hmem. split.
    + intros [[Hin | [Hv Ht]] | (imp' & Hin & Hv & Ht)].
      * by left.
      * right. exists imp. split; [by left | done].
      * right. exists imp'. split; [by right | done].
    + intros [Hin | (imp' & Hin & Hv & Ht)]; [by left; left|].
      apply elem_of_cons in Hin as [-> | Hin].
      * left. by right.
      * right. by exists imp'.
Qed.

(** X14.  The packages of the result.  [unresolvedImports] holds the
    sources of the import statements whose package the filter rejects, in
    the order of the statements and as often as they occur.
    [importedPackages] holds, once each, the packages of the import
    statements that pass the filter.  Type-only statements and sources
    that name no package count for neither. *)
Theorem resolveImports_packages (ast : NormalizedAST)
    (tracked : option (gset jsstring)) :
  res_unresolvedImports (resolveImports ast tracked)
  = source <$> List.filter (untracked_import tracked) (imports ast)
  ∧ NoDup (res_importedPackages (resolveImports ast tracked))
  ∧ ∀ p, p ∈ res_importedPackages (resolveImports ast tracked)
      ↔ ∃ imp, imp ∈ imports ast ∧ value_package imp = Some p
          ∧ is_tracked tracked p = true.
Proof.
  unfold resolveImports, importsOf. cbn [res_unresolvedImports res_importedPackages].
  split; [by rewrite unresolved_fold|].
  destruct (imported_fold tracked (imports ast) no_imports) as [Hnd Hmem].
  { apply NoDup_nil_2. }
  split; [done|]. intros p. rewrite Hmem. split; [|by right].
  intros [Hin | Hex]; [by apply elem_of_nil in Hin | done].
Qed.

End MoreResolver.

Section MoreResolver2.
Import Resolver ResolverVocabulary MoreResolverVocabulary.

Lemma bind_specifiers_Forall (P : jsstring → Binding → Prop) (pkg : jsstring)
    (l : SourceLocation) (specs : list ImportSpecifier) (bs : Map Binding) :
  (∀ sp, P (local sp) {| b_package := pkg; exportName := imported sp;
                         b_importKind := Named; importLocation := l |}) →
  (∀ k b, (k, b) ∈ bs → P k b) →
  ∀ k b, (k, b) ∈ foldl (bind_specifier pkg l) bs specs → P k b.
Proof.
  intros Hnew. revert bs. induction specs as [|sp specs IH]; intros bs Hbs; simpl.
  - done.
  - apply IH. unfold bind_specifier. destruct (spec_isTypeOnly sp); [done|].
    by apply map_set_Forall.
Qed.

Lemma accept_import_ok (tracked : option (gset jsstring)) (pkg : jsstring)
    (st : ImportState) (imp : NormalizedImport) :
  is_tracked tracked pkg = true →
  packages_ok tracked st → packages_ok tracked (accept_import pkg st imp).
Proof.
  intros Ht (Hb & Hn & Hp).
  assert (Hold : ∀ p, p ∈ importedPackages st → p ∈ set_add (importedPackages st) pkg).
  { intros p Hin. apply set_add_elem. by left. }
  assert (Hnew : pkg ∈ set_add (importedPackages st) pkg).
  { apply set_add_elem. by right. }
  pose proof (bind_specifiers_Forall
    (λ _ b, b_package b ∈ set_add (importedPackages st) pkg)
    pkg (location imp) (specifiers imp) (bindings st)) as Hb1.
  simpl in Hb1. specialize (Hb1 (λ _, Hnew) (λ k b Hin, Hold _ (Hb k b Hin))).
  unfold accept_import. set (b1 := foldl _ _ _) in *.
  assert (Hn1 : ∀ k p, (k, p) ∈ namespacesAndDefaults st
            → p ∈ set_add (importedPackages st) pkg) by eauto.
  assert (Hp1 : ∀ p, p ∈ set_add (importedPackages st) pkg
            → is_tracked tracked p = true).
  { intros p Hin. apply set_add_elem in Hin as [Hin | ->]; eauto. }
  destruct (hasDefault imp && truthy_opt (defaultLocal imp));
    destruct (hasNamespace imp && truthy_opt (namespaceLocal imp));
    (split_and!; simpl; [| |done]);
    repeat (apply (map_set_Forall (λ _ b, b_package b ∈ _)); [|done]);
    repeat (apply (map_set_Forall (λ _ p, p ∈ _)); [|done]); done.
Qed.

Lemma importsOf_packages_ok (ast : NormalizedAST) (tracked : option (gset jsstring)) :
  packages_ok tracked (importsOf ast tracked).
Proof.
  unfold importsOf.
  assert (Hinit : packages_ok tracked no_imports).
  { split_and!; simpl; intros; by apply elem_of_nil in H. }
  revert Hinit. generalize no_imports.
  induction (imports ast) as [|imp imps IH]; intros st Hst; simpl; [done|].
  apply IH. rewrite import_step_cases.
  destruct (value_package imp) as [pkg|]; [|done].
  destruct (is_tracked tracked pkg) eqn:Ht; [by apply accept_import_ok|].
  done.
Qed.

(** Where a resolved callee comes from: a binding of the callee that
    names neither the default export nor the namespace, or else the
    package bound to the name before the first dot. *)
Lemma resolveCallee_cases (c : jsstring) (bs : Map Binding) (nd : Map jsstring)
    (r : ResolvedCallee) :
  resolveCallee c bs nd = Some r →
  (∃ b, map_get bs c = Some b ∧ is_member_export (exportName b) = false
     ∧ rc_package r = b_package b ∧ rc_exportName r = exportName b
     ∧ rc_importKind r = b_importKind b)
  ∨ (indexOf c 46 ≠ -1
     ∧ map_get nd (slice c 0 (indexOf c 46)) = Some (rc_package r)
     ∧ rc_package r ≠ []
     ∧ rc_exportName r = slice_from c (indexOf c 46 + 1)).
Proof.
  unfold resolveCallee.
  assert (Hmember :
    (if negb (indexOf c 46 =? -1)
     then match map_get nd (slice c 0 (indexOf c 46)) with
          | Some pkg =>
              if truthy pkg
              then Some {| rc_package := pkg;
                           rc_exportName := slice_from c (indexOf c 46 + 1);
                           rc_importKind :=
                             match map_get bs (slice c 0 (indexOf c 46)) with
                             | Some binding =>
                                 if bool_decide (b_importKind binding = Namespace)
                                 then Namespace else Default
                             | None => Default
                             end |}
              else None
          | None => None
          end
     else None) = Some r →
    indexOf c 46 ≠ -1
    ∧ map_get nd (slice c 0 (indexOf c 46)) = Some (rc_package r)
    ∧ rc_package r ≠ []
    ∧ rc_exportName r = slice_from c (indexOf c 46 + 1)).
  { destruct (indexOf c 46 =? -1) eqn:Hi; simpl; [done|].
    destruct (map_get nd _) as [pkg|] eqn:Hget; [|done].
    destruct pkg as [|a pkg]; simpl; [done|].
    intros [= <-]. simpl. split_and!; [lia|done..]. }
  destruct (map_get bs c) as [b|] eqn:Hb.
  - destruct (is_member_export (exportName b)) eqn:Hm; simpl.
    + intros Hr. right. by apply Hmember.
    + intros [= <-]. left. by exists b.
  - intros Hr. right. by apply Hmember.
Qed.

Lemma resolveCallee_imported (tracked : option (gset jsstring)) (c : jsstring)
    (st : ImportState) (r : ResolvedCallee) :
  packages_ok tracked st →
  resolveCallee c (bindings st) (namespacesAndDefaults st) = Some r →
  rc_package r ∈ importedPackages st.
Proof.
  intros (Hb & Hn & _) Hr.
  apply resolveCallee_cases in Hr as [(b & Hget & _ & -> & _) | (_ & Hget & _)].
  - apply map_get_elem in Hget. eauto.
  - apply map_get_elem in Hget. eauto.
Qed.

(** The usage that [call_step] stores keeps the symbol of the usage it
    found, or is that of the resolved callee. *)
Lemma call_step_elem (bs : Map Binding) (nd : Map jsstring) (m : Map SymbolUsage)
    (call : NormalizedCallExpression) (k : jsstring) (u : SymbolUsage) :
  (k, u) ∈ call_step bs nd m call →
  (k, u) ∈ m
  ∨ ∃ r, resolveCallee (callee call) bs nd = Some r
      ∧ k = usageKey (rc_package r) (rc_exportName r)
      ∧ ((∃ u0, map_get m k = Some u0
            ∧ package u = package u0 ∧ export u = export u0
            ∧ importKind u = importKind u0
            ∧ usageSites u = usageSites u0 ++ [call_site call])
         ∨ (map_get m k = None
            ∧ package u = rc_package r ∧ export u = rc_exportName r
            ∧ importKind u = rc_importKind r
            ∧ usageSites u = [call_site call])).
Proof.
  unfold call_step.
  destruct (resolveCallee _ _ _) as [r|] eqn:Hr; [|by left].
  intros Hin. apply map_set_elem in Hin as [Hin | [-> ->]]; [by left|].
  right. exists r. split_and!; [done..|].
  destruct (map_get m _) as [u0|] eqn:Hget.
  - left. by exists u0.
  - right. done.
Qed.

Lemma import_only_step_elem (m : Map SymbolUsage) (b : Binding)
    (k : jsstring) (u : SymbolUsage) :
  (k, u) ∈ import_only_step m b →
  (k, u) ∈ m
  ∨ (is_member_export (exportName b) = false
     ∧ k = usageKey (b_package b) (exportName b)
     ∧ map_has m k = false
     ∧ u = import_only_usage b).
Proof.
  unfold import_only_step.
  destruct (is_member_export (exportName b)); [by left|].
  destruct (map_has m _) eqn:Hhas; simpl; [by left|].
  intros Hin. apply map_set_elem in Hin as [Hin | [-> ->]]; [by left|].
  by right.
Qed.

(** An invariant of the usage map goes through step 2 and, weakened,
    through step 3. *)
Lemma usageMap_ind (P Q : jsstring → SymbolUsage → Prop) (ast : NormalizedAST)
    (tracked : option (gset jsstring)) :
  let st := importsOf ast tracked in
  (∀ m call k u,
     (∀ k' u', (k', u') ∈ m → P k' u') →
     call ∈ callExpressions ast →
     (k, u) ∈ call_step (bindings st) (namespacesAndDefaults st) m call →
     P k u) →
  (∀ k u, P k u → Q k u) →
  (∀ b, b ∈ map_values (bindings st) →
     is_member_export (exportName b) = false →
     Q (usageKey (b_package b) (exportName b)) (import_only_usage b)) →
  ∀ k u, (k, u) ∈ usageMap ast tracked → Q k u.
Proof.
  intros st Hcall HPQ Himp. unfold usageMap. fold st.
  assert (Hcalls : ∀ k u, (k, u) ∈ callUsages ast st → Q k u).
  { intros k u Hin. apply HPQ. revert k u Hin. unfold callUsages.
    assert (Hinit : ∀ k u, (k, u) ∈ ([] : Map SymbolUsage) → P k u).
    { intros ? ? Hin. by apply elem_of_nil in Hin. }
    revert Hinit. generalize ([] : Map SymbolUsage).
    assert (Hsub : ∀ call, call ∈ callExpressions ast → call ∈ callExpressions ast)
      by done.
    revert Hsub. generalize (callExpressions ast) at 1 3.
    induction l as [|call calls IH]; intros Hsub m Hm; simpl; [done|].
    apply IH; [intros; apply Hsub; by right|].
    intros k u Hin.
    apply (Hcall m call); [done| apply Hsub; by left |done]. }
  revert Hcalls. generalize (callUsages ast st).
  assert (Hsub : ∀ b, b ∈ map_values (bindings st) → b ∈ map_values (bindings st))
    by done.
  revert Hsub. generalize (map_values (bindings st)) at 1 3.
  induction l as [|b bs IH]; intros Hsub m Hm; simpl; [done|].
  apply IH; [intros; apply Hsub; by right|].
  intros k u Hin. apply import_only_step_elem in Hin as [Hin | (Hmem & -> & _ & ->)].
  - by apply Hm.
  - apply Himp; [apply Hsub; by left | done].
Qed.

Lemma usages_usageMap (ast : NormalizedAST) (tracked : option (gset jsstring))
    (u : SymbolUsage) :
  u ∈ usages (resolveImports ast tracked) ↔ ∃ k, (k, u) ∈ usageMap ast tracked.
Proof. apply map_values_elem. Qed.

Lemma usageMap_imported (ast : NormalizedAST) (tracked : option (gset jsstring))
    (k : jsstring) (u : SymbolUsage) :
  (k, u) ∈ usageMap ast tracked →
  package u ∈ importedPackages (importsOf ast tracked).
Proof.
  pose proof (importsOf_packages_ok ast tracked) as Hok.
  revert k u.
  apply (usageMap_ind (λ _ u, package u ∈ importedPackages (importsOf ast tracked))
                      (λ _ u, package u ∈ importedPackages (importsOf ast tracked)));
    [|done|].
  - intros m call k u Hm _ Hin.
    apply call_step_elem in Hin
      as [Hin | (r & Hr & _ & [(u0 & Hget & -> & _) | (_ & -> & _)])].
    + by apply (Hm k).
    + apply map_get_elem in Hget. by apply (Hm k).
    + by apply (resolveCallee_imported tracked (callee call)).
  - intros b Hin _. apply map_values_elem in Hin as [k Hin].
    destruct Hok as (Hb & _). simpl. by apply (Hb k).
Qed.

(** X15.  The package of every usage is one of [importedPackages], and so
    passes the filter: a symbol of a package that is not tracked is never
    reported. *)
Theorem resolveImports_tracked (ast : NormalizedAST)
    (tracked : option (gset jsstring)) (u : SymbolUsage) :
  u ∈ usages (resolveImports ast tracked) →
  package u ∈ res_importedPackages (resolveImports ast tracked)
  ∧ is_tracked tracked (package u) = true.
Proof.
  intros Hin. apply usages_usageMap in Hin as [k Hin].
  apply usageMap_imported in Hin.
  split; [done|].
  destruct (importsOf_packages_ok ast tracked) as (_ & _ & Hp). by apply Hp.
Qed.

Lemma map_set_keys {V : Type} (m : Map V) (k k' : jsstring) (v : V) :
  k' ∈ (map_set m k v).*1 → k' ∈ m.*1 ∨ k' = k.
Proof.
  intros Hin. apply list_elem_of_fmap in Hin as ([k0 v0] & -> & Hin).
  apply map_set_elem in Hin as [Hin | [-> _]]; [|by right].
  left. apply list_elem_of_fmap. by exists (k0, v0).
Qed.

Lemma map_set_NoDup {V : Type} (m : Map V) (k : jsstring) (v : V) :
  NoDup m.*1 → NoDup (map_set m k v).*1.
Proof.
  induction m as [|[k0 v0] m IH]; simpl.
  - intros _. apply NoDup_singleton.
  - intros Hnd. apply NoDup_cons in Hnd as [Hk0 Hnd].
    unfold str_eqb. case_bool_decide as Hk; simpl.
    + apply NoDup_cons. done.
    + apply NoDup_cons. split; [|by apply IH].
      intros Hin. apply map_set_keys in Hin as [Hin | ->]; done.
Qed.

Lemma usageMap_NoDup (ast : NormalizedAST) (tracked : option (gset jsstring)) :
  NoDup (usageMap ast tracked).*1.
Proof.
  unfold usageMap.
  assert (Hcalls : NoDup (callUsages ast (importsOf ast tracked)).*1).
  { unfold callUsages.
    assert (Hinit : NoDup ([] : Map SymbolUsage).*1) by apply NoDup_nil_2.
    revert Hinit. generalize ([] : Map SymbolUsage).
    induction (callExpressions ast) as [|call calls IH]; intros m Hm; simpl; [done|].
    apply IH. unfold call_step. destruct (resolveCallee _ _ _); [|done].
    by apply map_set_NoDup. }
  revert Hcalls. generalize (callUsages ast (importsOf ast tracked)).
  induction (map_values _) as [|b bs IH]; intros m Hm; simpl; [done|].
  apply IH. unfold import_only_step.
  destruct (is_member_export _); [done|].
  destruct (negb _); [|done]. by apply map_set_NoDup.
Qed.

Lemma usageMap_ok (ast : NormalizedAST) (tracked : option (gset jsstring))
    (k : jsstring) (u : SymbolUsage) :
  (k, u) ∈ usageMap ast tracked → usage_ok k u.
Proof.
  pose proof (importsOf_ok ast tracked) as Hok. revert k u.
  apply (usageMap_ind usage_ok usage_ok); [|done|].
  - intros m call k u Hm _ Hin.
    by apply (call_step_ok (importsOf ast tracked) m call).
  - intros b Hin _. apply map_values_elem in Hin as [k Hin].
    destruct Hok as [Hb _]. split; [done|]. simpl. by apply (Hb k b).
Qed.

(** X16.  The result holds at most one usage of a symbol: no two usages
    have the same package and the same export. *)
Theorem resolveImports_one_usage_per_symbol (ast : NormalizedAST)
    (tracked : option (gset jsstring)) :
  NoDup ((λ u, (package u, export u)) <$> usages (resolveImports ast tracked)).
Proof.
  pose proof (usageMap_NoDup ast tracked) as Hnd.
  rewrite (keys_of_values (λ u, usageKey (package u) (export u))) in Hnd.
  - change (usages (resolveImports ast tracked)) with (usageMap ast tracked).*2.
    apply (NoDup_fmap_1 (λ pe : jsstring * jsstring, usageKey pe.1 pe.2)).
    by rewrite <- list_fmap_compose.
  - intros k u Hin. by apply usageMap_ok in Hin as [-> _].
Qed.

Lemma map_get_set {V : Type} (m : Map V) (k k' : jsstring) (v : V) :
  map_get (map_set m k v) k' = if str_eqb k k' then Some v else map_get m k'.
Proof.
  induction m as [|[k0 v0] m IH]; simpl.
  - done.
  - unfold str_eqb in *. destruct (decide (k0 = k)) as [-> | Hne].
    + rewrite bool_decide_eq_true_2 by done. simpl. unfold str_eqb.
      repeat case_bool_decide; congruence.
    + rewrite bool_decide_eq_false_2 by done. simpl. rewrite IH. unfold str_eqb.
      repeat case_bool_decide; congruence.
Qed.

Lemma call_step_get (bs : Map Binding) (nd : Map jsstring) (m : Map SymbolUsage)
    (call : NormalizedCallExpression) (r : ResolvedCallee) :
  resolveCallee (callee call) bs nd = Some r →
  ∃ u, map_get (call_step bs nd m call) (usageKey (rc_package r) (rc_exportName r))
       = Some u
    ∧ call_site call ∈ usageSites u.
Proof.
  intros Hr. unfold call_step. rewrite Hr, map_get_set.
  unfold str_eqb. rewrite bool_decide_eq_true_2 by done.
  eexists. split; [done|]. simpl. apply elem_of_app. right. by left.
Qed.

Lemma call_step_keeps (bs : Map Binding) (nd : Map jsstring) (m : Map SymbolUsage)
    (call : NormalizedCallExpression) (key : jsstring) (site : UsageSite) :
  (∃ u, map_get m key = Some u ∧ site ∈ usageSites u) →
  ∃ u, map_get (call_step bs nd m call) key = Some u ∧ site ∈ usageSites u.
Proof.
  intros (u & Hget & Hsite). unfold call_step.
  destruct (resolveCallee _ _ _) as [r|]; [|by exists u].
  rewrite map_get_set. unfold str_eqb. case_bool_decide as Hk; [|by exists u].
  rewrite Hk, Hget. eexists. split; [done|]. simpl. apply elem_of_app. by left.
Qed.

Lemma import_only_step_keeps (m : Map SymbolUsage) (b : Binding)
    (key : jsstring) (site : UsageSite) :
  (∃ u, map_get m key = Some u ∧ site ∈ usageSites u) →
  ∃ u, map_get (import_only_step m b) key = Some u ∧ site ∈ usageSites u.
Proof.
  intros (u & Hget & Hsite). unfold import_only_step.
  destruct (is_member_export _); [by exists u|].
  destruct (map_has m _) eqn:Hhas; simpl; [by exists u|].
  rewrite map_get_set. unfold str_eqb. case_bool_decide as Hk; [|by exists u].
  exfalso. rewrite Hk in Hhas. unfold map_has in Hhas.
  apply bool_decide_eq_false in Hhas. apply Hhas. by exists u.
Qed.

(** X18.  Every call whose callee resolves is recorded: the result holds
    a usage of the resolved symbol, and the call is one of its sites. *)
Theorem resolveImports_call_recorded (ast : NormalizedAST)
    (tracked : option (gset jsstring)) (call : NormalizedCallExpression)
    (r : ResolvedCallee) :
  call ∈ callExpressions ast →
  resolveCallee (callee call) (bindings (importsOf ast tracked))
    (namespacesAndDefaults (importsOf ast tracked)) = Some r →
  ∃ u, u ∈ usages (resolveImports ast tracked)
    ∧ package u = rc_package r ∧ export u = rc_exportName r
    ∧ call_site call ∈ usageSites u.
Proof.
  intros Hcall Hr. set (st := importsOf ast tracked) in *.
  set (key := usageKey (rc_package r) (rc_exportName r)).
  assert (Hget : ∃ u, map_get (usageMap ast tracked) key = Some u
                   ∧ call_site call ∈ usageSites u).
  { unfold usageMap. fold st.
    assert (Hcalls : ∃ u, map_get (callUsages ast st) key = Some u
                       ∧ call_site call ∈ usageSites u).
    { unfold callUsages.
      apply list_elem_of_split in Hcall as (l1 & l2 & ->).
      rewrite foldl_app. simpl.
      generalize (foldl (call_step (bindings st) (namespacesAndDefaults st)) [] l1).
      intros m0.
      pose proof (call_step_get (bindings st) (namespacesAndDefaults st) m0 call r Hr)
        as H0.
      fold key in H0. revert H0.
      generalize (call_step (bindings st) (namespacesAndDefaults st) m0 call).
      induction l2 as [|c l2 IH]; intros m Hm; simpl; [done|].
      apply IH. by apply call_step_keeps. }
    revert Hcalls. generalize (callUsages ast st).
    induction (map_values (bindings st)) as [|b bs IH]; intros m Hm; simpl; [done|].
    apply IH. by apply import_only_step_keeps. }
  destruct Hget as (u & Hget & Hsite). apply map_get_elem in Hget.
  exists u. pose proof (usageMap_ok _ _ _ _ Hget) as [Hkey Hshape].
  apply usageKey_inj in Hkey as [Hp He].
  - split_and!; [|done..]. apply usages_usageMap. by exists key.
  - by apply (resolveCallee_shape (callee call) st r (importsOf_ok ast tracked)).
  - done.
Qed.

End MoreResolver2.

Lemma extractPackageName_idempotent_witness :
  Resolver.extractPackageName (js "react-dom") = Some (js "react-dom").
Proof.
  apply (extractPackageName_idempotent (js "react-dom/client")). reflexivity.
Defined.

Lemma resolveImports_tracked_witness :
  js "react"
    ∈ Resolver.res_importedPackages
        (Resolver.resolveImports MoreSamples.mixed_ast (Some Adapters.REACT_PACKAGES))
  ∧ MoreResolverVocabulary.is_tracked (Some Adapters.REACT_PACKAGES) (js "react") = true.
Proof.
  apply (resolveImports_tracked MoreSamples.mixed_ast (Some Adapters.REACT_PACKAGES)
           MoreSamples.useState_usage).
  vm_compute. left.
Defined.

Lemma resolveImports_call_recorded_witness :
  ∃ u, u ∈ Resolver.usages (Resolver.resolveImports MoreSamples.mixed_ast None)
    ∧ Resolver.package u = js "lodash" ∧ Resolver.export u = js "map"
    ∧ MoreResolverVocabulary.call_site MoreSamples.map_call ∈ Resolver.usageSites u.
Proof.
  apply (resolveImports_call_recorded MoreSamples.mixed_ast None MoreSamples.map_call
           MoreSamples.map_callee).
  - vm_compute. right. left.
  - vm_compute. reflexivity.
Defined.

(* ================================================================== *)
(** * The React adapter *)
(* ================================================================== *)

Section MoreAdapters.
Import Resolver ResolverVocabulary MoreResolverVocabulary Adapters.

Lemma foldl_fmap_same {A B : Type} (f : A → B → A) (g : B → B) (l : list B) (a : A) :
  (∀ a x, f a (g x) = f a x) → foldl f a (g <$> l) = foldl f a l.
Proof.
  intros Hf. revert a. induction l as [|x l IH]; intros a; simpl; [done|].
  by rewrite Hf, IH.
Qed.

Lemma react_dom_subpath (s : jsstring) :
  REACT_DOM_SUBPATHS s = true → extractPackageName s = Some (js "react-dom").
Proof.
  unfold REACT_DOM_SUBPATHS, str_eqb. intros Hs.
  apply orb_true_iff in Hs as [Hs | Hs];
    [apply orb_true_iff in Hs as [Hs | Hs]|];
    apply bool_decide_eq_true in Hs as ->; reflexivity.
Qed.

(** The resolver reads an import statement of a subpath of [react-dom] as
    it reads the normalised one. *)
Lemma import_step_normalized (st : ImportState) (imp : NormalizedImport) :
  import_step (Some REACT_PACKAGES) st (normalizeReactImport imp)
  = import_step (Some REACT_PACKAGES) st imp.
Proof.
  unfold normalizeReactImport.
  destruct (REACT_DOM_SUBPATHS (source imp)) eqn:Hsub; [|done].
  apply react_dom_subpath in Hsub.
  unfold import_step. cbn [source specifiers hasDefault defaultLocal hasNamespace
    namespaceLocal isTypeOnly isRequire location].
  rewrite Hsub.
  assert (extractPackageName (js "react-dom") = Some (js "react-dom")) as ->
    by reflexivity.
  assert (bool_decide (js "react-dom" ∈ REACT_PACKAGES) = true) as ->.
  { apply bool_decide_eq_true. unfold REACT_PACKAGES. set_solver. }
  done.
Qed.

(** X19.  The adapter reports symbols of [react] and [react-dom] only. *)
Theorem resolveSymbols_react_only (imports : list NormalizedImport)
    (ast : NormalizedAST) (u : SymbolUsage) :
  u ∈ resolveSymbols imports ast →
  package u = js "react" ∨ package u = js "react-dom".
Proof.
  unfold resolveSymbols. intros Hin.
  apply usages_usageMap in Hin as [k Hin].
  apply usageMap_imported in Hin.
  destruct (importsOf_packages_ok
    {| Resolver.imports := normalizeReactImport <$> imports;
       callExpressions := callExpressions ast;
       jsxElements := jsxElements ast |} (Some REACT_PACKAGES)) as (_ & _ & Hp).
  apply Hp in Hin. simpl in Hin. apply bool_decide_eq_true in Hin.
  unfold REACT_PACKAGES in Hin. set_solver.
Qed.

(** X20.  The normalisation of the subpaths of [react-dom] changes nothing:
    the adapter returns what the resolver returns for the imports as they
    are, since the resolver reduces a subpath to its package itself. *)
Theorem resolveSymbols_normalization_redundant (imports : list NormalizedImport)
    (ast : NormalizedAST) :
  resolveSymbols imports ast
  = usages (resolveImports {| Resolver.imports := imports;
                              callExpressions := callExpressions ast;
                              jsxElements := jsxElements ast |}
              (Some REACT_PACKAGES)).
Proof.
  unfold resolveSymbols, resolveImports, importsOf, callUsages.
  cbn [Resolver.imports callExpressions usages].
  by rewrite (foldl_fmap_same _ _ _ _ import_step_normalized).
Qed.

End MoreAdapters.

Lemma resolveSymbols_react_only_witness :
  js "react-dom" = js "react" ∨ js "react-dom" = js "react-dom".
Proof.
  apply (resolveSymbols_react_only [MoreSamples.client_import]
           (Resolver.Build_NormalizedAST [] [] [])
           (ResolverVocabulary.import_only_usage
              {| Resolver.b_package := js "react-dom";
                 Resolver.exportName := js "createRoot";
                 Resolver.b_importKind := Resolver.Named;
                 Resolver.importLocation := ResolverVocabulary.loc 1 |})).
  vm_compute. left.
Defined.

Section MoreResolver3.
Import Resolver ResolverVocabulary MoreResolverVocabulary.

(** X21.  Every call site of the result is a call of the AST: a usage
    site with an argument count is the site of a call expression whose
    callee resolves, against the bindings of step 1, to the symbol of the
    usage. *)
Theorem resolveImports_call_sites_sound (ast : NormalizedAST)
    (tracked : option (gset jsstring)) (u : SymbolUsage) (s : UsageSite) :
  u ∈ usages (resolveImports ast tracked) →
  s ∈ usageSites u → is_Some (site_argCount s) →
  ∃ call r,
    call ∈ callExpressions ast
    ∧ s = call_site call
    ∧ resolveCallee (callee call) (bindings (importsOf ast tracked))
        (namespacesAndDefaults (importsOf ast tracked)) = Some r
    ∧ rc_package r = package u ∧ rc_exportName r = export u.
Proof.
  intros Hin Hs Hcount. apply usages_usageMap in Hin as [k Hin].
  pose proof (usageMap_ok _ _ _ _ Hin) as [Hkey Hshape].
  set (st := importsOf ast tracked) in *.
  set (from_call := λ (k : jsstring) (u : SymbolUsage),
    ∀ s, s ∈ usageSites u →
      ∃ call r, call ∈ callExpressions ast ∧ s = call_site call
        ∧ resolveCallee (callee call) (bindings st) (namespacesAndDefaults st) = Some r
        ∧ k = usageKey (rc_package r) (rc_exportName r)).
  set (imported := λ u : SymbolUsage, ∃ l, usageSites u = [import_site l]).
  assert (Hall : from_call k u ∨ imported u).
  { revert k u Hin Hkey Hshape Hs. intros k u Hin _ _ _. revert k u Hin.
    apply (usageMap_ind from_call (λ k u, from_call k u ∨ imported u)).
    - intros m call k u Hm Hcall Hin.
      apply call_step_elem in Hin
        as [Hin | (r & Hr & Hk & [(u0 & Hget & _ & _ & _ & Hsites)
                                 | (_ & _ & _ & _ & Hsites)])].
      + by apply (Hm k).
      + apply map_get_elem in Hget. intros s0 Hs0. rewrite Hsites in Hs0.
        apply elem_of_app in Hs0 as [Hs0 | Hs0]; [by apply (Hm k u0)|].
        apply list_elem_of_singleton in Hs0 as ->. by exists call, r.
      + intros s0 Hs0. rewrite Hsites in Hs0.
        apply list_elem_of_singleton in Hs0 as ->. by exists call, r.
    - intros k u Hc. by left.
    - intros b _ _. right. by eexists. }
  destruct Hall as [Hfrom | [l Hl]].
  - destruct (Hfrom s Hs) as (call & r & Hcall & -> & Hr & Hk).
    exists call, r. split_and!; [done..| |].
    + rewrite Hkey in Hk. apply usageKey_inj in Hk as [Hp _]; [done|done|].
      by apply (resolveCallee_shape (callee call) st r (importsOf_ok ast tracked)).
    + rewrite Hkey in Hk. apply usageKey_inj in Hk as [_ He]; [done|done|].
      by apply (resolveCallee_shape (callee call) st r (importsOf_ok ast tracked)).
  - rewrite Hl in Hs. apply list_elem_of_singleton in Hs as ->.
    simpl in Hcount. by destruct Hcount.
Qed.

End MoreResolver3.

Lemma resolveImports_call_sites_sound_witness :
  ∃ call r,
    call ∈ Resolver.callExpressions MoreSamples.mixed_ast
    ∧ MoreResolverVocabulary.call_site MoreSamples.map_call
      = MoreResolverVocabulary.call_site call
    ∧ Resolver.resolveCallee (Resolver.callee call)
        (Resolver.bindings (Resolver.importsOf MoreSamples.mixed_ast None))
        (Resolver.namespacesAndDefaults (Resolver.importsOf MoreSamples.mixed_ast None))
      = Some r
    ∧ Resolver.rc_package r = js "lodash" ∧ Resolver.rc_exportName r = js "map".
Proof.
  apply (resolveImports_call_sites_sound MoreSamples.mixed_ast None
           {| Resolver.package := js "lodash"; Resolver.export := js "map";
              Resolver.importKind := Resolver.Namespace;
              Resolver.usageSites :=
                [MoreResolverVocabulary.call_site MoreSamples.map_call] |}).
  - vm_compute. right. left.
  - left.
  - vm_compute. by eexists.
Defined.

(* ================================================================== *)
(** * The bindings of step 1, from the import statements *)
(* ================================================================== *)

Section ImportBindings.
Import Resolver ResolverVocabulary MoreResolverVocabulary.

Lemma bind_all_app (m : Map Binding) (l1 l2 : list (jsstring * Binding)) :
  bind_all m (l1 ++ l2) = bind_all (bind_all m l1) l2.
Proof. apply foldl_app. Qed.

Lemma bind_specifiers_events (pkg : jsstring) (imp : NormalizedImport)
    (specs : list ImportSpecifier) (m : Map Binding) :
  foldl (bind_specifier pkg (location imp)) m specs
  = bind_all m (specs ≫= λ sp,
                  if spec_isTypeOnly sp then []
                  else [(local sp, specifier_binding pkg imp sp)]).
Proof.
  revert m. induction specs as [|sp specs IH]; intros m; [done|].
  cbn [foldl]. rewrite bind_cons, bind_all_app, IH. f_equal.
  unfold bind_specifier. by destruct (spec_isTypeOnly sp).
Qed.

Lemma accept_import_bindings (pkg : jsstring) (st : ImportState)
    (imp : NormalizedImport) :
  bindings (accept_import pkg st imp)
  = bind_all (bindings st) (statement_bindings pkg imp).
Proof.
  unfold accept_import, statement_bindings.
  rewrite bind_specifiers_events, !bind_all_app.
  by destruct (hasDefault imp && truthy_opt (defaultLocal imp));
    destruct (hasNamespace imp && truthy_opt (namespaceLocal imp)).
Qed.

Lemma import_steps_bindings (tracked : option (gset jsstring))
    (imps : list NormalizedImport) (st : ImportState) :
  bindings (foldl (import_step tracked) st imps)
  = bind_all (bindings st) (import_bindings tracked imps).
Proof.
  revert st. induction imps as [|imp imps IH]; intros st; [done|].
  cbn [foldl]. unfold import_bindings. rewrite bind_cons, bind_all_app.
  fold (import_bindings tracked imps). rewrite IH. f_equal.
  rewrite import_step_cases.
  destruct (value_package imp) as [pkg|]; [|done].
  destruct (is_tracked tracked pkg); [|done].
  apply accept_import_bindings.
Qed.

(** Step 1 binds what the import statements bind, in their order. *)
Lemma importsOf_bindings (ast : NormalizedAST) (tracked : option (gset jsstring)) :
  bindings (importsOf ast tracked)
  = bind_all [] (import_bindings tracked (imports ast)).
Proof. apply import_steps_bindings. Qed.

(** ** A [Map] after a run of [set] *)

Lemma map_set_keys_eq {V : Type} (m : Map V) (k : jsstring) (v : V) :
  (map_set m k v).*1 = set_add m.*1 k.
Proof.
  unfold set_add. induction m as [|[k0 v0] m IH]; [done|].
  cbn [map_set]. unfold str_eqb. destruct (decide (k0 = k)) as [-> | Hne].
  - rewrite (bool_decide_eq_true_2 (k = k)) by done. rewrite !fmap_cons.
    rewrite bool_decide_eq_true_2; [done | by left].
  - rewrite (bool_decide_eq_false_2 (k0 = k)) by done. rewrite !fmap_cons, IH.
    cbn [fst].
    destruct (decide (k ∈ m.*1)) as [Hin | Hin].
    + rewrite (bool_decide_eq_true_2 (k ∈ m.*1)) by done.
      rewrite bool_decide_eq_true_2; [done | by right].
    + rewrite (bool_decide_eq_false_2 (k ∈ m.*1)) by done.
      rewrite bool_decide_eq_false_2; [done|].
      intros Hin'. apply elem_of_cons in Hin' as [-> | Hin']; done.
Qed.

Lemma bind_all_keys (m : Map Binding) (events : list (jsstring * Binding)) :
  (bind_all m events).*1 = foldl set_add m.*1 events.*1.
Proof.
  revert m. induction events as [|[k b] events IH]; intros m; [done|].
  cbn [bind_all foldl fmap list_fmap]. fold (bind_all (map_set m k b) events).
  rewrite IH. simpl. by rewrite map_set_keys_eq.
Qed.

Lemma bind_all_NoDup (m : Map Binding) (events : list (jsstring * Binding)) :
  NoDup m.*1 → NoDup (bind_all m events).*1.
Proof.
  revert m. induction events as [|[k b] events IH]; intros m Hm; [done|].
  apply IH. by apply map_set_NoDup.
Qed.

Lemma bind_all_get (m : Map Binding) (events : list (jsstring * Binding))
    (k : jsstring) :
  map_get (bind_all m events) k
  = match last (filter (λ e, e.1 = k) events) with
    | Some e => Some e.2
    | None => map_get m k
    end.
Proof.
  induction events as [|[k1 b1] events IH] using rev_ind; [done|].
  rewrite bind_all_app. cbn [bind_all foldl]. simpl.
  rewrite map_get_set, filter_app, IH. unfold str_eqb.
  case_bool_decide as Hk.
  - subst k1. rewrite filter_cons_True by done. by rewrite filter_nil, last_snoc.
  - rewrite filter_cons_False by done. rewrite filter_nil, app_nil_r. done.
Qed.

Lemma map_get_iff {V : Type} (m : Map V) (k : jsstring) (v : V) :
  NoDup m.*1 → (k, v) ∈ m ↔ map_get m k = Some v.
Proof.
  intros Hnd. split; [|apply map_get_elem].
  intros Hin.
  assert (Hsome : is_Some (map_get m k)).
  { apply map_get_is_Some. apply list_elem_of_fmap. by exists (k, v). }
  destruct Hsome as [v' Hget]. rewrite Hget. f_equal.
  apply map_get_elem in Hget. by eapply NoDup_keys_functional.
Qed.

(** The map of step 1 holds a name with the binding it stands for. *)
Lemma bindings_bound (ast : NormalizedAST) (tracked : option (gset jsstring))
    (k : jsstring) (b : Binding) :
  (k, b) ∈ bindings (importsOf ast tracked)
  ↔ bound (import_bindings tracked (imports ast)) k b.
Proof.
  rewrite importsOf_bindings, map_get_iff, bind_all_get
    by (apply bind_all_NoDup, NoDup_nil_2).
  unfold bound. simpl.
  destruct (last (filter _ _)) as [[k' b']|] eqn:Hlast; [|done].
  apply last_Some_elem_of, list_elem_of_filter in Hlast as [Hk _].
  simpl in Hk. subst k'. simpl. split; congruence.
Qed.

Lemma bindings_names (ast : NormalizedAST) (tracked : option (gset jsstring)) :
  (bindings (importsOf ast tracked)).*1
  = bound_names (import_bindings tracked (imports ast)).
Proof. rewrite importsOf_bindings. apply bind_all_keys. Qed.

Lemma bound_elem (events : list (jsstring * Binding)) (k : jsstring) (b : Binding) :
  bound events k b → (k, b) ∈ events.
Proof.
  unfold bound. intros Hlast.
  by apply last_Some_elem_of, list_elem_of_filter in Hlast as [_ Hin].
Qed.

(** Where a binding comes from. *)
Lemma import_bindings_elem (tracked : option (gset jsstring))
    (imps : list NormalizedImport) (k : jsstring) (b : Binding) :
  (k, b) ∈ import_bindings tracked imps →
  ∃ imp pkg, imp ∈ imps ∧ value_package imp = Some pkg
    ∧ is_tracked tracked pkg = true ∧ (k, b) ∈ statement_bindings pkg imp.
Proof.
  unfold import_bindings. intros Hin.
  apply list_elem_of_bind in Hin as (imp & Hin & Himp).
  destruct (value_package imp) as [pkg|] eqn:Hpkg; [|by apply elem_of_nil in Hin].
  destruct (is_tracked tracked pkg) eqn:Ht; [|by apply elem_of_nil in Hin].
  by exists imp, pkg.
Qed.

Lemma statement_bindings_named (pkg : jsstring) (imp : NormalizedImport)
    (k : jsstring) (b : Binding) :
  (k, b) ∈ statement_bindings pkg imp →
  is_member_export (exportName b) = false →
  ∃ sp, sp ∈ specifiers imp ∧ spec_isTypeOnly sp = false
    ∧ k = local sp ∧ b = specifier_binding pkg imp sp.
Proof.
  unfold statement_bindings. intros Hin Hmem.
  apply elem_of_app in Hin as [Hin | Hin].
  - apply list_elem_of_bind in Hin as (sp & Hin & Hsp).
    destruct (spec_isTypeOnly sp) eqn:Ht; [by apply elem_of_nil in Hin|].
    apply list_elem_of_singleton in Hin as [= -> ->]. by exists sp.
  - apply elem_of_app in Hin as [Hin | Hin].
    + destruct (hasDefault imp && _); [|by apply elem_of_nil in Hin].
      apply list_elem_of_singleton in Hin as [= -> ->]. done.
    + destruct (hasNamespace imp && _); [|by apply elem_of_nil in Hin].
      apply list_elem_of_singleton in Hin as [= -> ->]. done.
Qed.

(** A binding of the map of step 1 that names neither the default export
    nor the namespace is that of a named specifier of an import statement
    of the file. *)
Lemma bound_named_specifier (ast : NormalizedAST) (tracked : option (gset jsstring))
    (k : jsstring) (b : Binding) :
  bound (import_bindings tracked (imports ast)) k b →
  is_member_export (exportName b) = false →
  ∃ imp sp, imp ∈ imports ast ∧ sp ∈ specifiers imp
    ∧ named_specifier tracked imp sp (b_package b) (exportName b)
    ∧ k = local sp ∧ b = specifier_binding (b_package b) imp sp.
Proof.
  intros Hb Hmem. apply bound_elem, import_bindings_elem in Hb
    as (imp & pkg & Himp & Hpkg & Ht & Hin).
  apply statement_bindings_named in Hin as (sp & Hsp & Hty & -> & ->); [|done].
  exists imp, sp. simpl in *.
  apply is_member_export_false in Hmem as [Hd Hs].
  split_and!; done.
Qed.

End ImportBindings.

(* ================================================================== *)
(** * Import-only usages *)
(* ================================================================== *)

Section ImportOnly.
Import Resolver ResolverVocabulary MoreResolverVocabulary.

(** An invariant of the usage map goes through step 2. *)
Lemma callUsages_ind (P : jsstring → SymbolUsage → Prop) (ast : NormalizedAST)
    (tracked : option (gset jsstring)) :
  let st := importsOf ast tracked in
  (∀ m call k u,
     (∀ k' u', (k', u') ∈ m → P k' u') →
     call ∈ callExpressions ast →
     (k, u) ∈ call_step (bindings st) (namespacesAndDefaults st) m call →
     P k u) →
  ∀ k u, (k, u) ∈ callUsages ast st → P k u.
Proof.
  intros st Hcall. unfold callUsages.
  assert (Hinit : ∀ k u, (k, u) ∈ ([] : Map SymbolUsage) → P k u).
  { intros ? ? Hin. by apply elem_of_nil in Hin. }
  revert Hinit. generalize ([] : Map SymbolUsage).
  assert (Hsub : ∀ call, call ∈ callExpressions ast → call ∈ callExpressions ast)
    by done.
  revert Hsub. generalize (callExpressions ast) at 1 3.
  induction l as [|call calls IH]; intros Hsub m Hm; simpl; [done|].
  apply IH; [intros; apply Hsub; by right|].
  intros k u Hin.
  apply (Hcall m call); [done| apply Hsub; by left |done].
Qed.

(** Every usage of step 2 has call sites only, each that of a call
    expression of the file that resolves to the key of the usage. *)
Lemma callUsages_from_calls (ast : NormalizedAST) (tracked : option (gset jsstring))
    (k : jsstring) (u : SymbolUsage) :
  let st := importsOf ast tracked in
  (k, u) ∈ callUsages ast st →
  usageSites u ≠ []
  ∧ ∀ s, s ∈ usageSites u →
      ∃ call r, call ∈ callExpressions ast ∧ s = call_site call
        ∧ resolveCallee (callee call) (bindings st) (namespacesAndDefaults st)
          = Some r
        ∧ k = usageKey (rc_package r) (rc_exportName r).
Proof.
  intros st. revert k u. apply callUsages_ind.
  intros m call k u Hm Hcall Hin.
  apply call_step_elem in Hin
    as [Hin | (r & Hr & Hk & [(u0 & Hget & _ & _ & _ & Hsites)
                             | (_ & _ & _ & _ & Hsites)])].
  - by apply (Hm k).
  - apply map_get_elem in Hget. destruct (Hm _ _ Hget) as [_ Hall].
    rewrite Hsites. split; [by destruct (usageSites u0)|].
    intros s Hs. apply elem_of_app in Hs as [Hs | Hs]; [by apply Hall|].
    apply list_elem_of_singleton in Hs as ->. by exists call, r.
  - rewrite Hsites. split; [done|].
    intros s Hs. apply list_elem_of_singleton in Hs as ->. by exists call, r.
Qed.

(** A call that resolves is recorded by step 2. *)
Lemma callUsages_get (ast : NormalizedAST) (tracked : option (gset jsstring))
    (call : NormalizedCallExpression) (r : ResolvedCallee) :
  let st := importsOf ast tracked in
  call ∈ callExpressions ast →
  resolveCallee (callee call) (bindings st) (namespacesAndDefaults st) = Some r →
  ∃ u, map_get (callUsages ast st) (usageKey (rc_package r) (rc_exportName r))
       = Some u
    ∧ call_site call ∈ usageSites u.
Proof.
  intros st Hcall Hr. unfold callUsages.
  apply list_elem_of_split in Hcall as (l1 & l2 & ->).
  rewrite foldl_app. simpl.
  generalize (foldl (call_step (bindings st) (namespacesAndDefaults st)) [] l1).
  intros m0.
  pose proof (call_step_get (bindings st) (namespacesAndDefaults st) m0 call r Hr)
    as H0.
  revert H0.
  generalize (call_step (bindings st) (namespacesAndDefaults st) m0 call).
  induction l2 as [|c l2 IH]; intros m Hm; simpl; [done|].
  apply IH. by apply call_step_keeps.
Qed.

(** The usage map of step 2 holds a usage of a symbol exactly when a call
    expression of the file resolves to the symbol. *)
Lemma has_call_site_called (ast : NormalizedAST) (tracked : option (gset jsstring))
    (pkg exp : jsstring) :
  has_call_site (callUsages ast (importsOf ast tracked)) pkg exp
  ↔ called_symbol ast tracked pkg exp.
Proof.
  pose proof (importsOf_ok ast tracked) as Hst.
  pose proof (callUsages_ok ast _ Hst) as Hok.
  split.
  - intros (u & Hu & <- & <-). apply map_values_elem in Hu as (k & Hin).
    destruct (callUsages_from_calls ast tracked k u Hin) as [Hne Hall].
    destruct (usageSites u) as [|s sites] eqn:Hs; [done|].
    destruct (Hall s) as (call & r & Hcall & _ & Hr & Hk); [by left|].
    destruct (Hok _ _ Hin) as [Hkey Hshape]. rewrite Hkey in Hk.
    apply usageKey_inj in Hk as [Hp He];
      [|done|by apply (resolveCallee_shape (callee call) _ r Hst)].
    by exists call, r.
  - intros (call & r & Hcall & Hr & <- & <-).
    destruct (callUsages_get ast tracked call r Hcall Hr) as (u & Hget & _).
    apply map_get_elem in Hget. exists u.
    destruct (Hok _ _ Hget) as [Hkey Hshape].
    apply usageKey_inj in Hkey as [Hp He];
      [|by apply (resolveCallee_shape (callee call) _ r Hst)|done].
    split_and!; [|done..]. apply map_values_elem. eauto.
Qed.

Lemma specifier_binding_named (tracked : option (gset jsstring))
    (imp : NormalizedImport) (sp : ImportSpecifier) (pkg : jsstring) :
  named_specifier tracked imp sp pkg (imported sp) →
  is_named (specifier_binding pkg imp sp).
Proof. intros (_ & _ & _ & _ & Hd & Hs). by split_and!. Qed.

Lemma binding_lookup (ast : NormalizedAST) (tracked : option (gset jsstring))
    (i : nat) (b : Binding) :
  map_values (bindings (importsOf ast tracked)) !! i = Some b →
  ∃ k, bound (import_bindings tracked (imports ast)) k b
    ∧ bound_names (import_bindings tracked (imports ast)) !! i = Some k.
Proof.
  unfold map_values. rewrite list_lookup_fmap.
  destruct (bindings (importsOf ast tracked) !! i) as [[k b']|] eqn:Hi; [|done].
  simpl. intros [= ->]. exists k. split.
  - apply bindings_bound. by eapply list_elem_of_lookup_2.
  - rewrite <- bindings_names, list_lookup_fmap, Hi. done.
Qed.

(** X22.  What step 3 adds.  The usages of the result are those of the
    symbols with call sites ([called]) followed by import-only usages
    ([extra]), one for each symbol that is imported by name and has no call
    site.
    - Every usage of [called] is of a symbol that a call expression of the
      file resolves to, and has call sites only.
    - No two usages of [extra] name the same symbol.
    - Every usage of [extra] is of a symbol without call site, and is the
      import-only usage of a named specifier of an import statement of the
      file whose local name still stands for it: its only site is the
      location of that import statement.  So a symbol with a call site
      gains no usage.
    - For every named specifier of an import statement of the file whose
      local name still stands for it and whose symbol has no call site,
      [extra] holds a usage of the symbol (one only, by the second point);
      it is the usage of this specifier, with the location of its
      statement, when no other name that stands for the same symbol was
      bound before this one.  A later named binding of the same symbol
      adds nothing. *)
Theorem resolveImports_import_only (ast : NormalizedAST)
    (tracked : option (gset jsstring)) :
  let events := import_bindings tracked (imports ast) in
  ∃ called extra,
    usages (resolveImports ast tracked) = called ++ extra
    ∧ (∀ u, u ∈ called →
         called_symbol ast tracked (package u) (export u) ∧ called_in ast u)
    ∧ NoDup ((λ u, (package u, export u)) <$> extra)
    ∧ (∀ u, u ∈ extra →
         ¬ called_symbol ast tracked (package u) (export u)
         ∧ ∃ imp sp,
             imp ∈ imports ast ∧ sp ∈ specifiers imp
             ∧ named_specifier tracked imp sp (package u) (export u)
             ∧ bound events (local sp) (specifier_binding (package u) imp sp)
             ∧ u = import_only_usage (specifier_binding (package u) imp sp))
    ∧ (∀ imp sp pkg,
         imp ∈ imports ast → sp ∈ specifiers imp →
         named_specifier tracked imp sp pkg (imported sp) →
         bound events (local sp) (specifier_binding pkg imp sp) →
         ¬ called_symbol ast tracked pkg (imported sp) →
         (∃ u, u ∈ extra ∧ package u = pkg ∧ export u = imported sp)
         ∧ ((∀ k' b', bound events k' b' →
               b_package b' = pkg → exportName b' = imported sp →
               ∀ i j, bound_names events !! i = Some k' →
                      bound_names events !! j = Some (local sp) → (j ≤ i)%nat) →
            import_only_usage (specifier_binding pkg imp sp) ∈ extra)).
Proof.
  intros events.
  destruct (import_only_by_bindings ast tracked)
    as (extra & Husages & Hnd & Hextra & Hcover & Hfirst).
  set (st := importsOf ast tracked) in *.
  set (calls := callUsages ast st) in *.
  exists (map_values calls), extra. split_and!; [done| |done| |].
  - intros u Hu. split.
    + apply has_call_site_called. by exists u.
    + apply map_values_elem in Hu as (k & Hin).
      destruct (callUsages_from_calls ast tracked k u Hin) as [Hne Hall].
      split; [done|]. intros s Hs.
      destruct (Hall s Hs) as (call & r & Hcall & -> & _). split; [by eexists|].
      by exists call.
  - intros u Hu. destruct (Hextra u Hu) as (b & Hb & Hnamed & Hno & ->).
    split.
    { intros Hc. apply Hno. by apply has_call_site_called. }
    apply map_values_elem in Hb as (k & Hb). apply bindings_bound in Hb.
    destruct Hnamed as (_ & Hd & Hs).
    destruct (bound_named_specifier ast tracked k b Hb)
      as (imp & sp & Himp & Hsp & Hspec & -> & Hbeq).
    { by apply is_member_export_false. }
    exists imp, sp. simpl. rewrite <- Hbeq. done.
  - intros imp sp pkg Himp Hsp Hspec Hbound Hno.
    set (b := specifier_binding pkg imp sp) in *.
    assert (Hnamed : is_named b) by by eapply specifier_binding_named.
    assert (Hb : b ∈ map_values (bindings st)).
    { apply map_values_elem. exists (local sp). by apply bindings_bound. }
    assert (Hno' : ¬ has_call_site calls (b_package b) (exportName b)).
    { intros Hc. apply Hno. by apply has_call_site_called. }
    split.
    + destruct (Hcover b Hb Hnamed Hno') as (b' & _ & Hp & He & Hin & _).
      exists (import_only_usage b'). by split_and!.
    + intros Horder.
      assert (HinM : (local sp, b) ∈ bindings st) by by apply bindings_bound.
      apply list_elem_of_lookup_1 in HinM as [i Hi].
      assert (Hbi : map_values (bindings st) !! i = Some b).
      { unfold map_values. by rewrite list_lookup_fmap, Hi. }
      assert (Hni : bound_names events !! i = Some (local sp)).
      { unfold events. rewrite <- bindings_names. fold st.
        by rewrite list_lookup_fmap, Hi. }
      apply (Hfirst i b Hbi Hnamed Hno').
      intros j b0 Hj Hb0 [Hp He].
      destruct (binding_lookup ast tracked j b0 Hb0) as (k0 & Hk0 & Hn0).
      specialize (Horder k0 b0 Hk0 Hp He j i Hn0 Hni). lia.
Qed.

End ImportOnly.

Section UsageSites.
Import Resolver ResolverVocabulary MoreResolverVocabulary.

(** X17.  A usage of the result is of one of two kinds.  Either it has at
    least one site and every site is that of a call expression of the
    file, with its argument count; or its only site is the location of an
    import statement of the file that imports the symbol of the usage by
    name, without argument count. *)
Theorem resolveImports_sites (ast : NormalizedAST)
    (tracked : option (gset jsstring)) (u : SymbolUsage) :
  u ∈ usages (resolveImports ast tracked) →
  called_in ast u ∨ import_only ast tracked u.
Proof.
  intros Hin. apply usages_usageMap in Hin as [k Hin]. revert k u Hin.
  apply (usageMap_ind (λ _ u, called_in ast u)
                      (λ _ u, called_in ast u ∨ import_only ast tracked u)).
  - intros m call k u Hm Hcall Hin.
    apply call_step_elem in Hin
      as [Hin | (r & Hr & _ & [(u0 & Hget & _ & _ & _ & Hs) | (_ & _ & _ & _ & Hs)])].
    + by apply (Hm k).
    + apply map_get_elem in Hget. destruct (Hm _ _ Hget) as [_ Hall].
      unfold called_in. rewrite Hs. split; [by destruct (usageSites u0)|].
      intros s Hin. apply elem_of_app in Hin as [Hin | Hin]; [by apply Hall|].
      apply list_elem_of_singleton in Hin as ->.
      split; [by eexists | by exists call].
    + unfold called_in. rewrite Hs. split; [done|].
      intros s Hin. apply list_elem_of_singleton in Hin as ->.
      split; [by eexists | by exists call].
  - intros k u Hc. by left.
  - intros b Hb Hmem. right.
    apply map_values_elem in Hb as (k & Hb). apply bindings_bound in Hb.
    destruct (bound_named_specifier ast tracked k b Hb Hmem)
      as (imp & sp & Himp & Hsp & Hspec & _ & Hbeq).
    exists imp, sp. simpl. split_and!; [done..| |]; by rewrite Hbeq.
Qed.

End UsageSites.

Lemma resolveImports_sites_witness :
  MoreResolverVocabulary.called_in MoreSamples.mixed_ast MoreSamples.useState_usage
  ∨ MoreResolverVocabulary.import_only MoreSamples.mixed_ast None
      MoreSamples.useState_usage.
Proof.
  apply (resolveImports_sites MoreSamples.mixed_ast None). vm_compute. left.
Defined.

(** The sample file: [useState] is called, [createFactory] is only
    imported. *)
Lemma resolveImports_import_only_witness :
  ∃ called extra,
    Resolver.usages (Resolver.resolveImports ResolverVocabulary.sample_ast None)
    = called ++ extra
    ∧ (∀ u, u ∈ called →
         MoreResolverVocabulary.called_symbol ResolverVocabulary.sample_ast None
           (Resolver.package u) (Resolver.export u))
    ∧ (∀ u, u ∈ extra →
         ¬ MoreResolverVocabulary.called_symbol ResolverVocabulary.sample_ast None
             (Resolver.package u) (Resolver.export u)).
Proof.
  destruct (resolveImports_import_only ResolverVocabulary.sample_ast None)
    as (called & extra & Husages & Hcalled & _ & Hextra & _).
  exists called, extra. split; [exact Husages|]. split.
  - intros u Hu. exact (proj1 (Hcalled u Hu)).
  - intros u Hu. exact (proj1 (Hextra u Hu)).
Defined.

